(** * ctypes long double stubs: a shallow embedding of [ldouble_stubs.c]

    The C file boxes [long double] and [long double complex] values for the
    OCaml runtime and supplies the custom-block hooks (compare, hash,
    serialize, deserialize) together with a libm facade.  The embedding
    keeps the C names.  Floating-point data are IEEE-style radix-2 values
    (the pair of doubles of PowerPC is stored as its two halves); the
    platform (mantissa width, storage width, endianness, operating
    system) is an explicit record, since the C file branches on it with the
    preprocessor. *)

From Stdlib Require Import ZArith List Bool String Ascii Lia.
From coqutil Require Import Byte Word.LittleEndianList.
Import ListNotations.
Local Open Scope Z_scope.

(** ** Floating-point data *)

(** A radix-2 floating-point datum: signed zero, signed infinity, NaN with
    sign and payload (the fraction field, never zero), or the finite
    non-zero number [(-1)^s * m * 2^e]. *)
Inductive fp : Type :=
| FZero (s : bool)
| FInf (s : bool)
| FNaN (s : bool) (pl : positive)
| FFinite (s : bool) (m : positive) (e : Z).

(** A format: [prec] is the mantissa digit count ([LDBL_MANT_DIG],
    [DBL_MANT_DIG]) and [emax] the maximal exponent ([LDBL_MAX_EXP]). *)
Record format : Type := { prec : Z; emax : Z }.

Definition emin (f : format) : Z := 3 - emax f - prec f.
Definition fexp (f : format) (x : Z) : Z := Z.max (x - prec f) (emin f).
Definition digits2 (m : positive) : Z := Z.log2 (Z.pos m) + 1.

Definition canonical_mantissa (f : format) (m : positive) (e : Z) : bool :=
  fexp f (digits2 m + e) =? e.
Definition bounded (f : format) (m : positive) (e : Z) : bool :=
  canonical_mantissa f m e && (e <=? emax f - prec f).

(** The values a variable of the format can hold. *)
Definition valid (f : format) (x : fp) : bool :=
  match x with
  | FZero _ | FInf _ => true
  | FNaN _ pl => Z.pos pl <? 2 ^ (prec f - 1)
  | FFinite _ m e => bounded f m e
  end.

(** [fpclassify] of <math.h>. *)
Inductive fpclass : Type :=
  FP_NORMAL | FP_SUBNORMAL | FP_ZERO | FP_INFINITE | FP_NAN.

Definition fpclassify (f : format) (x : fp) : fpclass :=
  match x with
  | FZero _ => FP_ZERO
  | FInf _ => FP_INFINITE
  | FNaN _ _ => FP_NAN
  | FFinite _ m _ => if digits2 m <? prec f then FP_SUBNORMAL else FP_NORMAL
  end.

(** Exact comparison of the magnitudes [m1 * 2^e1] and [m2 * 2^e2]. *)
Definition cmp_magnitude (m1 : positive) (e1 : Z) (m2 : positive) (e2 : Z)
  : comparison :=
  let e := Z.min e1 e2 in
  Z.compare (Z.pos m1 * 2 ^ (e1 - e)) (Z.pos m2 * 2 ^ (e2 - e)).

(** IEEE comparison; [None] is the unordered outcome. *)
Definition fp_compare (x y : fp) : option comparison :=
  match x, y with
  | FNaN _ _, _ | _, FNaN _ _ => None
  | FInf sx, FInf sy =>
      Some (match sx, sy with
            | true, false => Lt | false, true => Gt | _, _ => Eq end)
  | FInf s, _ => Some (if s then Lt else Gt)
  | _, FInf s => Some (if s then Gt else Lt)
  | FZero _, FZero _ => Some Eq
  | FZero _, FFinite s _ _ => Some (if s then Gt else Lt)
  | FFinite s _ _, FZero _ => Some (if s then Lt else Gt)
  | FFinite s1 m1 e1, FFinite s2 m2 e2 =>
      Some (match s1, s2 with
            | true, false => Lt
            | false, true => Gt
            | false, false => cmp_magnitude m1 e1 m2 e2
            | true, true => CompOpp (cmp_magnitude m1 e1 m2 e2)
            end)
  end.

(** The C relational operators on floating operands. *)
Definition fp_lt (x y : fp) : bool :=
  match fp_compare x y with Some Lt => true | _ => false end.
Definition fp_gt (x y : fp) : bool :=
  match fp_compare x y with Some Gt => true | _ => false end.
Definition fp_eq (x y : fp) : bool :=
  match fp_compare x y with Some Eq => true | _ => false end.
Definition fp_ne (x y : fp) : bool := negb (fp_eq x y).

Definition is_nan (x : fp) : bool :=
  match x with FNaN _ _ => true | _ => false end.
Definition is_finite (x : fp) : bool :=
  match x with FZero _ | FFinite _ _ _ => true | _ => false end.

(** The literal [0.0L]. *)
Definition pos_zero : fp := FZero false.
Definition neg_zero : fp := FZero true.

(** ** Floating-point arithmetic (round to nearest, ties to even) *)

(** The quiet bit is the top bit of the fraction field. *)
Definition quiet_bit (f : format) : Z := 2 ^ (prec f - 2).
Definition is_quiet (f : format) (pl : positive) : bool :=
  Z.testbit (Z.pos pl) (prec f - 2).
Definition quiet (f : format) (x : fp) : fp :=
  match x with
  | FNaN s pl => FNaN s (Z.to_pos (Z.lor (Z.pos pl) (quiet_bit f)))
  | _ => x
  end.
(** The NaN an invalid operation produces. *)
Definition default_nan (f : format) : fp := FNaN true (Z.to_pos (quiet_bit f)).

(** Packs a rounded mantissa [q] at exponent [e]: a carry out of the
    mantissa is renormalised, an exponent above the format overflows. *)
Definition round_finish (f : format) (s : bool) (q e : Z) : fp :=
  match q with
  | Z.pos m =>
      let '(q', e') :=
        if prec f <? digits2 m then (q / 2, e + 1) else (q, e) in
      if e' <=? emax f - prec f then FFinite s (Z.to_pos q') e' else FInf s
  | _ => FZero s
  end.

(** Rounds the exact value [(-1)^s * m * 2^e] into the format. *)
Definition round_fp (f : format) (s : bool) (m : positive) (e : Z) : fp :=
  let e' := fexp f (digits2 m + e) in
  if e' <=? e then round_finish f s (Z.pos m * 2 ^ (e - e')) e'
  else
    let k := e' - e in
    let q := Z.pos m / 2 ^ k in
    let r := Z.pos m mod 2 ^ k in
    let half := 2 ^ (k - 1) in
    let up := (half <? r) || ((r =? half) && Z.odd q) in
    round_finish f s (if up then q + 1 else q) e'.

Definition signed (s : bool) (m : Z) : Z := if s then - m else m.

(** Sum and product.  Which of two NaN operands is propagated is left to
    the hardware by IEEE 754; the first one is taken here. *)
Definition fp_add (f : format) (x y : fp) : fp :=
  match x, y with
  | FNaN _ _, _ => quiet f x
  | _, FNaN _ _ => quiet f y
  | FInf sx, FInf sy => if Bool.eqb sx sy then x else default_nan f
  | FInf _, _ => x
  | _, FInf _ => y
  | FZero sx, FZero sy => if Bool.eqb sx sy then x else FZero false
  | FZero _, _ => y
  | _, FZero _ => x
  | FFinite sx mx ex, FFinite sy my ey =>
      let e := Z.min ex ey in
      let z := signed sx (Z.pos mx * 2 ^ (ex - e))
               + signed sy (Z.pos my * 2 ^ (ey - e)) in
      match z with
      | Z0 => FZero false
      | Z.pos m => round_fp f false m e
      | Z.neg m => round_fp f true m e
      end
  end.

Definition fp_mul (f : format) (x y : fp) : fp :=
  match x, y with
  | FNaN _ _, _ => quiet f x
  | _, FNaN _ _ => quiet f y
  | FInf _, FZero _ | FZero _, FInf _ => default_nan f
  | FInf sx, FInf sy | FInf sx, FFinite sy _ _ | FFinite sx _ _, FInf sy =>
      FInf (xorb sx sy)
  | FZero sx, FZero sy | FZero sx, FFinite sy _ _ | FFinite sx _ _, FZero sy =>
      FZero (xorb sx sy)
  | FFinite sx mx ex, FFinite sy my ey =>
      round_fp f (xorb sx sy) (mx * my) (ex + ey)
  end.

Definition fp_neg (x : fp) : fp :=
  match x with
  | FZero s => FZero (negb s)
  | FInf s => FInf (negb s)
  | FNaN s pl => FNaN (negb s) pl
  | FFinite s m e => FFinite (negb s) m e
  end.

Definition same_format (a b : format) : bool :=
  (prec a =? prec b) && (emax a =? emax b).

(** A conversion instruction between two different formats: a NaN keeps
    the top of its payload and is quieted, a finite value is rounded. *)
Definition fp_convert (src dst : format) (x : fp) : fp :=
  match x with
  | FNaN s pl =>
      let d := prec dst - prec src in
      let pl' := if 0 <=? d then Z.pos pl * 2 ^ d else Z.pos pl / 2 ^ (- d) in
      FNaN s (Z.to_pos (Z.lor pl' (quiet_bit dst)))
  | FFinite s m e => round_fp dst s m e
  | _ => x
  end.

(** A C cast.  Between two types of one format no instruction is
    emitted and the object is copied as it is, a signalling NaN
    included; otherwise the value is converted. *)
Definition fp_cast (src dst : format) (x : fp) : fp :=
  if same_format src dst then x else fp_convert src dst x.

(** ** Platform and runtime *)

(** What the preprocessor and <float.h> fix at compile time. *)
Record platform : Type := {
  LDBL_MANT_DIG : Z;
  LDBL_MAX_EXP : Z;
  DBL_MANT_DIG : Z;
  DBL_MAX_EXP : Z;
  sizeof_long_double : Z;
  sizeof_double : Z;
  ARCH_BIG_ENDIAN : bool;
  defined_NetBSD : bool;
  defined_ANDROID : bool;
  defined_FreeBSD : bool;
  nanl_empty : fp  (* the value of nanl("") *)
}.

Definition ldbl (P : platform) : format :=
  {| prec := LDBL_MANT_DIG P; emax := LDBL_MAX_EXP P |}.
Definition dbl (P : platform) : format :=
  {| prec := DBL_MANT_DIG P; emax := DBL_MAX_EXP P |}.

(** OCaml exceptions raised through <caml/fail.h>. *)
Inductive exn : Type :=
| Failure (msg : string)
| Invalid_argument (msg : string)
| Out_of_memory.

Inductive outcome (A : Type) : Type :=
| Return (a : A)
| Raise (e : exn).
Arguments Return {A} a.
Arguments Raise {A} e.

(** The mutable state the stubs touch: the static [nan_], the runtime's
    [caml_compare_unordered] flag, the marshalling output buffer and the
    unmarshalling input.  [junk] stands for the indeterminate bytes that
    fill storage the code never writes (padding of a stack temporary). *)
Record runtime : Type := {
  nan_ : fp;
  caml_compare_unordered : bool;
  extern_out : list byte;
  intern_src : list byte;
  junk : list byte
}.

Definition M (A : Type) : Type := runtime -> outcome A * runtime.

Definition ret {A} (a : A) : M A := fun rt => (Return a, rt).
Definition raise {A} (e : exn) : M A := fun rt => (Raise e, rt).
Definition bind {A B} (c : M A) (k : A -> M B) : M B :=
  fun rt => match c rt with
            | (Return a, rt') => k a rt'
            | (Raise e, rt') => (Raise e, rt')
            end.
Definition get : M runtime := fun rt => (Return rt, rt).

Notation "x <- c ;; k" := (bind c (fun x => k))
  (at level 61, c at next level, right associativity).
Notation "c ;;; k" := (bind c (fun _ => k))
  (at level 61, right associativity).

Definition caml_failwith {A} (msg : string) : M A := raise (Failure msg).
Definition caml_invalid_argument {A} (msg : string) : M A :=
  raise (Invalid_argument msg).
Definition caml_raise_out_of_memory {A} : M A := raise Out_of_memory.

Definition set_caml_compare_unordered (b : bool) : M unit :=
  fun rt => (Return tt,
             {| nan_ := nan_ rt; caml_compare_unordered := b;
                extern_out := extern_out rt; intern_src := intern_src rt;
                junk := junk rt |}).

(** The state before [ldouble_init] has run: C zero-initialises statics. *)
Definition initial_runtime : runtime :=
  {| nan_ := pos_zero; caml_compare_unordered := false;
     extern_out := []; intern_src := []; junk := [] |}.

(** ** Boxed values *)

Inductive custom_operations : Type :=
  caml_ldouble_ops | caml_ldouble_complex_ops.

(** OCaml values as far as the stubs see them.  The data area of a custom
    block is an array of [long double] cells: one for a scalar, two
    (real, imaginary) for a complex. *)
Inductive value : Type :=
| Val_long (n : Z)
| Val_unit
| Val_double (d : fp)
| Val_string (s : list byte)
| Val_custom (ops : custom_operations) (data : list fp).

Definition Data_custom_val (v : value) : list fp :=
  match v with Val_custom _ data => data | _ => [] end.

Definition complex : Type := fp * fp.
Definition creall (z : complex) : fp := fst z.
Definition cimagl (z : complex) : fp := snd z.
(** Conversion of a real to a complex: the imaginary part is +0. *)
Definition complex_of_real (x : fp) : complex := (x, pos_zero).

(** [*(long double * )Data_custom_val(V)]: the first cell. *)
Definition ldouble_custom_val (v : value) : fp :=
  nth 0 (Data_custom_val v) pos_zero.
(** [*(long double complex * )Data_custom_val(V)]: the first two cells. *)
Definition ldouble_complex_custom_val (v : value) : complex :=
  (nth 0 (Data_custom_val v) pos_zero, nth 1 (Data_custom_val v) pos_zero).

Definition ctypes_copy_ldouble (u : fp) : value :=
  Val_custom caml_ldouble_ops [u].
Definition ctypes_ldouble_val (v : value) : fp := ldouble_custom_val v.
Definition ctypes_copy_ldouble_complex (u : complex) : value :=
  Val_custom caml_ldouble_complex_ops [creall u; cimagl u].
Definition ctypes_ldouble_complex_val (v : value) : complex :=
  ldouble_complex_custom_val v.

(** ** Normalisation and ordering *)

Section Ordering.
Variable P : platform.

Definition norm (rt : runtime) (x : fp) : fp :=
  match fpclassify (ldbl P) x with
  | FP_ZERO => pos_zero
  | FP_NAN => nan_ rt
  | _ => x
  end.

Definition ldouble_cmp (u1 u2 : fp) : M Z :=
  if fp_lt u1 u2 then ret (-1)
  else if fp_gt u1 u2 then ret 1
  else if fp_ne u1 u2 then
    set_caml_compare_unordered true ;;;
    if fp_eq u1 u1 then ret 1
    else if fp_eq u2 u2 then ret (-1)
    else ret 0
  else ret 0.

Definition ldouble_cmp_val (v1 v2 : value) : M Z :=
  let u1 := ldouble_custom_val v1 in
  let u2 := ldouble_custom_val v2 in
  ldouble_cmp u1 u2.

(** The source reads both operands with [ldouble_custom_val], a
    [long double] lvalue, and converts that to [long double complex]. *)
Definition ldouble_complex_cmp_val (v1 v2 : value) : M Z :=
  let u1 := complex_of_real (ldouble_custom_val v1) in
  let u2 := complex_of_real (ldouble_custom_val v2) in
  cmp_real <- ldouble_cmp (creall u1) (creall u2) ;;
  if cmp_real =? 0 then ldouble_cmp (cimagl u1) (cimagl u2)
  else ret cmp_real.
End Ordering.

(** ** Object representation *)

(** How a format is laid out in memory: sign bit, [ebits] bits of biased
    exponent, then the mantissa field.  The Intel extended format stores
    the leading mantissa bit explicitly; the interchange formats
    (binary64, binary128) leave it implicit. *)
Record layout : Type := { lfmt : format; explicit_bit : bool }.

Definition ebits (L : layout) : Z := Z.log2 (emax (lfmt L)) + 1.
Definition mbits (L : layout) : Z :=
  if explicit_bit L then prec (lfmt L) else prec (lfmt L) - 1.
Definition total_bits (L : layout) : Z := 1 + ebits L + mbits L.

Definition exponent_field (L : layout) (x : fp) : Z :=
  match x with
  | FZero _ => 0
  | FInf _ | FNaN _ _ => 2 ^ ebits L - 1
  | FFinite _ m e =>
      if digits2 m <? prec (lfmt L) then 0 else e - emin (lfmt L) + 1
  end.

Definition mantissa_field (L : layout) (x : fp) : Z :=
  let top := 2 ^ (prec (lfmt L) - 1) in
  match x with
  | FZero _ => 0
  | FInf _ => if explicit_bit L then top else 0
  | FNaN _ pl => if explicit_bit L then top + Z.pos pl else Z.pos pl
  | FFinite _ m _ => if explicit_bit L then Z.pos m else Z.pos m mod top
  end.

Definition sign_of (x : fp) : bool :=
  match x with FZero s | FInf s | FNaN s _ | FFinite s _ _ => s end.

Definition bits_of_fp (L : layout) (x : fp) : Z :=
  Z.b2z (sign_of x) * 2 ^ (ebits L + mbits L)
  + exponent_field L x * 2 ^ mbits L
  + mantissa_field L x.

(** Reading the three fields back.  Patterns the hardware does not
    produce (an Intel pattern with a non-zero exponent and a clear leading
    bit) are unsupported operands and read as NaN. *)
Definition fp_of_fields (L : layout) (s : bool) (E mant : Z) : fp :=
  let f := lfmt L in
  let frac := mant mod 2 ^ (prec f - 1) in
  if E =? 0 then
    match mant with Z.pos m => FFinite s m (emin f) | _ => FZero s end
  else if E =? 2 ^ ebits L - 1 then
    match frac with Z.pos pl => FNaN s pl | _ => FInf s end
  else if explicit_bit L then
    match mant with
    | Z.pos m => if Z.testbit mant (prec f - 1)
                 then FFinite s m (E - 1 + emin f)
                 else FNaN s (Z.to_pos (quiet_bit f))
    | _ => FNaN s (Z.to_pos (quiet_bit f))
    end
  else FFinite s (Z.to_pos (mant + 2 ^ (prec f - 1))) (E - 1 + emin f).

Definition fp_of_bits (L : layout) (z : Z) : fp :=
  fp_of_fields L (Z.odd (z / 2 ^ (ebits L + mbits L)))
               ((z / 2 ^ mbits L) mod 2 ^ ebits L)
               (z mod 2 ^ mbits L).

(** The IEEE double format and its 64-bit layout. *)
Definition binary64 : format := {| prec := 53; emax := 1024 |}.
Definition binary64_layout : layout :=
  {| lfmt := binary64; explicit_bit := false |}.

(** ** Host runtime primitives

    The marshalling and hashing primitives belong to the OCaml runtime
    (<caml/intext.h>, <caml/hash.h>), not to the stubs; they are given
    here with the behaviour the runtime documents so that the stubs can be
    evaluated.  Block primitives write integers big-endian on the wire,
    the float primitive writes little-endian. *)

Definition with_extern_out (rt : runtime) (out : list byte) : runtime :=
  {| nan_ := nan_ rt; caml_compare_unordered := caml_compare_unordered rt;
     extern_out := out; intern_src := intern_src rt; junk := junk rt |}.
Definition with_intern_src (rt : runtime) (src : list byte) : runtime :=
  {| nan_ := nan_ rt; caml_compare_unordered := caml_compare_unordered rt;
     extern_out := extern_out rt; intern_src := src; junk := junk rt |}.
Definition with_nan_ (rt : runtime) (x : fp) : runtime :=
  {| nan_ := x; caml_compare_unordered := caml_compare_unordered rt;
     extern_out := extern_out rt; intern_src := intern_src rt;
     junk := junk rt |}.

Definition extern_write (bs : list byte) : M unit :=
  fun rt => (Return tt, with_extern_out rt (extern_out rt ++ bs)).

(** Reading past the end of the input is reported as a truncated object. *)
Definition intern_read (n : nat) : M (list byte) :=
  fun rt =>
    if (n <=? List.length (intern_src rt))%nat
    then (Return (firstn n (intern_src rt)),
          with_intern_src rt (skipn n (intern_src rt)))
    else (Raise (Failure "input_value: truncated object"), rt).

(** [count] blocks of [k] bytes, each block byte-reversed. *)
Fixpoint reverse_blocks (k count : nat) (data : list byte) : list byte :=
  match count with
  | O => []
  | S c => rev (firstn k data) ++ reverse_blocks k c (skipn k data)
  end.

Definition uint32 (z : Z) : Z := z mod 2 ^ 32.
Definition ROTL32 (x n : Z) : Z :=
  uint32 (Z.lor (Z.shiftl x n) (Z.shiftr x (32 - n))).

(** The runtime's [MIX] step (MurmurHash3). *)
Definition caml_hash_mix_uint32 (h d : Z) : Z :=
  let d := uint32 (d * 0xcc9e2d51) in
  let d := ROTL32 d 15 in
  let d := uint32 (d * 0x1b873593) in
  let h := Z.lxor h d in
  let h := ROTL32 h 13 in
  uint32 (h * 5 + 0xe6546b64).

Section Host.
Variable P : platform.

Definition LDOUBLE_STORAGE_BYTES : Z := sizeof_long_double P.
Definition LDOUBLE_VALUE_BYTES : Z :=
  if LDBL_MANT_DIG P =? 53 then 8
  else if LDBL_MANT_DIG P =? 64 then 10
  else if LDBL_MANT_DIG P =? 106 then 16
  else if LDBL_MANT_DIG P =? 113 then 16
  else LDOUBLE_STORAGE_BYTES.

Definition ldbl_layout : layout :=
  {| lfmt := ldbl P; explicit_bit := LDBL_MANT_DIG P =? 64 |}.
Definition dbl_layout : layout :=
  {| lfmt := dbl P; explicit_bit := false |}.

(** Bytes of an integer, and back, in the machine's byte order. *)
Definition native_split (n : nat) (z : Z) : list byte :=
  if ARCH_BIG_ENDIAN P then rev (le_split n z) else le_split n z.
Definition native_combine (bs : list byte) : Z :=
  le_combine (if ARCH_BIG_ENDIAN P then rev bs else bs).

Definition value_bytes (L : layout) : nat := Z.to_nat (total_bits L / 8).

(** The source's [__ibm128]: 106 digits with the exponent range of
    [double].  Such a [long double] is not one bit field but a pair of
    IEEE doubles, the high one first in memory: the high double is the
    value rounded to [double], the low one the rest, and the value is
    their sum. *)
Definition ibm128 : bool :=
  (LDBL_MANT_DIG P =? 106) && (LDBL_MAX_EXP P =? 1024).

Definition ibm128_split (x : fp) : fp * fp :=
  let hi := fp_convert (ldbl P) binary64 x in
  match hi with
  | FFinite _ _ _ =>
      (hi, fp_convert (ldbl P) binary64
             (fp_add (ldbl P) x (fp_neg (fp_convert binary64 (ldbl P) hi))))
  | _ => (hi, pos_zero)
  end.
Definition ibm128_join (hi lo : fp) : fp :=
  match hi with
  | FFinite _ _ _ =>
      fp_add (ldbl P) (fp_convert binary64 (ldbl P) hi)
                      (fp_convert binary64 (ldbl P) lo)
  | _ => fp_convert binary64 (ldbl P) hi
  end.

(** The value bytes of a [long double]: the two doubles of the pair, or
    the single bit field of the other formats, laid out without gaps as
    on x86 (the source takes the 10-byte format to occur there only). *)
Definition value_image (x : fp) : list byte :=
  if ibm128
  then native_split 8 (bits_of_fp binary64_layout (fst (ibm128_split x)))
       ++ native_split 8 (bits_of_fp binary64_layout (snd (ibm128_split x)))
  else native_split (value_bytes ldbl_layout) (bits_of_fp ldbl_layout x).

(** The bytes of a [long double] object: the value bytes, then padding
    up to [sizeof(long double)] with indeterminate contents. *)
Definition store_ldouble (rt : runtime) (x : fp) : list byte :=
  let vb := value_image x in
  let n := (Z.to_nat (sizeof_long_double P) - List.length vb)%nat in
  vb ++ firstn n (junk rt ++ repeat Byte.x00 n).
(** The value a [long double] lvalue over these bytes reads. *)
Definition load_ldouble (bs : list byte) : fp :=
  if ibm128
  then ibm128_join
         (fp_of_bits binary64_layout (native_combine (firstn 8 bs)))
         (fp_of_bits binary64_layout
                     (native_combine (firstn 8 (skipn 8 bs))))
  else fp_of_bits ldbl_layout
                  (native_combine (firstn (value_bytes ldbl_layout) bs)).

Definition store_double (d : fp) : list byte :=
  native_split (Z.to_nat (sizeof_double P)) (bits_of_fp dbl_layout d).
Definition load_double (bs : list byte) : fp :=
  fp_of_bits dbl_layout (native_combine bs).

Definition caml_serialize_int_1 (i : Z) : M unit :=
  extern_write [byte.of_Z i].
Definition caml_serialize_block (k : nat) (data : list byte) (len : nat)
  : M unit :=
  extern_write (if ARCH_BIG_ENDIAN P then firstn (k * len) data
                else reverse_blocks k len data).
Definition caml_serialize_block_2 := caml_serialize_block 2.
Definition caml_serialize_block_4 := caml_serialize_block 4.
Definition caml_serialize_block_8 := caml_serialize_block 8.
Definition caml_serialize_float_4 (d : fp) : M unit :=
  caml_serialize_block_4 (store_double d) 1.
Definition caml_serialize_float_8 (d : fp) : M unit :=
  extern_write (if ARCH_BIG_ENDIAN P then rev (store_double d)
                else store_double d).

Definition caml_deserialize_uint_1 : M Z :=
  bs <- intern_read 1 ;; ret (le_combine bs).
Definition caml_deserialize_block (k len : nat) : M (list byte) :=
  bs <- intern_read (k * len) ;;
  ret (if ARCH_BIG_ENDIAN P then bs else reverse_blocks k len bs).
Definition caml_deserialize_block_2 := caml_deserialize_block 2.
Definition caml_deserialize_block_4 := caml_deserialize_block 4.
Definition caml_deserialize_block_8 := caml_deserialize_block 8.
Definition caml_deserialize_float_4 : M fp :=
  bs <- caml_deserialize_block_4 1 ;; ret (load_double bs).
Definition caml_deserialize_float_8 : M fp :=
  bs <- intern_read 8 ;;
  ret (load_double (if ARCH_BIG_ENDIAN P then rev bs else bs)).
Definition caml_deserialize_error {A} (msg : string) : M A :=
  caml_failwith msg.

(** [caml_hash_mix_double]: the runtime itself canonicalises NaN and
    the sign of zero before mixing the low then the high word. *)
Definition caml_hash_mix_double (hash : Z) (d : fp) : Z :=
  let bits := bits_of_fp dbl_layout d in
  let h := Z.shiftr bits 32 in
  let l := Z.land bits 0xFFFFFFFF in
  let '(h, l) :=
    if (Z.land h 0x7FF00000 =? 0x7FF00000)
       && negb (Z.lor l (Z.land h 0xFFFFF) =? 0)
    then (0x7FF00000, 0x00000001)
    else if (h =? 0x80000000) && (l =? 0) then (0, l)
    else (h, l) in
  caml_hash_mix_uint32 (caml_hash_mix_uint32 hash l) h.
End Host.

(** ** The stubs *)

(** The libm entry points that some platforms lack, and [strtold].
    [strtold str] returns the converted value and the number of
    characters it consumed ([end - str]). *)
Record libc : Type := {
  expm1l : fp -> fp;
  log1pl : fp -> fp;
  remainderl : fp -> fp -> fp;
  cexpl : complex -> complex;
  clogl : complex -> complex;
  cpowl : complex -> complex -> complex;
  strtold : list byte -> fp * nat
}.

Definition String_val (v : value) : list byte :=
  match v with Val_string s => s | _ => [] end.
Definition caml_string_length (v : value) : Z :=
  Z.of_nat (List.length (String_val v)).
(** What C sees through a [char *]: the bytes before the first NUL. *)
Fixpoint c_string (s : list byte) : list byte :=
  match s with
  | [] => []
  | b :: t => if Byte.eqb b Byte.x00 then [] else b :: c_string t
  end.
(** [*(str + i)] for a NUL-terminated string. *)
Definition char_at (str : list byte) (i : nat) : byte := nth i str Byte.x00.

Section Stubs.
Variable P : platform.

Definition union_word (u : list byte) (i : nat) : Z :=
  native_combine P (firstn 4 (skipn (4 * i) u)).

Definition ldouble_mix_hash (rt : runtime) (hash : Z) (d : fp) : Z :=
  let u := store_ldouble P rt (norm P rt d) in
  let a := union_word u in
  if LDOUBLE_VALUE_BYTES P =? 16 then
    if ARCH_BIG_ENDIAN P then
      let hash := caml_hash_mix_uint32 hash (a 0%nat) in
      let hash := caml_hash_mix_uint32 hash (a 1%nat) in
      let hash := caml_hash_mix_uint32 hash (a 2%nat) in
      caml_hash_mix_uint32 hash (a 3%nat)
    else
      let hash := caml_hash_mix_uint32 hash (a 1%nat) in
      let hash := caml_hash_mix_uint32 hash (a 0%nat) in
      let hash := caml_hash_mix_uint32 hash (a 3%nat) in
      caml_hash_mix_uint32 hash (a 2%nat)
  else if LDOUBLE_VALUE_BYTES P =? 10 then
    let hash := caml_hash_mix_uint32 hash (a 0%nat) in
    let hash := caml_hash_mix_uint32 hash (a 1%nat) in
    caml_hash_mix_uint32 hash (Z.land (a 2%nat) 0xFFFF)
  else
    caml_hash_mix_double P hash (fp_cast (ldbl P) (dbl P) d).

Definition ldouble_hash (rt : runtime) (v : value) : Z :=
  ldouble_mix_hash rt 0 (ldouble_custom_val v).

Definition ldouble_serialize_data (q : fp) : M Z :=
  rt <- get ;;
  let p := store_ldouble P rt q in
  if LDOUBLE_VALUE_BYTES P =? 16 then
    caml_serialize_block_8 P p 2 ;;; ret 16
  else if LDOUBLE_VALUE_BYTES P =? 10 then
    caml_serialize_block_8 P p 1 ;;;
    caml_serialize_block_2 P (skipn 8 p) 1 ;;;
    ret 10
  else
    let d := fp_cast (ldbl P) (dbl P) q in
    (if sizeof_double P =? 4 then caml_serialize_float_4 P d
     else caml_serialize_float_8 P d) ;;;
    ret (sizeof_double P).

(** Returns the pair [( *wsize_32, *wsize_64)]. *)
Definition ldouble_serialize (v : value) : M (Z * Z) :=
  rt <- get ;;
  let p := norm P rt (ldouble_custom_val v) in
  caml_serialize_int_1 (LDBL_MANT_DIG P) ;;;
  size <- ldouble_serialize_data p ;;
  ret (1 + size, 1 + size).

(** Returns the value left in [*q] and the byte count. *)
Definition ldouble_deserialize_data : M (fp * Z) :=
  if LDOUBLE_VALUE_BYTES P =? 16 then
    p <- caml_deserialize_block_8 P 2 ;;
    ret (load_ldouble P p, 16)
  else if LDOUBLE_VALUE_BYTES P =? 10 then
    p0 <- caml_deserialize_block_8 P 1 ;;
    p8 <- caml_deserialize_block_2 P 1 ;;
    ret (load_ldouble P (p0 ++ p8), 10)
  else
    d <- (if sizeof_double P =? 4 then caml_deserialize_float_4 P
          else caml_deserialize_float_8 P) ;;
    ret (fp_cast (dbl P) (ldbl P) d, sizeof_double P).

(** Returns the value stored through [d] and the byte count. *)
Definition ldouble_deserialize : M (fp * Z) :=
  tag <- caml_deserialize_uint_1 ;;
  (if negb (tag =? LDBL_MANT_DIG P)
   then caml_deserialize_error "invalid long double size"
   else ret tt) ;;;
  r <- ldouble_deserialize_data ;;
  ret (fst r, 1 + snd r).
End Stubs.

Section Facade.
Variable P : platform.
Variable C : libc.

Definition FN1 (OP : fp -> fp) (a : value) : M value :=
  ret (ctypes_copy_ldouble (OP (ldouble_custom_val a))).
Definition FN2 (OP : fp -> fp -> fp) (a b : value) : M value :=
  ret (ctypes_copy_ldouble (OP (ldouble_custom_val a)
                               (ldouble_custom_val b))).
(** [FN1FAIL] and [FN2FAIL]: [#OP] is the function's name. *)
Definition FN1FAIL (OP : string) (a : value) : M value :=
  caml_failwith ("ctypes: " ++ OP ++ " does not exist on current platform").
Definition FN2FAIL (OP : string) (a b : value) : M value :=
  caml_failwith ("ctypes: " ++ OP ++ " does not exist on current platform").

Definition ctypes_ldouble_add : value -> value -> M value :=
  FN2 (fp_add (ldbl P)).
Definition ctypes_ldouble_mul : value -> value -> M value :=
  FN2 (fp_mul (ldbl P)).
Definition ctypes_ldouble_neg : value -> M value := FN1 fp_neg.

Definition ctypes_ldouble_expm1l : value -> M value :=
  if defined_NetBSD P then FN1FAIL "expm1l" else FN1 (expm1l C).
Definition ctypes_ldouble_log1pl : value -> M value :=
  if defined_NetBSD P then FN1FAIL "log1pl" else FN1 (log1pl C).
Definition ctypes_ldouble_remainderl : value -> value -> M value :=
  if defined_NetBSD P then FN2FAIL "remainderl" else FN2 (remainderl C).

Inductive ml_fpclass : Type :=
  ml_FP_NORMAL | ml_FP_SUBNORMAL | ml_FP_ZERO | ml_FP_INFINITE | ml_FP_NAN.

Definition ctypes_ldouble_classify (v : value) : ml_fpclass :=
  match fpclassify (ldbl P) (ldouble_custom_val v) with
  | FP_NORMAL => ml_FP_NORMAL
  | FP_SUBNORMAL => ml_FP_SUBNORMAL
  | FP_ZERO => ml_FP_ZERO
  | FP_INFINITE => ml_FP_INFINITE
  | FP_NAN => ml_FP_NAN
  end.

Definition ctypes_ldouble_of_string (v : value) : M value :=
  let str := c_string (String_val v) in
  let len := caml_string_length v in
  if 0 =? len then caml_invalid_argument "LDouble.of_string"
  else
    let '(r, endp) := strtold C str in
    if negb (Byte.eqb (char_at str endp) Byte.x00)
    then caml_invalid_argument "LDouble.of_string"
    else ret (ctypes_copy_ldouble r).

Definition ctypes_ldouble_nan (rt : runtime) : value :=
  ctypes_copy_ldouble (nan_ rt).

(** *** Complex *)

(** The macro [I] of <complex.h>: the complex constant [0 + 1i]. *)
Definition I : complex := (pos_zero, round_fp (ldbl P) false 1 0).
(** Mixed real/complex arithmetic acts on the components (C99 G.5).
    In [x * I] the real part is the product of [x] with the zero of the
    constant; the product with its one is folded at compile time into a
    copy of [x], bit for bit. *)
Definition real_mul_I (x : fp) : complex :=
  (fp_mul (ldbl P) x (creall I), x).
Definition real_add_complex (x : fp) (z : complex) : complex :=
  (fp_add (ldbl P) x (creall z), cimagl z).

Definition ldouble_complex_hash (rt : runtime) (v : value) : Z :=
  let c := ldouble_complex_custom_val v in
  ldouble_mix_hash P rt (ldouble_mix_hash P rt 0 (creall c)) (cimagl c).

(** [p] is declared [long double *], so [*p] is the first cell of the
    data area, and both [creall] and [cimagl] receive that real number
    converted to a complex. *)
Definition ldouble_complex_serialize (v : value) : M (Z * Z) :=
  let p := nth 0 (Data_custom_val v) pos_zero in
  caml_serialize_int_1 (LDBL_MANT_DIG P) ;;;
  let re := creall (complex_of_real p) in
  size <- ldouble_serialize_data P re ;;
  let im := cimagl (complex_of_real p) in
  size' <- ldouble_serialize_data P im ;;
  let size := size + size' in
  ret (1 + size, 1 + size).

Definition ldouble_complex_deserialize : M (complex * Z) :=
  tag <- caml_deserialize_uint_1 ;;
  (if negb (tag =? LDBL_MANT_DIG P)
   then caml_deserialize_error "invalid long double size"
   else ret tt) ;;;
  re <- ldouble_deserialize_data P ;;
  im <- ldouble_deserialize_data P ;;
  let size := snd re + snd im in
  ret (real_add_complex (fst re) (real_mul_I (fst im)), 1 + size).

Definition ctypes_ldouble_complex_make (r i : value) : M value :=
  let re := ldouble_custom_val r in
  let im := ldouble_custom_val i in
  ret (ctypes_copy_ldouble_complex
         (real_add_complex re (real_mul_I im))).
Definition ctypes_ldouble_complex_real (v : value) : M value :=
  ret (ctypes_copy_ldouble (creall (ldouble_complex_custom_val v))).
Definition ctypes_ldouble_complex_imag (v : value) : M value :=
  ret (ctypes_copy_ldouble (cimagl (ldouble_complex_custom_val v))).

Definition FN1c (OP : complex -> complex) (a : value) : M value :=
  ret (ctypes_copy_ldouble_complex (OP (ldouble_complex_custom_val a))).
Definition FN2c (OP : complex -> complex -> complex) (a b : value)
  : M value :=
  ret (ctypes_copy_ldouble_complex (OP (ldouble_complex_custom_val a)
                                       (ldouble_complex_custom_val b))).

Definition ctypes_ldouble_complex_cexpl : value -> M value :=
  if defined_ANDROID P || defined_FreeBSD P
  then FN1FAIL "cexpl" else FN1c (cexpl C).
Definition ctypes_ldouble_complex_clogl : value -> M value :=
  if defined_ANDROID P || defined_FreeBSD P
  then FN1FAIL "clogl" else FN1c (clogl C).
Definition ctypes_ldouble_complex_cpowl : value -> value -> M value :=
  if defined_ANDROID P || defined_FreeBSD P
  then FN2FAIL "cpowl" else FN2c (cpowl C).

(** [ldouble_init]: sets the canonical NaN (and registers the two
    operation tables with the runtime, which has no state here). *)
Definition ldouble_init : M value :=
  fun rt => (Return Val_unit, with_nan_ rt (nanl_empty P)).
End Facade.

(** ** Conversions from the host's numbers *)

Definition fp_of_Z (f : format) (n : Z) : fp :=
  match n with
  | Z0 => FZero false
  | Z.pos m => round_fp f false m 0
  | Z.neg m => round_fp f true m 0
  end.

Definition Long_val (v : value) : Z :=
  match v with Val_long n => n | _ => 0 end.
Definition ctypes_ldouble_of_int (P : platform) (a : value) : value :=
  ctypes_copy_ldouble (fp_of_Z (ldbl P) (Long_val a)).

(** ** Concrete platforms *)

Definition x87_extended : format := {| prec := 64; emax := 16384 |}.
Definition binary128 : format := {| prec := 113; emax := 16384 |}.
Definition binary32 : format := {| prec := 24; emax := 128 |}.
(** The parameters <float.h> gives for the pair of doubles. *)
Definition ibm_extended : format := {| prec := 106; emax := 1024 |}.

(** The quiet NaN with an otherwise empty payload, which is what
    [nanl("")] returns. *)
Definition quiet_nan (f : format) : fp := FNaN false (Z.to_pos (quiet_bit f)).

(** x86-64 Linux: Intel extended in 16 bytes of storage. *)
Definition linux_x86_64 : platform :=
  {| LDBL_MANT_DIG := 64; LDBL_MAX_EXP := 16384;
     DBL_MANT_DIG := 53; DBL_MAX_EXP := 1024;
     sizeof_long_double := 16; sizeof_double := 8;
     ARCH_BIG_ENDIAN := false;
     defined_NetBSD := false; defined_ANDROID := false;
     defined_FreeBSD := false;
     nanl_empty := quiet_nan x87_extended |}.

(** i386 Linux: Intel extended in 12 bytes of storage. *)
Definition linux_i386 : platform :=
  {| LDBL_MANT_DIG := 64; LDBL_MAX_EXP := 16384;
     DBL_MANT_DIG := 53; DBL_MAX_EXP := 1024;
     sizeof_long_double := 12; sizeof_double := 8;
     ARCH_BIG_ENDIAN := false;
     defined_NetBSD := false; defined_ANDROID := false;
     defined_FreeBSD := false;
     nanl_empty := quiet_nan x87_extended |}.

Definition netbsd_x86_64 : platform :=
  {| LDBL_MANT_DIG := 64; LDBL_MAX_EXP := 16384;
     DBL_MANT_DIG := 53; DBL_MAX_EXP := 1024;
     sizeof_long_double := 16; sizeof_double := 8;
     ARCH_BIG_ENDIAN := false;
     defined_NetBSD := true; defined_ANDROID := false;
     defined_FreeBSD := false;
     nanl_empty := quiet_nan x87_extended |}.

Definition freebsd_x86_64 : platform :=
  {| LDBL_MANT_DIG := 64; LDBL_MAX_EXP := 16384;
     DBL_MANT_DIG := 53; DBL_MAX_EXP := 1024;
     sizeof_long_double := 16; sizeof_double := 8;
     ARCH_BIG_ENDIAN := false;
     defined_NetBSD := false; defined_ANDROID := false;
     defined_FreeBSD := true;
     nanl_empty := quiet_nan x87_extended |}.

(** AArch64 Android: IEEE binary128, little-endian. *)
Definition android_aarch64 : platform :=
  {| LDBL_MANT_DIG := 113; LDBL_MAX_EXP := 16384;
     DBL_MANT_DIG := 53; DBL_MAX_EXP := 1024;
     sizeof_long_double := 16; sizeof_double := 8;
     ARCH_BIG_ENDIAN := false;
     defined_NetBSD := false; defined_ANDROID := true;
     defined_FreeBSD := false;
     nanl_empty := quiet_nan binary128 |}.

(** s390x Linux: IEEE binary128, big-endian. *)
Definition linux_s390x : platform :=
  {| LDBL_MANT_DIG := 113; LDBL_MAX_EXP := 16384;
     DBL_MANT_DIG := 53; DBL_MAX_EXP := 1024;
     sizeof_long_double := 16; sizeof_double := 8;
     ARCH_BIG_ENDIAN := true;
     defined_NetBSD := false; defined_ANDROID := false;
     defined_FreeBSD := false;
     nanl_empty := quiet_nan binary128 |}.

(** 32-bit ARM Linux (and MSVC): [long double] is [double]. *)
Definition linux_armhf : platform :=
  {| LDBL_MANT_DIG := 53; LDBL_MAX_EXP := 1024;
     DBL_MANT_DIG := 53; DBL_MAX_EXP := 1024;
     sizeof_long_double := 8; sizeof_double := 8;
     ARCH_BIG_ENDIAN := false;
     defined_NetBSD := false; defined_ANDROID := false;
     defined_FreeBSD := false;
     nanl_empty := quiet_nan binary64 |}.

(** 64-bit PowerPC Linux, big-endian: [long double] is the pair of
    doubles. *)
Definition linux_ppc64 : platform :=
  {| LDBL_MANT_DIG := 106; LDBL_MAX_EXP := 1024;
     DBL_MANT_DIG := 53; DBL_MAX_EXP := 1024;
     sizeof_long_double := 16; sizeof_double := 8;
     ARCH_BIG_ENDIAN := true;
     defined_NetBSD := false; defined_ANDROID := false;
     defined_FreeBSD := false;
     nanl_empty := quiet_nan ibm_extended |}.

(** avr-gcc since GCC 10, default options: [double] has the 32 bits of
    an IEEE single, [long double] the 64 bits of an IEEE double. *)
Definition avr_gcc : platform :=
  {| LDBL_MANT_DIG := 53; LDBL_MAX_EXP := 1024;
     DBL_MANT_DIG := 24; DBL_MAX_EXP := 128;
     sizeof_long_double := 8; sizeof_double := 4;
     ARCH_BIG_ENDIAN := false;
     defined_NetBSD := false; defined_ANDROID := false;
     defined_FreeBSD := false;
     nanl_empty := quiet_nan binary64 |}.

(** A [strtold] for unsigned decimal integers, enough to run
    [ctypes_ldouble_of_string] on examples. *)
Fixpoint decimal_prefix (s : list byte) (acc : Z) (n : nat) : Z * nat :=
  match s with
  | b :: t =>
      let c := byte.unsigned b in
      if (48 <=? c) && (c <=? 57)
      then decimal_prefix t (10 * acc + (c - 48)) (S n)
      else (acc, n)
  | [] => (acc, n)
  end.
Definition strtold_decimal (f : format) (s : list byte) : fp * nat :=
  let '(z, n) := decimal_prefix s 0 0 in (fp_of_Z f z, n).

(** A C library for evaluation; its transcendental entries are
    placeholders and no statement below depends on what they return. *)
Definition example_libc (f : format) : libc :=
  {| expm1l := fun x => x; log1pl := fun x => x;
     remainderl := fun x _ => x;
     cexpl := fun z => z; clogl := fun z => z; cpowl := fun z _ => z;
     strtold := strtold_decimal f |}.

(** The runtime once [ldouble_init] has run. *)
Definition initialised (P : platform) : runtime :=
  snd (ldouble_init P initial_runtime).

(** ** Vocabulary of the statements *)

(** The three results of a comparison hook. *)
Definition LESS : Z := -1.
Definition EQUAL : Z := 0.
Definition GREATER : Z := 1.

(** The runtime after the unordered signal has been raised. *)
Definition raise_unordered (rt : runtime) : runtime :=
  {| nan_ := nan_ rt; caml_compare_unordered := true;
     extern_out := extern_out rt; intern_src := intern_src rt;
     junk := junk rt |}.

(** The exception an operation missing from libm raises. *)
Definition unsupported (OP : string) : exn :=
  Failure ("ctypes: " ++ OP ++ " does not exist on current platform").

(** A format wide enough to hold the number one. *)
Definition holds_one (f : format) : bool := (2 <=? prec f) && (2 <=? emax f).

(** [real (make r i)] and [imag (make r i)], through the three stubs. *)
Definition real_of_make (P : platform) (r i : fp) : M value :=
  z <- ctypes_ldouble_complex_make P (ctypes_copy_ldouble r)
                                   (ctypes_copy_ldouble i) ;;
  ctypes_ldouble_complex_real z.
Definition imag_of_make (P : platform) (r i : fp) : M value :=
  z <- ctypes_ldouble_complex_make P (ctypes_copy_ldouble r)
                                   (ctypes_copy_ldouble i) ;;
  ctypes_ldouble_complex_imag z.

(** A layout the encoding functions are meant for: the exponent range is
    a power of two and the mantissa has at least two digits. *)
Definition wf_layout (L : layout) : bool :=
  (2 <=? prec (lfmt L)) && (2 <=? emax (lfmt L))
  && (emax (lfmt L) =? 2 ^ Z.log2 (emax (lfmt L))).

(** The two branches of the stubs that move the value bytes themselves. *)
Definition raw_bytes_path (P : platform) : bool :=
  (LDOUBLE_VALUE_BYTES P =? 16) || (LDOUBLE_VALUE_BYTES P =? 10).

(** A value whose NaN, if it is one, is quiet. *)
Definition quiet_or_number (f : format) (x : fp) : bool :=
  match x with FNaN _ pl => is_quiet f pl | _ => true end.

(** Platforms on which the wire format carries every [long double]
    exactly: either the value bytes are written as they are and the
    layout fills them, or [long double] is the same type as an 8-byte
    [double].  The one-byte tag must hold [LDBL_MANT_DIG], and
    [nanl("")] must be a quiet NaN of the format. *)
Definition exact_wire_format (P : platform) : bool :=
  wf_layout (ldbl_layout P)
  && (0 <=? LDBL_MANT_DIG P) && (LDBL_MANT_DIG P <? 256)
  && valid (ldbl P) (nanl_empty P)
  && is_nan (nanl_empty P)
  && quiet_or_number (ldbl P) (nanl_empty P)
  && if raw_bytes_path P
     then (total_bits (ldbl_layout P) =? 8 * LDOUBLE_VALUE_BYTES P)
          && (LDOUBLE_VALUE_BYTES P <=? sizeof_long_double P)
     else (LDBL_MANT_DIG P =? DBL_MANT_DIG P)
          && (LDBL_MAX_EXP P =? DBL_MAX_EXP P)
          && (sizeof_double P =? 8)
          && (total_bits (dbl_layout P) =? 64).

(** The 106-digit data that a pair of doubles holds with those digits:
    a number whose last digit is within the reach of a [double] and
    whose high double is finite; a quiet NaN whose payload lies in the
    high double. *)
Definition ibm128_exact (P : platform) (x : fp) : bool :=
  match x with
  | FFinite _ _ e =>
      (emin binary64 <=? e) && is_finite (fp_convert (ldbl P) binary64 x)
  | FNaN _ pl => is_quiet (ldbl P) pl && (Z.pos pl mod 2 ^ 53 =? 0)
  | _ => true
  end.

(** The values the round trip is stated for: the values of the format
    and, on the pair of doubles, those among them that the pair holds. *)
Definition constructible (P : platform) (x : fp) : bool :=
  valid (ldbl P) x && (negb (ibm128 P) || is_nan x || ibm128_exact P x).

(** Platforms whose parameters fit together: the one-byte tag holds
    [LDBL_MANT_DIG]; [nanl("")] is a NaN of the format; the object holds
    the value bytes the codec moves, which the layout fills, the 10-byte
    format on a little-endian machine as the source assumes; and where
    the codec goes through [double], a [double] has 4 or 8 bytes, which
    its layout fills. *)
Definition wire_platform (P : platform) : bool :=
  (0 <=? LDBL_MANT_DIG P) && (LDBL_MANT_DIG P <? 256)
  && valid (ldbl P) (nanl_empty P) && is_nan (nanl_empty P)
  && if ibm128 P
     then ibm128_exact P (nanl_empty P)
          && (LDOUBLE_VALUE_BYTES P <=? sizeof_long_double P)
     else if raw_bytes_path P
     then wf_layout (ldbl_layout P)
          && (total_bits (ldbl_layout P) =? 8 * LDOUBLE_VALUE_BYTES P)
          && (LDOUBLE_VALUE_BYTES P <=? sizeof_long_double P)
          && ((LDOUBLE_VALUE_BYTES P =? 16) || negb (ARCH_BIG_ENDIAN P))
     else wf_layout (dbl_layout P)
          && (total_bits (dbl_layout P) =? 8 * sizeof_double P)
          && ((sizeof_double P =? 4) || (sizeof_double P =? 8)).

(** [deserialize (serialize x)]: the scalar serialiser is run on an empty
    output buffer and the deserialiser on the bytes it wrote; the result
    is the value stored and the byte count. *)
Definition deserialize_serialized (P : platform) (rt : runtime) (x : fp)
  : outcome (fp * Z) :=
  let rt1 := snd (ldouble_serialize P (ctypes_copy_ldouble x)
                                    (with_extern_out rt [])) in
  fst (ldouble_deserialize P (with_intern_src rt (extern_out rt1))).

(** The complex wire format as the specification words it: the tag byte,
    then the normalised real part, then the normalised imaginary part,
    each in the layout of the scalar serialiser.  The stub
    [ldouble_complex_serialize] is compared with it. *)
Definition spec_complex_serialize (P : platform) (v : value) : M (Z * Z) :=
  rt <- get ;;
  let z := ldouble_complex_custom_val v in
  caml_serialize_int_1 (LDBL_MANT_DIG P) ;;;
  size <- ldouble_serialize_data P (norm P rt (creall z)) ;;
  size' <- ldouble_serialize_data P (norm P rt (cimagl z)) ;;
  ret (1 + (size + size'), 1 + (size + size')).

(** The bytes a serialiser writes, starting from an empty buffer. *)
Definition wire_of {A} (c : M A) (rt : runtime) : list byte :=
  extern_out (snd (c (with_extern_out rt []))).

(** [a] is not above [b] in the order of the comparison hook: the hook
    answers LESS or EQUAL, whatever the runtime state. *)
Definition ldouble_le (a b : fp) : Prop :=
  forall rt, exists r, fst (ldouble_cmp a b rt) = Return r /\ r <= 0.

(** The exponent of a finite value is at least [e0]. *)
Definition exponent_ge (e0 : Z) (x : fp) : Prop :=
  match x with FFinite _ _ e => e0 <= e | _ => True end.

(** An order-preserving key: the class (NaN lowest, then -inf, the finite
    values, +inf) and, for finite values, the signed mantissa at the
    common exponent [e0]. *)
Definition order_key (e0 : Z) (x : fp) : Z * Z :=
  match x with
  | FNaN _ _ => (0, 0)
  | FInf true => (1, 0)
  | FZero _ => (2, 0)
  | FFinite s m e => (2, signed s (Z.pos m * 2 ^ (e - e0)))
  | FInf false => (3, 0)
  end.

Definition lex_compare (k1 k2 : Z * Z) : comparison :=
  match fst k1 ?= fst k2 with
  | Eq => snd k1 ?= snd k2
  | c => c
  end.

Definition Z_of_comparison (c : comparison) : Z :=
  match c with Lt => -1 | Eq => 0 | Gt => 1 end.

(** The exponent of a finite value, 0 for the others. *)
Definition exponent_or_zero (x : fp) : Z :=
  match x with FFinite _ _ e => e | _ => 0 end.

(** Platforms whose hashed words lie inside the value bytes: the layout
    fills the 16 bytes, or it fills 10 bytes of a little-endian object,
    or the hash goes through [double]. *)
Definition hash_layout_ok (P : platform) : bool :=
  if LDOUBLE_VALUE_BYTES P =? 16 then total_bits (ldbl_layout P) =? 128
  else if LDOUBLE_VALUE_BYTES P =? 10
       then (total_bits (ldbl_layout P) =? 80) && negb (ARCH_BIG_ENDIAN P)
       else true.

(** The number of value bytes the codec moves for one [long double]. *)
Definition wire_size (P : platform) : Z :=
  if LDOUBLE_VALUE_BYTES P =? 16 then 16
  else if LDOUBLE_VALUE_BYTES P =? 10 then 10
  else sizeof_double P.

(** The storage can supply the bytes the codec moves: the object holds
    the value bytes, and a [double] has 4 or 8 bytes. *)
Definition storage_ok (P : platform) : bool :=
  if raw_bytes_path P
  then LDOUBLE_VALUE_BYTES P <=? sizeof_long_double P
  else (sizeof_double P =? 4) || (sizeof_double P =? 8).

(** ** Conversions to and from the host's numbers *)

Definition Double_val (v : value) : fp :=
  match v with Val_double d => d | _ => pos_zero end.
Definition caml_copy_double (d : fp) : value := Val_double d.

(** The conversions between [double] and [long double] are the implicit
    ones of C. *)
Definition ctypes_ldouble_of_float (P : platform) (a : value) : value :=
  ctypes_copy_ldouble (fp_cast (dbl P) (ldbl P) (Double_val a)).
Definition ctypes_ldouble_to_float (P : platform) (a : value) : value :=
  caml_copy_double (fp_cast (ldbl P) (dbl P) (ldouble_custom_val a)).

(** The integral part of a finite value: truncation toward zero. *)
Definition fp_truncate (x : fp) : Z :=
  match x with
  | FFinite s m e =>
      signed s (if 0 <=? e then Z.pos m * 2 ^ e else Z.pos m / 2 ^ (- e))
  | _ => 0
  end.

(** The signed integer of [bits] bits congruent to [z]. *)
Definition wrap_signed (bits z : Z) : Z :=
  (z + 2 ^ (bits - 1)) mod 2 ^ bits - 2 ^ (bits - 1).

(** Conversion of a floating value to an unsigned integer type of
    [bits] bits.  C defines it only where the integral part fits the
    type (C11 6.3.1.4): a NaN, an infinity, a value of -1 or less, or of
    [2 ^ bits] or more has no defined result, which is [None] here. *)
Definition fp_to_unsigned (bits : Z) (x : fp) : option Z :=
  if is_finite x
  then let t := fp_truncate x in
       if (0 <=? t) && (t <? 2 ^ bits) then Some t else None
  else None.

(** [Val_long(x)] is [((intnat) (((uintnat)(x) << 1)) + 1)]: the
    [long double] is converted to [uintnat], of [intnat_bits] bits, and
    the tagging shift drops the top bit of the result. *)
Definition ctypes_ldouble_to_int (intnat_bits : Z) (a : value)
  : option value :=
  match fp_to_unsigned intnat_bits (ldouble_custom_val a) with
  | Some u => Some (Val_long (wrap_signed (intnat_bits - 1) u))
  | None => None
  end.

(** A format in which the integers below [2 ^ prec] are exact. *)
Definition holds_integers (f : format) : bool :=
  holds_one f && (prec f <=? emax f).

(** [long double] is at least as wide as [double] in precision and in
    exponent range. *)
Definition widening_ok (P : platform) : bool :=
  (2 <=? prec (dbl P)) && (prec (dbl P) <=? prec (ldbl P))
  && (emin (ldbl P) <=? emin (dbl P))
  && (emax (dbl P) - prec (dbl P) <=? emax (ldbl P) - prec (ldbl P)).

(** * Properties *)

(** ** Ordering *)

Lemma fp_compare_refl_nan (x : fp) :
  fp_eq x x = negb (is_nan x).
Proof.
  destruct x as [s|s|s pl|s m e]; try (destruct s; reflexivity).
  unfold fp_eq, fp_compare, cmp_magnitude.
  rewrite Z.compare_refl. destruct s; reflexivity.
Qed.

Lemma ldouble_cmp_nan_l (s : bool) (pl : positive) (y : fp) (rt : runtime) :
  ldouble_cmp (FNaN s pl) y rt
  = (Return (if is_nan y then EQUAL else LESS), raise_unordered rt).
Proof.
  unfold ldouble_cmp, bind, ret, set_caml_compare_unordered; cbn.
  rewrite fp_compare_refl_nan. destruct (is_nan y); reflexivity.
Qed.

Lemma ldouble_cmp_nan_r (x : fp) (s : bool) (pl : positive) (rt : runtime) :
  is_nan x = false ->
  ldouble_cmp x (FNaN s pl) rt = (Return GREATER, raise_unordered rt).
Proof.
  intros Hx.
  unfold ldouble_cmp, bind, ret, set_caml_compare_unordered.
  assert (Hc : fp_compare x (FNaN s pl) = None) by (destruct x; reflexivity).
  unfold fp_lt, fp_gt, fp_ne. unfold fp_eq at 1. rewrite Hc; cbn.
  rewrite fp_compare_refl_nan, Hx. reflexivity.
Qed.

(** The complex comparison never looks at an imaginary part: both
    operands are read as [long double], so the tie-break compares +0
    with +0. *)
Lemma ldouble_complex_cmp_val_real_only (v1 v2 : value) (rt : runtime) :
  fst (ldouble_complex_cmp_val v1 v2 rt)
  = fst (ldouble_cmp (ldouble_custom_val v1) (ldouble_custom_val v2) rt).
Proof.
  unfold ldouble_complex_cmp_val, bind; cbn.
  destruct (ldouble_cmp _ _ rt) as [[r|e] rt'] eqn:E; cbn; [|reflexivity].
  destruct (r =? 0) eqn:Hr; [|reflexivity].
  apply Z.eqb_eq in Hr; subst r. reflexivity.
Qed.

(** C1 (code bug).  On x86-64, comparing the complex values [1 + 2i] and
    [1 + 3i], whose real parts are equal and whose imaginary parts differ,
    returns EQUAL, although the scalar comparison of the imaginary parts
    2 and 3 returns LESS. *)
Theorem ldouble_complex_cmp_val_drops_imaginary :
  let z1 := ctypes_copy_ldouble_complex
              (fp_of_Z x87_extended 1, fp_of_Z x87_extended 2) in
  let z2 := ctypes_copy_ldouble_complex
              (fp_of_Z x87_extended 1, fp_of_Z x87_extended 3) in
  let rt := initialised linux_x86_64 in
  fst (ldouble_complex_cmp_val z1 z2 rt) = Return EQUAL
  /\ fst (ldouble_cmp (cimagl (ldouble_complex_custom_val z1))
                      (cimagl (ldouble_complex_custom_val z2)) rt)
     = Return LESS.
Proof. split; vm_compute; reflexivity. Qed.

(** C3 (claim as stated, refuted).  With a NaN as first operand and 1.0 as
    second, the comparison does not return GREATER. *)
Lemma ldouble_cmp_nan_one_not_greater :
  fst (ldouble_cmp (quiet_nan x87_extended) (fp_of_Z x87_extended 1)
                   (initialised linux_x86_64))
  <> Return GREATER.
Proof. vm_compute. discriminate. Qed.

(** C3 (amended).  Comparing two NaNs returns EQUAL; a NaN against a
    value [x] that is not a NaN (1.0 for instance) returns LESS, and [x]
    against a NaN returns GREATER: NaN sorts below everything.  All three
    set [caml_compare_unordered] and change nothing else. *)
Theorem ldouble_cmp_nan_sorts_lowest
  (s1 s2 : bool) (pl1 pl2 : positive) (x : fp) (rt : runtime) :
  is_nan x = false ->
  ldouble_cmp (FNaN s1 pl1) (FNaN s2 pl2) rt
  = (Return EQUAL, raise_unordered rt)
  /\ ldouble_cmp (FNaN s1 pl1) x rt = (Return LESS, raise_unordered rt)
  /\ ldouble_cmp x (FNaN s2 pl2) rt = (Return GREATER, raise_unordered rt).
Proof.
  intros Hx. split; [|split].
  - rewrite ldouble_cmp_nan_l. reflexivity.
  - rewrite ldouble_cmp_nan_l, Hx. reflexivity.
  - apply ldouble_cmp_nan_r, Hx.
Qed.

Lemma ldouble_cmp_nan_sorts_lowest_witness :
  let one := fp_of_Z x87_extended 1 in
  let qnan := quiet_nan x87_extended in
  let rt := initialised linux_x86_64 in
  ldouble_cmp qnan qnan rt = (Return EQUAL, raise_unordered rt)
  /\ ldouble_cmp qnan one rt = (Return LESS, raise_unordered rt)
  /\ ldouble_cmp one qnan rt = (Return GREATER, raise_unordered rt).
Proof.
  exact (ldouble_cmp_nan_sorts_lowest
           false false _ _ (fp_of_Z x87_extended 1)
           (initialised linux_x86_64) eq_refl).
Defined.

(** ** Normalisation *)

Lemma norm_fixes_nan_ (P : platform) (rt : runtime) :
  nan_ rt = pos_zero \/ is_nan (nan_ rt) = true ->
  norm P rt (nan_ rt) = nan_ rt.
Proof.
  unfold norm. intros [H|H].
  - rewrite H. reflexivity.
  - destruct (nan_ rt); try discriminate. reflexivity.
Qed.

(** C7.  [norm] is idempotent, both before [ldouble_init] (when the static
    [nan_] is still +0) and after it (when [nan_] is a NaN).  It sends
    every zero to +0, every NaN to the canonical [nan_], and returns any
    other value (infinite, subnormal, normal) as it is. *)
Theorem norm_idempotent (P : platform) (rt : runtime) (x : fp) :
  nan_ rt = pos_zero \/ is_nan (nan_ rt) = true ->
  norm P rt (norm P rt x) = norm P rt x
  /\ (fpclassify (ldbl P) x = FP_ZERO -> norm P rt x = pos_zero)
  /\ (fpclassify (ldbl P) x = FP_NAN -> norm P rt x = nan_ rt)
  /\ (fpclassify (ldbl P) x <> FP_ZERO -> fpclassify (ldbl P) x <> FP_NAN ->
      norm P rt x = x).
Proof.
  intros Hnan. split; [|split; [|split]].
  - destruct x as [s|s|s pl|s m e].
    + reflexivity.
    + reflexivity.
    + apply (norm_fixes_nan_ P rt Hnan).
    + unfold norm; cbn.
      destruct (digits2 m <? LDBL_MANT_DIG P) eqn:E; cbn; rewrite E; reflexivity.
  - unfold norm. intros ->. reflexivity.
  - unfold norm. intros ->. reflexivity.
  - unfold norm. destruct (fpclassify (ldbl P) x); congruence.
Qed.

Lemma norm_idempotent_witness :
  let P := linux_x86_64 in
  let rt := initialised P in
  let x := FNaN true 5 in
  norm P rt (norm P rt x) = norm P rt x
  /\ (fpclassify (ldbl P) x = FP_ZERO -> norm P rt x = pos_zero)
  /\ (fpclassify (ldbl P) x = FP_NAN -> norm P rt x = nan_ rt)
  /\ (fpclassify (ldbl P) x <> FP_ZERO -> fpclassify (ldbl P) x <> FP_NAN ->
      norm P rt x = x).
Proof.
  exact (norm_idempotent linux_x86_64 (initialised linux_x86_64)
                         (FNaN true 5) (or_intror eq_refl)).
Defined.

(** ** Unsupported operations *)

(** C8.  Where the preprocessor sees [__NetBSD__], [expm1l], [log1pl] and
    [remainderl] raise [Failure] with a message naming the function, for
    every argument and without touching the runtime state; likewise
    [cexpl], [clogl] and [cpowl] where it sees [__ANDROID__] or
    [__FreeBSD__].  No value is returned. *)
Theorem missing_libm_functions_fail
  (P : platform) (C : libc) (a b : value) (rt : runtime) :
  (defined_NetBSD P = true ->
   ctypes_ldouble_expm1l P C a rt = (Raise (unsupported "expm1l"), rt)
   /\ ctypes_ldouble_log1pl P C a rt = (Raise (unsupported "log1pl"), rt)
   /\ ctypes_ldouble_remainderl P C a b rt
      = (Raise (unsupported "remainderl"), rt))
  /\ (defined_ANDROID P || defined_FreeBSD P = true ->
      ctypes_ldouble_complex_cexpl P C a rt = (Raise (unsupported "cexpl"), rt)
      /\ ctypes_ldouble_complex_clogl P C a rt
         = (Raise (unsupported "clogl"), rt)
      /\ ctypes_ldouble_complex_cpowl P C a b rt
         = (Raise (unsupported "cpowl"), rt)).
Proof.
  split; intros H.
  - unfold ctypes_ldouble_expm1l, ctypes_ldouble_log1pl,
      ctypes_ldouble_remainderl. rewrite H. repeat split.
  - unfold ctypes_ldouble_complex_cexpl, ctypes_ldouble_complex_clogl,
      ctypes_ldouble_complex_cpowl. rewrite H. repeat split.
Qed.

Lemma missing_libm_functions_fail_witness :
  let C := example_libc x87_extended in
  let zero := ctypes_copy_ldouble pos_zero in
  let inf := ctypes_copy_ldouble (FInf false) in
  let rt := initial_runtime in
  (ctypes_ldouble_expm1l netbsd_x86_64 C zero rt
   = (Raise (unsupported "expm1l"), rt)
   /\ ctypes_ldouble_log1pl netbsd_x86_64 C zero rt
      = (Raise (unsupported "log1pl"), rt)
   /\ ctypes_ldouble_remainderl netbsd_x86_64 C zero inf rt
      = (Raise (unsupported "remainderl"), rt))
  /\ (ctypes_ldouble_complex_cexpl android_aarch64 C zero rt
      = (Raise (unsupported "cexpl"), rt)
      /\ ctypes_ldouble_complex_clogl android_aarch64 C zero rt
         = (Raise (unsupported "clogl"), rt)
      /\ ctypes_ldouble_complex_cpowl android_aarch64 C zero inf rt
         = (Raise (unsupported "cpowl"), rt)).
Proof.
  split.
  - exact (proj1 (missing_libm_functions_fail
                    netbsd_x86_64 (example_libc x87_extended)
                    (ctypes_copy_ldouble pos_zero)
                    (ctypes_copy_ldouble (FInf false)) initial_runtime)
                 eq_refl).
  - exact (proj2 (missing_libm_functions_fail
                    android_aarch64 (example_libc x87_extended)
                    (ctypes_copy_ldouble pos_zero)
                    (ctypes_copy_ldouble (FInf false)) initial_runtime)
                 eq_refl).
Defined.

(** ** Format tag *)

(** C6.  When the first byte of the input differs from [LDBL_MANT_DIG],
    the scalar and the complex deserialisers raise [Failure "invalid long
    double size"]; only that one byte has been consumed, no value is
    produced and nothing else in the runtime state has changed. *)
Theorem deserialize_rejects_foreign_tag
  (P : platform) (tag : byte) (payload : list byte) (rt : runtime) :
  byte.unsigned tag <> LDBL_MANT_DIG P ->
  let rt0 := with_intern_src rt (tag :: payload) in
  let rt1 := with_intern_src rt payload in
  ldouble_deserialize P rt0
  = (Raise (Failure "invalid long double size"), rt1)
  /\ ldouble_complex_deserialize P rt0
     = (Raise (Failure "invalid long double size"), rt1).
Proof.
  intros Htag rt0 rt1.
  assert (Hread : caml_deserialize_uint_1 rt0 = (Return (byte.unsigned tag), rt1)).
  { unfold caml_deserialize_uint_1, bind, intern_read, rt0, ret.
    cbn [intern_src with_intern_src List.length Nat.leb firstn skipn].
    rewrite le_combine_1. reflexivity. }
  apply Z.eqb_neq in Htag.
  split.
  - unfold ldouble_deserialize, bind. rewrite Hread, Htag. reflexivity.
  - unfold ldouble_complex_deserialize, bind. rewrite Hread, Htag. reflexivity.
Qed.

Lemma deserialize_rejects_foreign_tag_witness :
  let P := linux_x86_64 in
  let rt0 := with_intern_src (initialised P) [Byte.x71; Byte.x01; Byte.x02] in
  let rt1 := with_intern_src (initialised P) [Byte.x01; Byte.x02] in
  ldouble_deserialize P rt0
  = (Raise (Failure "invalid long double size"), rt1)
  /\ ldouble_complex_deserialize P rt0
     = (Raise (Failure "invalid long double size"), rt1).
Proof.
  apply (deserialize_rejects_foreign_tag
           linux_x86_64 Byte.x71 [Byte.x01; Byte.x02]
           (initialised linux_x86_64)).
  vm_compute. discriminate.
Defined.

(** ** Parsing *)

Lemma c_string_nul_free (s : list byte) :
  ~ In Byte.x00 s -> c_string s = s.
Proof.
  induction s as [|b t IH]; cbn; [reflexivity|]. intros H.
  destruct (Byte.eqb b Byte.x00) eqn:E.
  - apply Byte.byte_dec_bl in E. exfalso. apply H. left. exact E.
  - rewrite IH; [reflexivity|]. intros Hin. apply H. right. exact Hin.
Qed.

Lemma c_string_stops_at_nul (s t : list byte) :
  ~ In Byte.x00 s -> c_string (s ++ Byte.x00 :: t) = s.
Proof.
  induction s as [|b u IH]; cbn; [reflexivity|]. intros H.
  destruct (Byte.eqb b Byte.x00) eqn:E.
  - apply Byte.byte_dec_bl in E. exfalso. apply H. left. exact E.
  - rewrite IH; [reflexivity|]. intros Hin. apply H. right. exact Hin.
Qed.

Lemma char_at_nul_free (s : list byte) (n : nat) :
  ~ In Byte.x00 s ->
  Byte.eqb (char_at s n) Byte.x00 = (List.length s <=? n)%nat.
Proof.
  unfold char_at. revert n.
  induction s as [|b t IH]; intros n H.
  - destruct n; reflexivity.
  - destruct n as [|n]; cbn.
    + destruct (Byte.eqb b Byte.x00) eqn:E; [|reflexivity].
      apply Byte.byte_dec_bl in E. exfalso. apply H. left. exact E.
    + apply IH. intros Hin. apply H. right. exact Hin.
Qed.



(** C9 (code bug).  The three-byte OCaml string ["1\000x"] is not empty
    and its last two bytes are not consumed by the numeric parser, yet
    [ctypes_ldouble_of_string] returns the value 1 instead of raising
    [Invalid_argument]; the string ["1x"], without the NUL, is rejected. *)
Theorem of_string_accepts_embedded_nul :
  let C := example_libc x87_extended in
  let rt := initialised linux_x86_64 in
  ctypes_ldouble_of_string C (Val_string [Byte.x31; Byte.x00; Byte.x78]) rt
  = (Return (ctypes_copy_ldouble (fp_of_Z x87_extended 1)), rt)
  /\ ctypes_ldouble_of_string C (Val_string [Byte.x31; Byte.x78]) rt
     = (Raise (Invalid_argument "LDouble.of_string"), rt).
Proof. split; vm_compute; reflexivity. Qed.

(** ** Rounding of representable values *)

Lemma digits2_scaled (m : positive) (k : Z) :
  0 <= k -> Z.log2 (Z.pos m * 2 ^ k) + 1 = digits2 m + k.
Proof.
  intros Hk. unfold digits2.
  rewrite Z.log2_mul_pow2 by lia. lia.
Qed.

Lemma bounded_digits (f : format) (m : positive) (e : Z) :
  bounded f m e = true ->
  fexp f (digits2 m + e) = e /\ digits2 m <= prec f /\ e <= emax f - prec f.
Proof.
  unfold bounded, canonical_mantissa. intros H.
  apply andb_true_iff in H. destruct H as [H1 H2].
  apply Z.eqb_eq in H1. apply Z.leb_le in H2.
  split; [exact H1|]. split; [|exact H2].
  unfold fexp in H1. lia.
Qed.

Lemma round_finish_bounded (f : format) (s : bool) (m : positive) (e : Z) :
  bounded f m e = true -> round_finish f s (Z.pos m) e = FFinite s m e.
Proof.
  intros H. destruct (bounded_digits f m e H) as (_ & Hd & He).
  unfold round_finish.
  replace (prec f <? digits2 m) with false by (symmetry; apply Z.ltb_ge; lia).
  replace (e <=? emax f - prec f) with true by (symmetry; apply Z.leb_le; lia).
  reflexivity.
Qed.

(** A value of the format written with [k] extra low zero bits rounds to
    itself; with [k = 0], rounding a value of the format is the identity. *)
Lemma round_fp_scaled (f : format) (s : bool) (m n : positive) (e k : Z) :
  bounded f m e = true -> 0 <= k -> Z.pos n = Z.pos m * 2 ^ k ->
  round_fp f s n (e - k) = FFinite s m e.
Proof.
  intros Hb Hk Hn. destruct (bounded_digits f m e Hb) as (Hc & Hd & He).
  unfold round_fp.
  assert (Hdig : digits2 n + (e - k) = digits2 m + e).
  { unfold digits2 at 1. rewrite Hn, digits2_scaled by lia. lia. }
  rewrite Hdig, Hc.
  destruct (Z.eq_dec k 0) as [->|Hk0].
  - replace (e <=? e - 0) with true by (symmetry; apply Z.leb_le; lia).
    replace (e - 0 - e) with 0 by lia.
    rewrite Hn. cbn [Z.pow]. rewrite !Z.mul_1_r.
    apply round_finish_bounded, Hb.
  - replace (e <=? e - k) with false by (symmetry; apply Z.leb_gt; lia).
    replace (e - (e - k)) with k by lia.
    assert (H2k : 0 < 2 ^ k) by (apply Z.pow_pos_nonneg; lia).
    assert (Hh : 0 < 2 ^ (k - 1)) by (apply Z.pow_pos_nonneg; lia).
    rewrite Hn, Z.div_mul, Z.mod_mul by lia.
    replace (2 ^ (k - 1) <? 0) with false by (symmetry; apply Z.ltb_ge; lia).
    replace (0 =? 2 ^ (k - 1)) with false by (symmetry; apply Z.eqb_neq; lia).
    cbn [orb andb]. apply round_finish_bounded, Hb.
Qed.

Lemma round_fp_bounded (f : format) (s : bool) (m : positive) (e : Z) :
  bounded f m e = true -> round_fp f s m e = FFinite s m e.
Proof.
  intros Hb. replace e with (e - 0) at 1 by lia.
  apply round_fp_scaled; [exact Hb|lia|cbn; lia].
Qed.

Lemma one_in_format (f : format) :
  holds_one f = true ->
  round_fp f false 1 0
  = FFinite false (Z.to_pos (2 ^ (prec f - 1))) (1 - prec f).
Proof.
  unfold holds_one. intros H. apply andb_true_iff in H.
  destruct H as [Hp He]. apply Z.leb_le in Hp. apply Z.leb_le in He.
  unfold round_fp, fexp, emin. change (digits2 1) with 1.
  replace (Z.max (1 + 0 - prec f) (3 - emax f - prec f)) with (1 - prec f) by lia.
  replace (1 - prec f <=? 0) with true by (symmetry; apply Z.leb_le; lia).
  replace (0 - (1 - prec f)) with (prec f - 1) by lia.
  rewrite Z.mul_1_l.
  assert (Hpos : 0 < 2 ^ (prec f - 1)) by (apply Z.pow_pos_nonneg; lia).
  unfold round_finish.
  destruct (2 ^ (prec f - 1)) as [|q|q] eqn:Eq; try lia.
  assert (Hq : digits2 q = prec f).
  { unfold digits2. rewrite <- Eq, Z.log2_pow2 by lia. lia. }
  rewrite Hq, Z.ltb_irrefl.
  replace (1 - prec f <=? emax f - prec f) with true
    by (symmetry; apply Z.leb_le; lia).
  reflexivity.
Qed.

(** Multiplying a value of the format by one returns it unchanged. *)
Lemma fp_mul_one (f : format) (x : fp) :
  holds_one f = true -> valid f x = true -> is_nan x = false ->
  fp_mul f x (round_fp f false 1 0) = x.
Proof.
  intros Hf Hv Hn. rewrite (one_in_format f Hf).
  unfold holds_one in Hf. apply andb_true_iff in Hf.
  destruct Hf as [Hp He]. apply Z.leb_le in Hp.
  assert (Hpos : 0 < 2 ^ (prec f - 1)) by (apply Z.pow_pos_nonneg; lia).
  destruct x as [s|s|s pl|s m e]; cbn [fp_mul valid is_nan] in *;
    try discriminate.
  - now rewrite xorb_false_r.
  - now rewrite xorb_false_r.
  - rewrite xorb_false_r.
    replace (e + (1 - prec f)) with (e - (prec f - 1)) by lia.
    apply round_fp_scaled; [exact Hv|lia|].
    rewrite Pos2Z.inj_mul, Z2Pos.id by lia. reflexivity.
Qed.

(** ** Complex construction and projection *)

Lemma fp_mul_finite_zero (f : format) (i : fp) :
  is_finite i = true -> fp_mul f i pos_zero = FZero (sign_of i).
Proof.
  destruct i as [s|s|s pl|s m e]; cbn; try discriminate;
    intros _; now rewrite xorb_false_r.
Qed.

(** C10 (claim as stated, refuted).  With real part -0 and the finite
    imaginary part 1, the real part read back from [make] is +0, which is
    not the bit pattern of -0. *)
Lemma make_real_loses_negative_zero :
  let P := linux_x86_64 in
  let i := fp_of_Z x87_extended 1 in
  is_finite i = true
  /\ fst (real_of_make P neg_zero i (initialised P))
     = Return (ctypes_copy_ldouble pos_zero)
  /\ fst (real_of_make P neg_zero i (initialised P))
     <> Return (ctypes_copy_ldouble neg_zero).
Proof.
  split; [reflexivity|]. split; [vm_compute; reflexivity|].
  vm_compute. discriminate.
Qed.

(** C10 (amended).  For a finite imaginary part [i] of the format,
    [imag (make r i)] is [i] itself, and [real (make r i)] is [r] itself
    unless [r] is a negative zero, which comes back with the sign of [i]
    (so -0 is kept only under an [i] of negative sign), or a NaN, which
    comes back quieted. *)
Theorem make_real_imag_roundtrip (P : platform) (r i : fp) (rt : runtime) :
  holds_one (ldbl P) = true ->
  valid (ldbl P) i = true ->
  is_finite i = true ->
  imag_of_make P r i rt = (Return (ctypes_copy_ldouble i), rt)
  /\ real_of_make P r i rt
     = (Return (ctypes_copy_ldouble
                  match r with
                  | FZero true => FZero (sign_of i)
                  | FNaN _ _ => quiet (ldbl P) r
                  | _ => r
                  end), rt).
Proof.
  intros Hf Hv Hfin.
  assert (Hn : is_nan i = false) by (destruct i; try discriminate; reflexivity).
  unfold imag_of_make, real_of_make, bind, ctypes_ldouble_complex_make,
    ctypes_ldouble_complex_imag, ctypes_ldouble_complex_real, ret.
  unfold real_add_complex, real_mul_I, I.
  cbn [ctypes_copy_ldouble ctypes_copy_ldouble_complex ldouble_custom_val
       ldouble_complex_custom_val Data_custom_val nth creall cimagl fst snd].
  rewrite (fp_mul_finite_zero (ldbl P) i Hfin).
  split; [reflexivity|].
  destruct r as [[|]|sr|sr pl|sr m e]; destruct (sign_of i); reflexivity.
Qed.

Lemma make_real_imag_roundtrip_witness :
  let P := linux_x86_64 in
  let r := fp_of_Z x87_extended (-5) in
  let i := fp_of_Z x87_extended 3 in
  let rt := initialised P in
  imag_of_make P r i rt = (Return (ctypes_copy_ldouble i), rt)
  /\ real_of_make P r i rt
     = (Return (ctypes_copy_ldouble
                  match r with
                  | FZero true => FZero (sign_of i)
                  | FNaN _ _ => quiet (ldbl P) r
                  | _ => r
                  end), rt).
Proof.
  exact (make_real_imag_roundtrip
           linux_x86_64 (fp_of_Z x87_extended (-5)) (fp_of_Z x87_extended 3)
           (initialised linux_x86_64) eq_refl eq_refl eq_refl).
Defined.

(** ** Encoding and decoding of bit patterns *)

Lemma bit_fields (s : bool) (E mant w mw : Z) :
  0 <= w -> 0 <= mw -> 0 <= E < 2 ^ w -> 0 <= mant < 2 ^ mw ->
  let z := Z.b2z s * 2 ^ (w + mw) + E * 2 ^ mw + mant in
  z mod 2 ^ mw = mant
  /\ (z / 2 ^ mw) mod 2 ^ w = E
  /\ Z.odd (z / 2 ^ (w + mw)) = s
  /\ 0 <= z < 2 ^ (1 + w + mw).
Proof.
  intros Hw Hmw HE Hm z.
  assert (Hpw : 0 < 2 ^ w) by (apply Z.pow_pos_nonneg; lia).
  assert (Hpm : 0 < 2 ^ mw) by (apply Z.pow_pos_nonneg; lia).
  assert (Hz : z = (Z.b2z s * 2 ^ w + E) * 2 ^ mw + mant).
  { unfold z. rewrite Z.pow_add_r by lia. ring. }
  assert (Hdiv : z / 2 ^ mw = Z.b2z s * 2 ^ w + E).
  { rewrite Hz, Z.div_add_l by lia. rewrite Z.div_small by lia. lia. }
  assert (Hs : 0 <= Z.b2z s <= 1) by (destruct s; cbn; lia).
  split; [|split; [|split]].
  - rewrite Hz, Z.add_comm, Z.mod_add by lia. apply Z.mod_small; lia.
  - rewrite Hdiv, Z.add_comm, Z.mod_add by lia. apply Z.mod_small; lia.
  - rewrite Z.pow_add_r, Z.mul_comm by lia.
    rewrite <- Z.div_div by lia. rewrite Hdiv.
    rewrite Z.div_add_l by lia. rewrite (Z.div_small E) by lia.
    rewrite Z.add_0_r. destruct s; reflexivity.
  - rewrite Hz. replace (1 + w + mw) with (1 + (w + mw)) by lia.
    rewrite Z.pow_add_r, (Z.pow_add_r 2 w mw) by lia.
    change (2 ^ 1) with 2. nia.
Qed.

Section Encoding.
Variable L : layout.
Hypothesis HL : wf_layout L = true.

Local Abbreviation f := (lfmt L).

Lemma wf_layout_facts :
  2 <= prec f /\ 2 <= emax f /\ 2 ^ ebits L = 2 * emax f /\ 1 <= Z.log2 (emax f).
Proof.
  unfold wf_layout in HL.
  apply andb_true_iff in HL. destruct HL as [H12 H3].
  apply andb_true_iff in H12. destruct H12 as [H1 H2].
  apply Z.leb_le in H1. apply Z.leb_le in H2. apply Z.eqb_eq in H3.
  assert (Hlog : 1 <= Z.log2 (emax f)).
  { change 1 with (Z.log2 2). apply Z.log2_le_mono. lia. }
  repeat split; try assumption.
  unfold ebits. rewrite Z.pow_add_r by lia.
  rewrite <- H3. change (2 ^ 1) with 2. lia.
Qed.

Lemma digits2_bounds (m : positive) :
  2 ^ (digits2 m - 1) <= Z.pos m < 2 ^ digits2 m.
Proof.
  unfold digits2. replace (Z.log2 (Z.pos m) + 1 - 1) with (Z.log2 (Z.pos m)) by lia.
  replace (Z.log2 (Z.pos m) + 1) with (Z.succ (Z.log2 (Z.pos m))) by lia.
  apply Z.log2_spec. lia.
Qed.

Lemma digits2_pos (m : positive) : 1 <= digits2 m.
Proof. unfold digits2. pose proof (Z.log2_nonneg (Z.pos m)). lia. Qed.

(** Range of the two fields for a value of the format. *)
Lemma fields_in_range (x : fp) :
  valid f x = true ->
  0 <= exponent_field L x < 2 ^ ebits L
  /\ 0 <= mantissa_field L x < 2 ^ mbits L.
Proof.
  destruct wf_layout_facts as (Hp & He & Hw & Hlog).
  assert (Htop : 0 < 2 ^ (prec f - 1)) by (apply Z.pow_pos_nonneg; lia).
  assert (Hpp : 2 ^ prec f = 2 * 2 ^ (prec f - 1)).
  { replace (prec f) with (1 + (prec f - 1)) at 1 by lia.
    rewrite Z.pow_add_r by lia. reflexivity. }
  intros Hv. unfold exponent_field, mantissa_field, mbits.
  destruct x as [s|s|s pl|s m e]; cbn [valid] in Hv.
  - split; [lia|]. split; [lia|]. destruct (explicit_bit L); lia.
  - split; [lia|]. destruct (explicit_bit L); lia.
  - apply Z.ltb_lt in Hv. split; [lia|]. destruct (explicit_bit L); lia.
  - destruct (bounded_digits f m e Hv) as (Hc & Hd & Hb).
    pose proof (digits2_bounds m) as Hm.
    pose proof (digits2_pos m) as Hd1.
    assert (Hmp : Z.pos m < 2 ^ prec f).
    { apply Z.lt_le_trans with (2 ^ digits2 m); [lia|].
      apply Z.pow_le_mono_r; lia. }
    split.
    + destruct (digits2 m <? prec f) eqn:E; [lia|].
      unfold fexp, emin in *. lia.
    + destruct (explicit_bit L); [lia|].
      apply Z.mod_pos_bound. lia.
Qed.

Lemma bits_of_fp_range (x : fp) :
  valid f x = true -> 0 <= bits_of_fp L x < 2 ^ total_bits L.
Proof.
  intros Hv. destruct wf_layout_facts as (Hp & He & Hw & Hlog).
  destruct (fields_in_range x Hv) as [HE Hm].
  unfold bits_of_fp, total_bits.
  apply (bit_fields (sign_of x) _ _ (ebits L) (mbits L)); try assumption.
  - unfold ebits. lia.
  - unfold mbits. destruct (explicit_bit L); lia.
Qed.

(** Reading back the bit pattern of a value of the format returns it. *)
Lemma fp_of_bits_of_fp (x : fp) :
  valid f x = true -> fp_of_bits L (bits_of_fp L x) = x.
Proof.
  intros Hv. destruct wf_layout_facts as (Hp & He & Hw & Hlog).
  destruct (fields_in_range x Hv) as [HE Hm].
  assert (H0w : 0 <= ebits L) by (unfold ebits; lia).
  assert (H0m : 0 <= mbits L)
    by (unfold mbits; destruct (explicit_bit L); lia).
  destruct (bit_fields (sign_of x) _ _ _ _ H0w H0m HE Hm)
    as (Hmant & Hexp & Hsign & _).
  unfold fp_of_bits, bits_of_fp.
  rewrite Hmant, Hexp, Hsign. clear Hmant Hexp Hsign.
  unfold fp_of_fields.
  assert (Htop : 0 < 2 ^ (prec f - 1)) by (apply Z.pow_pos_nonneg; lia).
  assert (Hpp : 2 ^ prec f = 2 * 2 ^ (prec f - 1)).
  { replace (prec f) with (1 + (prec f - 1)) at 1 by lia.
    rewrite Z.pow_add_r by lia. reflexivity. }
  unfold exponent_field, mantissa_field, mbits in *.
  destruct x as [s|s|s pl|s m e]; cbn [valid sign_of] in *.
  - rewrite Z.eqb_refl. reflexivity.
  - replace (2 ^ ebits L - 1 =? 0) with false by (symmetry; apply Z.eqb_neq; lia).
    rewrite Z.eqb_refl.
    destruct (explicit_bit L).
    + rewrite Z.mod_same by lia. reflexivity.
    + rewrite Z.mod_0_l by lia. reflexivity.
  - apply Z.ltb_lt in Hv.
    replace (2 ^ ebits L - 1 =? 0) with false by (symmetry; apply Z.eqb_neq; lia).
    rewrite Z.eqb_refl.
    destruct (explicit_bit L).
    + rewrite Z.add_comm. rewrite <- (Z.mul_1_l (2 ^ (prec f - 1))) at 1.
      rewrite Z.mod_add by lia. rewrite Z.mod_small by lia. reflexivity.
    + rewrite Z.mod_small by lia. reflexivity.
  - destruct (bounded_digits f m e Hv) as (Hc & Hd & Hb).
    pose proof (digits2_bounds m) as Hdm.
    pose proof (digits2_pos m) as Hd1.
    destruct (digits2 m <? prec f) eqn:Ed.
    + (* subnormal *)
      apply Z.ltb_lt in Ed.
      assert (Hemin : e = emin f) by (unfold fexp in Hc; lia).
      assert (Hsmall : Z.pos m < 2 ^ (prec f - 1)).
      { apply Z.lt_le_trans with (2 ^ digits2 m); [lia|].
        apply Z.pow_le_mono_r; lia. }
      rewrite Z.eqb_refl.
      destruct (explicit_bit L).
      * rewrite Hemin. reflexivity.
      * rewrite Z.mod_small by lia. rewrite Hemin. reflexivity.
    + (* normal *)
      apply Z.ltb_ge in Ed.
      assert (Hdp : digits2 m = prec f) by lia.
      rewrite Hdp in Hdm.
      assert (Hge : emin f <= e) by (unfold fexp in Hc; lia).
      replace (e - emin f + 1 =? 0) with false by (symmetry; apply Z.eqb_neq; lia).
      replace (e - emin f + 1 =? 2 ^ ebits L - 1) with false
        by (symmetry; apply Z.eqb_neq; unfold emin; lia).
      replace (e - emin f + 1 - 1 + emin f) with e by lia.
      destruct (explicit_bit L).
      * replace (Z.testbit (Z.pos m) (prec f - 1)) with true; [reflexivity|].
        symmetry. apply Z.testbit_true; [lia|].
        replace (Z.pos m / 2 ^ (prec f - 1)) with 1.
        { reflexivity. }
        apply Z.div_unique with (Z.pos m - 2 ^ (prec f - 1)); lia.
      * replace (Z.pos m mod 2 ^ (prec f - 1) + 2 ^ (prec f - 1)) with (Z.pos m).
        { reflexivity. }
        rewrite <- (Z.mod_unique (Z.pos m) (2 ^ (prec f - 1)) 1
                              (Z.pos m - 2 ^ (prec f - 1))) ; lia.
Qed.
End Encoding.

(** ** Bytes on the wire *)

Lemma native_split_length (P : platform) (n : nat) (z : Z) :
  List.length (native_split P n z) = n.
Proof.
  unfold native_split. destruct (ARCH_BIG_ENDIAN P);
    [rewrite length_rev|]; apply length_le_split.
Qed.

Lemma native_combine_split (P : platform) (n : nat) (z : Z) :
  0 <= z < 2 ^ (Z.of_nat n * 8) ->
  native_combine P (native_split P n z) = z.
Proof.
  intros Hz. unfold native_combine, native_split.
  destruct (ARCH_BIG_ENDIAN P); [rewrite rev_involutive|];
    rewrite le_combine_split; apply Z.mod_small; exact Hz.
Qed.

Lemma reverse_blocks_app (k c : nat) (a rest : list byte) :
  List.length a = (k * c)%nat ->
  reverse_blocks k c (a ++ rest) = reverse_blocks k c a.
Proof.
  revert a. induction c as [|c IH]; intros a Ha; [reflexivity|].
  cbn [reverse_blocks].
  assert (Hk : (k <= List.length a)%nat) by lia.
  rewrite firstn_app, skipn_app.
  replace (k - List.length a)%nat with 0%nat by lia.
  cbn [firstn skipn]. rewrite app_nil_r.
  rewrite IH; [reflexivity|]. rewrite length_skipn. lia.
Qed.

Lemma reverse_blocks_length (k c : nat) (a : list byte) :
  List.length a = (k * c)%nat ->
  List.length (reverse_blocks k c a) = (k * c)%nat.
Proof.
  revert a. induction c as [|c IH]; intros a Ha; [cbn; lia|].
  cbn [reverse_blocks]. rewrite length_app, length_rev, length_firstn.
  rewrite IH by (rewrite length_skipn; lia). lia.
Qed.

Lemma reverse_blocks_involutive (k c : nat) (a : list byte) :
  List.length a = (k * c)%nat ->
  reverse_blocks k c (reverse_blocks k c a) = a.
Proof.
  revert a. induction c as [|c IH]; intros a Ha.
  - destruct a; [reflexivity|]. cbn in Ha. lia.
  - cbn [reverse_blocks].
    assert (Hf : List.length (rev (firstn k a)) = k).
    { rewrite length_rev, length_firstn. lia. }
    rewrite firstn_app, skipn_app, Hf, Nat.sub_diag.
    cbn [firstn skipn]. rewrite app_nil_r.
    rewrite firstn_all2, skipn_all2 by lia. cbn [app].
    rewrite rev_involutive, IH by (rewrite length_skipn; lia).
    apply firstn_skipn.
Qed.

(** What [caml_serialize_block] writes for [len] blocks of [k] bytes,
    [caml_deserialize_block] reads back. *)
Lemma deserialize_block_serialize_block
  (P : platform) (k len : nat) (data more rest : list byte) (rt rt' : runtime) :
  List.length data = (k * len)%nat ->
  exists w,
    List.length w = (k * len)%nat
    /\ caml_serialize_block P k (data ++ more) len rt
       = (Return tt, with_extern_out rt (extern_out rt ++ w))
    /\ caml_deserialize_block P k len (with_intern_src rt' (w ++ rest))
       = (Return data, with_intern_src rt' rest).
Proof.
  intros Hlen.
  exists (if ARCH_BIG_ENDIAN P then data else reverse_blocks k len data).
  assert (Hw : List.length (if ARCH_BIG_ENDIAN P then data
                            else reverse_blocks k len data) = (k * len)%nat).
  { destruct (ARCH_BIG_ENDIAN P); [exact Hlen|].
    apply reverse_blocks_length, Hlen. }
  split; [exact Hw|]. split.
  - unfold caml_serialize_block, extern_write.
    destruct (ARCH_BIG_ENDIAN P).
    + rewrite firstn_app, firstn_all2 by lia.
      replace (k * len - List.length data)%nat with 0%nat by lia.
      cbn [firstn]. rewrite app_nil_r. reflexivity.
    + rewrite reverse_blocks_app by exact Hlen. reflexivity.
  - unfold caml_deserialize_block, bind, intern_read, ret.
    cbn [intern_src with_intern_src].
    rewrite length_app, Hw.
    replace (k * len <=? k * len + List.length rest)%nat with true
      by (symmetry; apply Nat.leb_le; lia).
    rewrite firstn_app, skipn_app, Hw, Nat.sub_diag.
    cbn [firstn skipn]. rewrite app_nil_r.
    rewrite firstn_all2, skipn_all2 by lia. cbn [app].
    destruct (ARCH_BIG_ENDIAN P); [reflexivity|].
    rewrite reverse_blocks_involutive by exact Hlen. reflexivity.
Qed.

(** ** Casts that change nothing *)

Lemma quiet_payload_lor (f : format) (pl : positive) :
  2 <= prec f -> is_quiet f pl = true ->
  Z.lor (Z.pos pl) (quiet_bit f) = Z.pos pl.
Proof.
  unfold is_quiet, quiet_bit. intros Hp Hq.
  apply Z.bits_inj'. intros n Hn.
  rewrite Z.lor_spec, Z.pow2_bits_eqb by lia.
  destruct (Z.eqb_spec (prec f - 2) n) as [<-|_].
  - rewrite Hq. reflexivity.
  - apply orb_false_r.
Qed.

Lemma same_format_refl (f : format) : same_format f f = true.
Proof. unfold same_format. rewrite !Z.eqb_refl. reflexivity. Qed.

Lemma same_format_eq (a b : format) : same_format a b = true -> a = b.
Proof.
  unfold same_format. intros H. apply andb_true_iff in H.
  destruct H as [H1 H2]. apply Z.eqb_eq in H1. apply Z.eqb_eq in H2.
  destruct a, b. cbn in *. congruence.
Qed.

(** A cast to the same format leaves the value as it is. *)
Lemma fp_cast_same_format (f : format) (x : fp) :
  2 <= prec f -> valid f x = true -> quiet_or_number f x = true ->
  fp_cast f f x = x.
Proof.
  intros _ _ _. unfold fp_cast. rewrite same_format_refl. reflexivity.
Qed.

Lemma fp_cast_zero (src dst : format) (s : bool) :
  fp_cast src dst (FZero s) = FZero s.
Proof. unfold fp_cast. destruct (same_format src dst); reflexivity. Qed.

Lemma norm_valid (P : platform) (rt : runtime) (x : fp) :
  valid (ldbl P) x = true -> valid (ldbl P) (nan_ rt) = true ->
  valid (ldbl P) (norm P rt x) = true.
Proof.
  intros Hx Hn. unfold norm.
  destruct (fpclassify (ldbl P) x); try assumption. reflexivity.
Qed.

Lemma norm_quiet (P : platform) (rt : runtime) (x : fp) :
  quiet_or_number (ldbl P) (nan_ rt) = true ->
  quiet_or_number (ldbl P) (norm P rt x) = true.
Proof.
  intros Hn. unfold norm.
  destruct x as [s|s|s pl|s m e]; cbn [fpclassify]; try reflexivity.
  - exact Hn.
  - destruct (digits2 m <? prec (ldbl P)); reflexivity.
Qed.

Lemma norm_cases (P : platform) (rt : runtime) (x : fp) :
  norm P rt x
  = match x with FZero _ => pos_zero | FNaN _ _ => nan_ rt | _ => x end.
Proof.
  unfold norm. destruct x as [s|s|s pl|s m e]; cbn [fpclassify]; try reflexivity.
  destruct (digits2 m <? prec (ldbl P)); reflexivity.
Qed.

(** ** Round trip of the value bytes *)

Lemma with_extern_out_twice (rt : runtime) (a b : list byte) :
  with_extern_out (with_extern_out rt (extern_out rt ++ a))
                  (extern_out (with_extern_out rt (extern_out rt ++ a)) ++ b)
  = with_extern_out rt (extern_out rt ++ a ++ b).
Proof. unfold with_extern_out; cbn. rewrite app_assoc. reflexivity. Qed.

(** The single-field layout of [__ibm128]'s parameters has 117 bits: no
    predicate that asks for a layout of 80 or 128 bits admits the pair
    of doubles. *)
Lemma ibm128_total_bits (P : platform) :
  ibm128 P = true -> total_bits (ldbl_layout P) = 117.
Proof.
  unfold ibm128. intros H. apply andb_true_iff in H. destruct H as [Hm He].
  apply Z.eqb_eq in Hm. apply Z.eqb_eq in He.
  unfold total_bits, ebits, mbits, ldbl_layout, ldbl.
  cbn [lfmt explicit_bit prec emax]. rewrite Hm, He. reflexivity.
Qed.

Lemma ibm128_value_bytes (P : platform) :
  ibm128 P = true -> LDOUBLE_VALUE_BYTES P = 16.
Proof.
  unfold ibm128. intros H. apply andb_true_iff in H. destruct H as [Hm _].
  apply Z.eqb_eq in Hm. unfold LDOUBLE_VALUE_BYTES. rewrite Hm. reflexivity.
Qed.

Lemma hash_layout_ok_single_field (P : platform) :
  hash_layout_ok P = true -> ibm128 P = false.
Proof.
  intros H. destruct (ibm128 P) eqn:E; [|reflexivity].
  unfold hash_layout_ok in H.
  rewrite (ibm128_value_bytes P E), (ibm128_total_bits P E) in H.
  discriminate.
Qed.

Lemma exact_wire_format_single_field (P : platform) :
  exact_wire_format P = true -> ibm128 P = false.
Proof.
  intros H. destruct (ibm128 P) eqn:E; [|reflexivity].
  unfold exact_wire_format, raw_bytes_path in H.
  rewrite (ibm128_value_bytes P E), (ibm128_total_bits P E) in H.
  cbn [Z.eqb Pos.eqb orb Z.mul Pos.mul andb] in H.
  rewrite andb_false_r in H. discriminate.
Qed.

Lemma load_ldouble_value_bytes (P : platform) (q : fp) (more : list byte) :
  ibm128 P = false ->
  wf_layout (ldbl_layout P) = true ->
  valid (ldbl P) q = true ->
  total_bits (ldbl_layout P) = Z.of_nat (value_bytes (ldbl_layout P)) * 8 ->
  load_ldouble P (native_split P (value_bytes (ldbl_layout P))
                               (bits_of_fp (ldbl_layout P) q) ++ more) = q.
Proof.
  intros Hib HL Hv Hbits. unfold load_ldouble. rewrite Hib.
  rewrite firstn_app, native_split_length, Nat.sub_diag.
  rewrite firstn_all2 by (rewrite native_split_length; lia).
  cbn [firstn]. rewrite app_nil_r.
  rewrite native_combine_split.
  - apply fp_of_bits_of_fp; assumption.
  - rewrite <- Hbits. apply bits_of_fp_range; assumption.
Qed.

Section Roundtrip.
Variable P : platform.
Hypothesis Hib : ibm128 P = false.
Hypothesis HL : wf_layout (ldbl_layout P) = true.

Local Abbreviation vb q :=
  (native_split P (value_bytes (ldbl_layout P))
                (bits_of_fp (ldbl_layout P) q)).

Lemma store_ldouble_value_bytes (rt : runtime) (q : fp) :
  exists pad, store_ldouble P rt q = vb q ++ pad.
Proof.
  unfold store_ldouble, value_image. rewrite Hib. eexists. reflexivity.
Qed.

(** The 16-byte branch. *)
Lemma data_roundtrip_16 (q : fp) (rt rt' : runtime) (rest : list byte) :
  LDOUBLE_VALUE_BYTES P = 16 ->
  total_bits (ldbl_layout P) = 8 * LDOUBLE_VALUE_BYTES P ->
  valid (ldbl P) q = true ->
  exists w,
    ldouble_serialize_data P q rt
    = (Return (Z.of_nat (List.length w)),
       with_extern_out rt (extern_out rt ++ w))
    /\ ldouble_deserialize_data P (with_intern_src rt' (w ++ rest))
       = (Return (q, Z.of_nat (List.length w)), with_intern_src rt' rest).
Proof.
  intros HVB Hbits Hv. rewrite HVB in Hbits.
  assert (Hn : value_bytes (ldbl_layout P) = 16%nat)
    by (unfold value_bytes; rewrite Hbits; reflexivity).
  destruct (store_ldouble_value_bytes rt q) as [pad Hst].
  assert (Hlen : List.length (vb q) = (8 * 2)%nat)
    by (rewrite native_split_length, Hn; reflexivity).
  destruct (deserialize_block_serialize_block P 8 2 (vb q) pad rest rt rt' Hlen)
    as (w & Hw & Hser & Hde).
  exists w. unfold ldouble_serialize_data, ldouble_deserialize_data.
  rewrite HVB. cbn [Z.eqb Pos.eqb].
  unfold caml_serialize_block_8, caml_deserialize_block_8.
  split.
  { unfold bind at 1 2, get. rewrite Hst, Hser. unfold ret.
    rewrite Hw. reflexivity. }
  unfold bind. rewrite Hde. unfold ret. rewrite Hw.
  rewrite <- (app_nil_r (vb q)).
  rewrite load_ldouble_value_bytes;
    [reflexivity|assumption|assumption|assumption|].
  rewrite Hbits, Hn. reflexivity.
Qed.

(** The 10-byte branch: an 8-byte block, then a 2-byte block. *)
Lemma data_roundtrip_10 (q : fp) (rt rt' : runtime) (rest : list byte) :
  LDOUBLE_VALUE_BYTES P = 10 ->
  total_bits (ldbl_layout P) = 8 * LDOUBLE_VALUE_BYTES P ->
  valid (ldbl P) q = true ->
  exists w,
    ldouble_serialize_data P q rt
    = (Return (Z.of_nat (List.length w)),
       with_extern_out rt (extern_out rt ++ w))
    /\ ldouble_deserialize_data P (with_intern_src rt' (w ++ rest))
       = (Return (q, Z.of_nat (List.length w)), with_intern_src rt' rest).
Proof.
  intros HVB Hbits Hv. rewrite HVB in Hbits.
  assert (Hn : value_bytes (ldbl_layout P) = 10%nat)
    by (unfold value_bytes; rewrite Hbits; reflexivity).
  destruct (store_ldouble_value_bytes rt q) as [pad Hst].
  assert (Hlen : List.length (vb q) = 10%nat)
    by (rewrite native_split_length, Hn; reflexivity).
  pose proof (firstn_skipn 8 (vb q)) as Hsplit.
  assert (Hl8 : List.length (firstn 8 (vb q)) = (8 * 1)%nat)
    by (rewrite length_firstn; lia).
  assert (Hl2 : List.length (skipn 8 (vb q)) = (2 * 1)%nat)
    by (rewrite length_skipn; lia).
  assert (Hp8 : skipn 8 (store_ldouble P rt q) = skipn 8 (vb q) ++ pad).
  { rewrite Hst, skipn_app.
    replace (8 - List.length (vb q))%nat with 0%nat by lia. reflexivity. }
  assert (Hp0 : store_ldouble P rt q
                = firstn 8 (vb q) ++ (skipn 8 (vb q) ++ pad)).
  { rewrite Hst, app_assoc, Hsplit. reflexivity. }
  destruct (deserialize_block_serialize_block
              P 8 1 (firstn 8 (vb q)) (skipn 8 (vb q) ++ pad)
              rest rt rt' Hl8) as (w1 & Hw1 & Hser1 & _).
  set (rt1 := with_extern_out rt (extern_out rt ++ w1)) in *.
  destruct (deserialize_block_serialize_block
              P 2 1 (skipn 8 (vb q)) pad rest rt1 rt' Hl2)
    as (w2 & Hw2 & Hser2 & Hde2).
  destruct (deserialize_block_serialize_block
              P 8 1 (firstn 8 (vb q)) (skipn 8 (vb q) ++ pad)
              (w2 ++ rest) rt (with_intern_src rt' (w1 ++ w2 ++ rest)) Hl8)
    as (w1' & Hw1' & Hser1' & Hde1).
  assert (w1' = w1) as ->.
  { rewrite Hser1 in Hser1'. injection Hser1' as E.
    apply app_inv_head in E. symmetry. exact E. }
  exists (w1 ++ w2).
  unfold ldouble_serialize_data, ldouble_deserialize_data.
  rewrite HVB. cbn [Z.eqb Pos.eqb].
  unfold caml_serialize_block_8, caml_serialize_block_2,
    caml_deserialize_block_8, caml_deserialize_block_2.
  split.
  - unfold bind at 1 2, get. rewrite Hp8. rewrite Hp0 at 1.
    rewrite Hser1. unfold bind at 1. fold rt1. rewrite Hser2.
    unfold ret, rt1. rewrite with_extern_out_twice.
    rewrite length_app, Hw1, Hw2. reflexivity.
  - rewrite <- app_assoc. unfold bind at 1.
    change (with_intern_src rt' (w1 ++ w2 ++ rest))
      with (with_intern_src (with_intern_src rt' (w1 ++ w2 ++ rest))
                            (w1 ++ w2 ++ rest)) at 1.
    rewrite Hde1. unfold bind at 1.
    change (with_intern_src (with_intern_src rt' (w1 ++ w2 ++ rest))
                            (w2 ++ rest))
      with (with_intern_src rt' (w2 ++ rest)).
    rewrite Hde2. unfold ret.
    rewrite Hsplit, length_app, Hw1, Hw2.
    rewrite <- (app_nil_r (vb q)).
    rewrite load_ldouble_value_bytes;
      [reflexivity|assumption|assumption|assumption|].
    rewrite Hbits, Hn. reflexivity.
Qed.
End Roundtrip.

Lemma intern_read_app (n : nat) (w rest : list byte) (rt : runtime) :
  List.length w = n ->
  intern_read n (with_intern_src rt (w ++ rest))
  = (Return w, with_intern_src rt rest).
Proof.
  intros Hw. unfold intern_read. cbn [intern_src with_intern_src].
  rewrite length_app, Hw.
  replace (n <=? n + List.length rest)%nat with true
    by (symmetry; apply Nat.leb_le; lia).
  rewrite firstn_app, skipn_app, Hw, Nat.sub_diag.
  rewrite firstn_all2, skipn_all2 by lia. cbn [firstn skipn app].
  rewrite app_nil_r. reflexivity.
Qed.

(** The branch through [double], on a platform where [long double] and
    [double] are the same 8-byte format. *)
Lemma data_roundtrip_double
  (P : platform) (q : fp) (rt rt' : runtime) (rest : list byte) :
  wf_layout (ldbl_layout P) = true ->
  raw_bytes_path P = false ->
  LDBL_MANT_DIG P = DBL_MANT_DIG P ->
  LDBL_MAX_EXP P = DBL_MAX_EXP P ->
  sizeof_double P = 8 ->
  total_bits (dbl_layout P) = 64 ->
  valid (ldbl P) q = true ->
  quiet_or_number (ldbl P) q = true ->
  exists w,
    ldouble_serialize_data P q rt
    = (Return (Z.of_nat (List.length w)),
       with_extern_out rt (extern_out rt ++ w))
    /\ ldouble_deserialize_data P (with_intern_src rt' (w ++ rest))
       = (Return (q, Z.of_nat (List.length w)), with_intern_src rt' rest).
Proof.
  intros HL Hraw Hm He Hsz Hbits Hv Hq.
  unfold raw_bytes_path in Hraw. apply orb_false_iff in Hraw.
  destruct Hraw as [H16 H10].
  assert (Hfmt : dbl P = ldbl P) by (unfold dbl, ldbl; rewrite Hm, He; reflexivity).
  assert (HLd : wf_layout (dbl_layout P) = true).
  { unfold wf_layout in *. cbn [lfmt dbl_layout ldbl_layout] in *.
    rewrite Hfmt. exact HL. }
  assert (Hp : 2 <= prec (ldbl P)).
  { unfold wf_layout in HL. cbn [lfmt ldbl_layout] in HL.
    apply andb_true_iff in HL. destruct HL as [HL' _].
    apply andb_true_iff in HL'. destruct HL' as [HL' _].
    apply Z.leb_le in HL'. exact HL'. }
  assert (Hcast : fp_cast (ldbl P) (dbl P) q = q)
    by (rewrite Hfmt; apply fp_cast_same_format; assumption).
  assert (Hcast' : fp_cast (dbl P) (ldbl P) q = q)
    by (rewrite Hfmt; apply fp_cast_same_format; assumption).
  assert (Hvd : valid (lfmt (dbl_layout P)) q = true)
    by (cbn [lfmt dbl_layout]; rewrite Hfmt; exact Hv).
  assert (Hst : List.length (store_double P q) = 8%nat).
  { unfold store_double. rewrite native_split_length, Hsz. reflexivity. }
  assert (Hload : load_double P (store_double P q) = q).
  { unfold load_double, store_double. rewrite Hsz.
    rewrite native_combine_split.
    - apply fp_of_bits_of_fp; assumption.
    - change (Z.of_nat (Z.to_nat 8) * 8) with 64. rewrite <- Hbits.
      apply bits_of_fp_range; assumption. }
  exists (if ARCH_BIG_ENDIAN P then rev (store_double P q) else store_double P q).
  assert (Hw : List.length (if ARCH_BIG_ENDIAN P then rev (store_double P q)
                            else store_double P q) = 8%nat).
  { destruct (ARCH_BIG_ENDIAN P); [rewrite length_rev|]; exact Hst. }
  unfold ldouble_serialize_data, ldouble_deserialize_data.
  rewrite H16, H10, Hsz, Hcast. cbn [Z.eqb Pos.eqb].
  split.
  - unfold bind, get, caml_serialize_float_8, extern_write, ret.
    rewrite Hw. reflexivity.
  - unfold bind, caml_deserialize_float_8, bind, ret.
    rewrite (intern_read_app 8 _ rest rt' Hw).
    replace (if ARCH_BIG_ENDIAN P
             then rev (if ARCH_BIG_ENDIAN P then rev (store_double P q)
                       else store_double P q)
             else if ARCH_BIG_ENDIAN P then rev (store_double P q)
                  else store_double P q)
      with (store_double P q)
      by (destruct (ARCH_BIG_ENDIAN P); [rewrite rev_involutive|]; reflexivity).
    rewrite Hload, Hcast', Hw. reflexivity.
Qed.

(** On a platform with an exact wire format, what
    [ldouble_serialize_data] writes for a quiet value of the format,
    [ldouble_deserialize_data] reads back as that value. *)
Lemma data_roundtrip
  (P : platform) (q : fp) (rt rt' : runtime) (rest : list byte) :
  exact_wire_format P = true ->
  valid (ldbl P) q = true ->
  quiet_or_number (ldbl P) q = true ->
  exists w,
    ldouble_serialize_data P q rt
    = (Return (Z.of_nat (List.length w)),
       with_extern_out rt (extern_out rt ++ w))
    /\ ldouble_deserialize_data P (with_intern_src rt' (w ++ rest))
       = (Return (q, Z.of_nat (List.length w)), with_intern_src rt' rest).
Proof.
  intros HP Hv Hq.
  pose proof (exact_wire_format_single_field P HP) as Hib.
  unfold exact_wire_format in HP.
  apply andb_true_iff in HP. destruct HP as [HP Hpath].
  do 5 (apply andb_true_iff in HP; destruct HP as [HP ?]).
  destruct (raw_bytes_path P) eqn:Hraw.
  - apply andb_true_iff in Hpath. destruct Hpath as [Hbits _].
    apply Z.eqb_eq in Hbits.
    unfold raw_bytes_path in Hraw. apply orb_true_iff in Hraw.
    destruct Hraw as [H16|H10].
    + apply Z.eqb_eq in H16. apply data_roundtrip_16; assumption.
    + apply Z.eqb_eq in H10. apply data_roundtrip_10; assumption.
  - do 3 (apply andb_true_iff in Hpath; destruct Hpath as [Hpath ?]).
    apply data_roundtrip_double; try assumption;
      apply Z.eqb_eq; assumption.
Qed.

Lemma exact_wire_format_nan (P : platform) (rt : runtime) :
  exact_wire_format P = true ->
  nan_ rt = pos_zero \/ nan_ rt = nanl_empty P ->
  valid (ldbl P) (nan_ rt) = true
  /\ quiet_or_number (ldbl P) (nan_ rt) = true.
Proof.
  intros HP Hn. unfold exact_wire_format in HP.
  apply andb_true_iff in HP. destruct HP as [HP _].
  do 5 (apply andb_true_iff in HP; destruct HP as [HP ?]).
  destruct Hn as [-> | ->]; split; try assumption; reflexivity.
Qed.

Lemma exact_wire_format_tag (P : platform) :
  exact_wire_format P = true ->
  byte.unsigned (byte.of_Z (LDBL_MANT_DIG P)) = LDBL_MANT_DIG P.
Proof.
  intros HP. unfold exact_wire_format in HP.
  apply andb_true_iff in HP. destruct HP as [HP _].
  do 5 (apply andb_true_iff in HP; destruct HP as [HP ?]).
  rewrite byte.unsigned_of_Z. unfold byte.wrap.
  apply Z.mod_small. split; [apply Z.leb_le|apply Z.ltb_lt]; assumption.
Qed.

(** The scalar serialiser followed by the scalar deserialiser, in any two
    runtime states. *)
Lemma ldouble_wire_roundtrip
  (P : platform) (x : fp) (rt rt' : runtime) (rest : list byte) :
  exact_wire_format P = true ->
  nan_ rt = pos_zero \/ nan_ rt = nanl_empty P ->
  valid (ldbl P) x = true ->
  exists wire,
    ldouble_serialize P (ctypes_copy_ldouble x) rt
    = (Return (Z.of_nat (List.length wire), Z.of_nat (List.length wire)),
       with_extern_out rt (extern_out rt ++ wire))
    /\ ldouble_deserialize P (with_intern_src rt' (wire ++ rest))
       = (Return (norm P rt x, Z.of_nat (List.length wire)),
          with_intern_src rt' rest).
Proof.
  intros HP Hn Hv.
  destruct (exact_wire_format_nan P rt HP Hn) as [Hnv Hnq].
  pose proof (norm_valid P rt x Hv Hnv) as Hyv.
  pose proof (norm_quiet P rt x Hnq) as Hyq.
  set (tag := byte.of_Z (LDBL_MANT_DIG P)).
  set (rt1 := with_extern_out rt (extern_out rt ++ [tag])).
  destruct (data_roundtrip P (norm P rt x) rt1 rt' rest HP Hyv Hyq)
    as (w & Hser & Hde).
  exists (tag :: w). split.
  - unfold ldouble_serialize, bind at 1 2, get, caml_serialize_int_1,
      extern_write.
    fold tag. fold rt1. cbn [ctypes_copy_ldouble ldouble_custom_val
                             Data_custom_val nth].
    unfold bind. rewrite Hser. unfold ret, rt1.
    rewrite with_extern_out_twice. cbn [List.length app].
    rewrite Nat2Z.inj_succ. unfold Z.succ.
    rewrite (Z.add_comm _ 1). reflexivity.
  - unfold ldouble_deserialize, bind at 1 2, caml_deserialize_uint_1, bind.
    change (tag :: w) with ([tag] ++ w). rewrite <- app_assoc.
    rewrite (intern_read_app 1 [tag] (w ++ rest) rt' eq_refl).
    unfold ret at 1. rewrite le_combine_1. unfold tag at 1.
    rewrite (exact_wire_format_tag P HP), Z.eqb_refl. cbn [negb].
    unfold ret at 1. unfold bind. rewrite Hde. unfold ret.
    cbn [fst snd List.length app].
    rewrite Nat2Z.inj_succ. unfold Z.succ.
    rewrite (Z.add_comm _ 1). reflexivity.
Qed.

(** ** Equal scalars hash alike *)

(** Two values of a format that compare equal are the same datum, unless
    both are zeros. *)
Lemma cmp_magnitude_eq (f : format) (m1 m2 : positive) (e1 e2 : Z) :
  bounded f m1 e1 = true -> bounded f m2 e2 = true ->
  cmp_magnitude m1 e1 m2 e2 = Eq -> m1 = m2 /\ e1 = e2.
Proof.
  intros H1 H2 Hc.
  destruct (bounded_digits f m1 e1 H1) as (Hc1 & _ & _).
  destruct (bounded_digits f m2 e2 H2) as (Hc2 & _ & _).
  unfold cmp_magnitude in Hc. apply Z.compare_eq in Hc.
  assert (He : e1 = e2).
  { destruct (Z.le_ge_cases e1 e2) as [Hle|Hle].
    - rewrite Z.min_l, Z.sub_diag in Hc by lia.
      cbn [Z.pow] in Hc. rewrite Z.mul_1_r in Hc.
      assert (Hd : digits2 m1 = digits2 m2 + (e2 - e1)).
      { unfold digits2 at 1. rewrite Hc. apply digits2_scaled. lia. }
      rewrite Hd in Hc1. replace (digits2 m2 + (e2 - e1) + e1)
        with (digits2 m2 + e2) in Hc1 by lia. congruence.
    - rewrite Z.min_r, Z.sub_diag in Hc by lia.
      cbn [Z.pow] in Hc. rewrite Z.mul_1_r in Hc.
      assert (Hd : digits2 m2 = digits2 m1 + (e1 - e2)).
      { unfold digits2 at 1. rewrite <- Hc. apply digits2_scaled. lia. }
      rewrite Hd in Hc2. replace (digits2 m1 + (e1 - e2) + e2)
        with (digits2 m1 + e1) in Hc2 by lia. congruence. }
  split; [|exact He]. subst e2.
  rewrite Z.min_id, Z.sub_diag in Hc. cbn [Z.pow] in Hc. lia.
Qed.

Lemma fp_compare_eq_valid (f : format) (a b : fp) :
  valid f a = true -> valid f b = true -> fp_compare a b = Some Eq ->
  a = b \/ (exists sa sb, a = FZero sa /\ b = FZero sb).
Proof.
  intros Ha Hb Hc.
  destruct a as [sa|sa|sa pa|sa ma ea]; destruct b as [sb|sb|sb pb|sb mb eb];
    cbn [fp_compare] in Hc; try discriminate;
    try (destruct sa; discriminate); try (destruct sb; discriminate).
  - right. eauto.
  - left. destruct sa, sb; try discriminate; reflexivity.
  - left. cbn [valid] in Ha, Hb.
    destruct sa, sb; try discriminate.
    + assert (Hm : cmp_magnitude ma ea mb eb = Eq).
      { destruct (cmp_magnitude ma ea mb eb); try discriminate; reflexivity. }
      destruct (cmp_magnitude_eq f _ _ _ _ Ha Hb Hm) as [-> ->]. reflexivity.
    + assert (Hm : cmp_magnitude ma ea mb eb = Eq) by congruence.
      destruct (cmp_magnitude_eq f _ _ _ _ Ha Hb Hm) as [-> ->]. reflexivity.
Qed.

(** When the ordering engine answers EQUAL, the operands are both NaN or
    compare equal numerically. *)
Lemma ldouble_cmp_equal_cases (a b : fp) (rt : runtime) :
  fst (ldouble_cmp a b rt) = Return EQUAL ->
  (is_nan a = true /\ is_nan b = true) \/ fp_compare a b = Some Eq.
Proof.
  unfold ldouble_cmp, fp_lt, fp_gt, fp_ne, bind, ret, set_caml_compare_unordered.
  unfold fp_eq at 1.
  destruct (fp_compare a b) as [[| |]|] eqn:E; cbn; try discriminate.
  - intros _. right. reflexivity.
  - rewrite !fp_compare_refl_nan.
    destruct (is_nan a), (is_nan b); cbn; try discriminate.
    intros _. left. split; reflexivity.
Qed.

Lemma norm_of_equal (P : platform) (rt : runtime) (a b : fp) :
  valid (ldbl P) a = true -> valid (ldbl P) b = true ->
  fst (ldouble_cmp a b rt) = Return EQUAL ->
  norm P rt a = norm P rt b.
Proof.
  intros Ha Hb Hc.
  destruct (ldouble_cmp_equal_cases a b rt Hc) as [[Na Nb]|He].
  - destruct a; try discriminate. destruct b; try discriminate. reflexivity.
  - destruct (fp_compare_eq_valid (ldbl P) a b Ha Hb He)
      as [->|(sa & sb & -> & ->)]; reflexivity.
Qed.

Lemma land_low_high (x y k : Z) :
  0 <= k -> 0 <= x < 2 ^ k -> Z.land x (y * 2 ^ k) = 0.
Proof.
  intros Hk Hx. apply Z.bits_inj'. intros n Hn.
  rewrite Z.land_spec, Z.bits_0.
  destruct (Z.lt_ge_cases n k) as [Hlt|Hge].
  - rewrite Z.mul_pow2_bits_low by lia. apply andb_false_r.
  - replace (Z.testbit x n) with false; [reflexivity|].
    symmetry. destruct (Z.eq_dec x 0) as [->|Hx0]; [apply Z.bits_0|].
    apply Z.bits_above_log2; [lia|].
    apply Z.lt_le_trans with k; [|exact Hge].
    apply Z.log2_lt_pow2; lia.
Qed.

(** [caml_hash_mix_double] on a binary64 NaN does not depend on its sign
    or payload. *)
Lemma caml_hash_mix_double_nan
  (P : platform) (hash : Z) (s : bool) (pl : positive) :
  dbl P = binary64 -> Z.pos pl < 2 ^ 52 ->
  caml_hash_mix_double P hash (FNaN s pl)
  = caml_hash_mix_uint32 (caml_hash_mix_uint32 hash 1) 0x7FF00000.
Proof.
  intros Hd Hpl. unfold caml_hash_mix_double.
  assert (Hbits : bits_of_fp (dbl_layout P) (FNaN s pl)
                  = (Z.b2z s * 2 ^ 11 + 2047) * 2 ^ 52 + Z.pos pl).
  { unfold bits_of_fp, exponent_field, mantissa_field, ebits, mbits.
    cbn [lfmt dbl_layout explicit_bit sign_of]. rewrite Hd.
    cbn [emax prec binary64]. change (Z.log2 1024 + 1) with 11.
    change (53 - 1) with 52. rewrite Z.pow_add_r by lia.
    change (2 ^ 11 - 1) with 2047. ring. }
  rewrite Hbits. clear Hbits.
  set (hi := Z.pos pl / 2 ^ 32). set (lo := Z.pos pl mod 2 ^ 32).
  assert (Hpl' : Z.pos pl = hi * 2 ^ 32 + lo)
    by (unfold hi, lo; rewrite (Z.mul_comm hi); apply Z.div_mod; lia).
  assert (Hhi : 0 <= hi < 2 ^ 20).
  { unfold hi. split; [apply Z.div_pos; lia|].
    apply Z.div_lt_upper_bound; [lia|].
    change (2 ^ 32 * 2 ^ 20) with (2 ^ 52). exact Hpl. }
  assert (Hlo : 0 <= lo < 2 ^ 32) by (unfold lo; apply Z.mod_pos_bound; lia).
  set (A := Z.b2z s * 2 ^ 11 + 2047).
  assert (HA : 0 <= A) by (unfold A; destruct s; cbn; lia).
  assert (Hh : Z.shiftr (A * 2 ^ 52 + Z.pos pl) 32 = A * 2 ^ 20 + hi).
  { rewrite Z.shiftr_div_pow2 by lia.
    replace (A * 2 ^ 52 + Z.pos pl) with ((A * 2 ^ 20 + hi) * 2 ^ 32 + lo)
      by (rewrite Hpl'; change (2 ^ 52) with (2 ^ 20 * 2 ^ 32); ring).
    rewrite Z.div_add_l by lia. rewrite (Z.div_small lo) by lia. lia. }
  assert (Hl : Z.land (A * 2 ^ 52 + Z.pos pl) 0xFFFFFFFF = lo).
  { change 0xFFFFFFFF with (Z.ones 32). rewrite Z.land_ones by lia.
    replace (A * 2 ^ 52 + Z.pos pl) with (lo + (A * 2 ^ 20 + hi) * 2 ^ 32)
      by (rewrite Hpl'; change (2 ^ 52) with (2 ^ 20 * 2 ^ 32); ring).
    rewrite Z.mod_add by lia. apply Z.mod_small; lia. }
  rewrite Hh, Hl.
  assert (Hsum : A * 2 ^ 20 + hi = Z.lor (A * 2 ^ 20) hi).
  { rewrite Z.add_comm, (Z.lor_comm (A * 2 ^ 20)).
    assert (H0 : Z.land hi (A * 2 ^ 20) = 0) by (apply land_low_high; lia).
    rewrite Z.add_nocarry_lxor by exact H0. apply Z.lxor_lor, H0. }
  assert (Hmask : Z.land (A * 2 ^ 20 + hi) 0x7FF00000 = 0x7FF00000).
  { rewrite Hsum, Z.land_lor_distr_l.
    change 0x7FF00000 with (2047 * 2 ^ 20) at 2.
    rewrite (land_low_high hi 2047 20) by lia.
    rewrite Z.lor_0_r. unfold A. destruct s; reflexivity. }
  assert (Hlow : Z.land (A * 2 ^ 20 + hi) 0xFFFFF = hi).
  { change 0xFFFFF with (Z.ones 20). rewrite Z.land_ones by lia.
    rewrite Z.add_comm, Z.mod_add by lia. apply Z.mod_small; lia. }
  rewrite Hmask, Hlow, Z.eqb_refl.
  replace (Z.lor lo hi =? 0) with false; [reflexivity|].
  symmetry. apply Z.eqb_neq. intros H0.
  apply Z.lor_eq_0_iff in H0. lia.
Qed.

(** ... and on a binary64 zero it does not depend on the sign. *)
Lemma caml_hash_mix_double_zero (P : platform) (hash : Z) (s : bool) :
  dbl P = binary64 ->
  caml_hash_mix_double P hash (FZero s)
  = caml_hash_mix_uint32 (caml_hash_mix_uint32 hash 0) 0.
Proof.
  intros Hd. unfold caml_hash_mix_double.
  assert (Hbits : bits_of_fp (dbl_layout P) (FZero s) = Z.b2z s * 2 ^ 63).
  { unfold bits_of_fp, exponent_field, mantissa_field, ebits, mbits.
    cbn [lfmt dbl_layout explicit_bit sign_of]. rewrite Hd.
    cbn [emax prec binary64]. change (Z.log2 1024 + 1 + (53 - 1)) with 63.
    ring. }
  rewrite Hbits. destruct s; reflexivity.
Qed.

(** The payload of a NaN cast into a format fits that format. *)
Lemma fp_cast_nan (src dst : format) (s : bool) (pl : positive) :
  2 <= prec dst -> Z.pos pl < 2 ^ (prec src - 1) ->
  exists pl', fp_cast src dst (FNaN s pl) = FNaN s pl'
              /\ Z.pos pl' < 2 ^ (prec dst - 1).
Proof.
  intros Hd Hpl.
  assert (Hs : 1 <= prec src).
  { destruct (Z.lt_ge_cases (prec src - 1) 0) as [Hneg|Hge]; [|lia].
    rewrite Z.pow_neg_r in Hpl by exact Hneg. lia. }
  unfold fp_cast. destruct (same_format src dst) eqn:Esame.
  { apply same_format_eq in Esame. subst dst.
    exists pl. split; [reflexivity | exact Hpl]. }
  cbn [fp_convert]. eexists. split; [reflexivity|].
  set (d := prec dst - prec src).
  set (X := if 0 <=? d then Z.pos pl * 2 ^ d else Z.pos pl / 2 ^ (- d)).
  assert (HX : 0 <= X < 2 ^ (prec dst - 1)).
  { unfold X. destruct (0 <=? d) eqn:E.
    - apply Z.leb_le in E. split; [apply Z.mul_nonneg_nonneg; lia|].
      replace (prec dst - 1) with ((prec src - 1) + d) by (unfold d; lia).
      rewrite Z.pow_add_r by lia.
      apply Z.mul_lt_mono_pos_r; [apply Z.pow_pos_nonneg; lia|exact Hpl].
    - apply Z.leb_gt in E.
      assert (H2 : 0 < 2 ^ (- d)) by (apply Z.pow_pos_nonneg; lia).
      split; [apply Z.div_pos; lia|].
      apply Z.div_lt_upper_bound; [lia|].
      rewrite <- Z.pow_add_r by lia.
      replace (- d + (prec dst - 1)) with (prec src - 1) by (unfold d; lia).
      exact Hpl. }
  assert (Hq : 0 < quiet_bit dst < 2 ^ (prec dst - 1)).
  { unfold quiet_bit. split; [apply Z.pow_pos_nonneg; lia|].
    apply Z.pow_lt_mono_r; lia. }
  assert (Hnn : 0 <= Z.lor X (quiet_bit dst)) by (apply Z.lor_nonneg; lia).
  assert (Hnz : Z.lor X (quiet_bit dst) <> 0).
  { intros H0. apply Z.lor_eq_0_iff in H0. lia. }
  rewrite Z2Pos.id by lia.
  apply Z.log2_lt_pow2; [lia|].
  rewrite Z.log2_lor by lia.
  apply Z.max_lub_lt.
  - destruct (Z.eq_dec X 0) as [->|]; [cbn; lia|].
    apply Z.log2_lt_pow2; lia.
  - apply Z.log2_lt_pow2; lia.
Qed.

(** The scalar half of the hash invariant: on a platform that hashes the
    value bytes, or whose [double] is binary64, two values of the format
    that the ordering engine calls EQUAL (both NaN with any payloads, the
    two zeros, or the same number) have the same hash from any seed. *)
Lemma equal_scalars_hash_alike
  (P : platform) (rt : runtime) (hash : Z) (a b : fp) :
  raw_bytes_path P = true \/ dbl P = binary64 ->
  valid (ldbl P) a = true -> valid (ldbl P) b = true ->
  fst (ldouble_cmp a b rt) = Return EQUAL ->
  ldouble_mix_hash P rt hash a = ldouble_mix_hash P rt hash b.
Proof.
  intros HP Ha Hb Hc.
  pose proof (norm_of_equal P rt a b Ha Hb Hc) as Hn.
  unfold ldouble_mix_hash. rewrite Hn.
  destruct (LDOUBLE_VALUE_BYTES P =? 16) eqn:H16; [reflexivity|].
  destruct (LDOUBLE_VALUE_BYTES P =? 10) eqn:H10; [reflexivity|].
  destruct HP as [HP|Hd].
  { unfold raw_bytes_path in HP. rewrite H16, H10 in HP. discriminate. }
  assert (Hpd : 2 <= prec (dbl P)) by (rewrite Hd; cbn; lia).
  destruct (ldouble_cmp_equal_cases a b rt Hc) as [[Na Nb]|He].
  - destruct a as [| |sa pa|]; try discriminate.
    destruct b as [| |sb pb|]; try discriminate.
    cbn [valid] in Ha, Hb. apply Z.ltb_lt in Ha. apply Z.ltb_lt in Hb.
    destruct (fp_cast_nan (ldbl P) (dbl P) sa pa Hpd Ha) as (pa' & -> & Hpa).
    destruct (fp_cast_nan (ldbl P) (dbl P) sb pb Hpd Hb) as (pb' & -> & Hpb).
    rewrite Hd in Hpa, Hpb.
    rewrite !caml_hash_mix_double_nan by assumption. reflexivity.
  - destruct (fp_compare_eq_valid (ldbl P) a b Ha Hb He)
      as [->|(sa & sb & -> & ->)]; [reflexivity|].
    rewrite !fp_cast_zero. rewrite !caml_hash_mix_double_zero by assumption.
    reflexivity.
Qed.

(** ** Sizes the serialiser declares *)

Lemma reverse_blocks_long (k c : nat) (data : list byte) :
  (k * c <= List.length data)%nat ->
  List.length (reverse_blocks k c data) = (k * c)%nat.
Proof.
  intros H. rewrite <- (firstn_skipn (k * c) data).
  rewrite reverse_blocks_app by (rewrite length_firstn; lia).
  apply reverse_blocks_length. rewrite length_firstn. lia.
Qed.

Lemma caml_serialize_block_appends
  (P : platform) (k len : nat) (data : list byte) (rt : runtime) :
  exists w,
    caml_serialize_block P k data len rt
    = (Return tt, with_extern_out rt (extern_out rt ++ w))
    /\ ((k * len <= List.length data)%nat -> List.length w = (k * len)%nat).
Proof.
  unfold caml_serialize_block, extern_write. eexists. split; [reflexivity|].
  intros H. destruct (ARCH_BIG_ENDIAN P).
  - rewrite length_firstn. lia.
  - apply reverse_blocks_long, H.
Qed.

Lemma store_ldouble_length (P : platform) (rt : runtime) (q : fp) :
  (Z.to_nat (sizeof_long_double P) <= List.length (store_ldouble P rt q))%nat.
Proof.
  unfold store_ldouble. rewrite length_app, length_firstn, length_app,
    repeat_length. lia.
Qed.

(** On every platform [ldouble_serialize_data] returns [wire_size] and
    only appends to the output; where the storage is adequate it appends
    exactly [wire_size] bytes. *)
Lemma ldouble_serialize_data_appends (P : platform) (q : fp) (rt : runtime) :
  exists w,
    ldouble_serialize_data P q rt
    = (Return (wire_size P), with_extern_out rt (extern_out rt ++ w))
    /\ (storage_ok P = true -> Z.of_nat (List.length w) = wire_size P).
Proof.
  unfold ldouble_serialize_data, wire_size, storage_ok, raw_bytes_path.
  unfold bind at 1, get.
  pose proof (store_ldouble_length P rt q) as Hlen.
  set (p := store_ldouble P rt q) in *.
  destruct (LDOUBLE_VALUE_BYTES P =? 16) eqn:H16.
  - apply Z.eqb_eq in H16.
    destruct (caml_serialize_block_appends P 8 2 p rt) as (w & Hw & Hl).
    exists w. unfold bind, caml_serialize_block_8. rewrite Hw.
    split; [reflexivity|]. cbn [orb]. intros Hs. apply Z.leb_le in Hs.
    rewrite Hl by lia. reflexivity.
  - destruct (LDOUBLE_VALUE_BYTES P =? 10) eqn:H10.
    + apply Z.eqb_eq in H10.
      destruct (caml_serialize_block_appends P 8 1 p rt) as (w1 & Hw1 & Hl1).
      destruct (caml_serialize_block_appends
                  P 2 1 (skipn 8 p)
                  (with_extern_out rt (extern_out rt ++ w1)))
        as (w2 & Hw2 & Hl2).
      exists (w1 ++ w2).
      unfold bind, caml_serialize_block_8, caml_serialize_block_2.
      rewrite Hw1, Hw2. unfold ret. rewrite with_extern_out_twice.
      split; [reflexivity|]. cbn [orb]. intros Hs. apply Z.leb_le in Hs.
      rewrite length_app, Hl1, Hl2 by (try rewrite length_skipn; lia).
      reflexivity.
    + cbn [orb]. destruct (sizeof_double P =? 4) eqn:H4.
      * apply Z.eqb_eq in H4.
        destruct (caml_serialize_block_appends
                    P 4 1 (store_double P (fp_cast (ldbl P) (dbl P) q)) rt)
          as (w & Hw & Hl).
        exists w. unfold bind, caml_serialize_float_4, caml_serialize_block_4.
        rewrite Hw. split; [reflexivity|]. intros _.
        rewrite Hl; [rewrite H4; reflexivity|].
        unfold store_double. rewrite native_split_length, H4. cbn; lia.
      * eexists. unfold bind, caml_serialize_float_8, extern_write.
        split; [reflexivity|]. cbn [orb]. intros Hs. apply Z.eqb_eq in Hs.
        assert (Hst : List.length (store_double P (fp_cast (ldbl P) (dbl P) q))
                      = 8%nat).
        { unfold store_double. rewrite native_split_length, Hs. reflexivity. }
        destruct (ARCH_BIG_ENDIAN P); [rewrite length_rev|];
          rewrite Hst, Hs; reflexivity.
Qed.

(** ** Rounding in general *)

Lemma digits2_le (m : positive) (n : Z) :
  0 <= n -> Z.pos m < 2 ^ n -> digits2 m <= n.
Proof.
  intros Hn H. destruct (digits2_bounds m) as [Hl _].
  destruct (Z.le_gt_cases (digits2 m) n) as [|Hgt]; [assumption|].
  assert (2 ^ n <= 2 ^ (digits2 m - 1)) by (apply Z.pow_le_mono_r; lia).
  lia.
Qed.

Lemma digits2_ge (m : positive) (n : Z) :
  2 ^ (n - 1) <= Z.pos m -> n <= digits2 m.
Proof.
  intros H. destruct (digits2_bounds m) as [_ Hu].
  pose proof (digits2_pos m) as Hp.
  destruct (Z.le_gt_cases n (digits2 m)) as [|Hgt]; [assumption|].
  assert (2 ^ digits2 m <= 2 ^ (n - 1)) by (apply Z.pow_le_mono_r; lia).
  lia.
Qed.

Lemma round_fp_unscaled (f : format) (s : bool) (m n : positive) (e j : Z) :
  bounded f m e = true -> 0 <= j -> Z.pos m = Z.pos n * 2 ^ j ->
  round_fp f s n (e + j) = FFinite s m e.
Proof.
  intros Hb Hj Hm. destruct (bounded_digits f m e Hb) as (Hc & Hd & He).
  unfold round_fp.
  assert (Hdig : digits2 n + (e + j) = digits2 m + e).
  { unfold digits2 at 2. rewrite Hm, digits2_scaled by lia. lia. }
  rewrite Hdig, Hc.
  replace (e <=? e + j) with true by (symmetry; apply Z.leb_le; lia).
  replace (e + j - e) with j by lia. rewrite <- Hm.
  apply round_finish_bounded, Hb.
Qed.

(** Rounding depends on the value only: any way of writing a value of
    the format rounds to its canonical datum. *)
Lemma round_fp_same_value
  (f : format) (s : bool) (m n : positive) (e en E : Z) :
  bounded f m e = true -> E <= e -> E <= en ->
  Z.pos n * 2 ^ (en - E) = Z.pos m * 2 ^ (e - E) ->
  round_fp f s n en = FFinite s m e.
Proof.
  intros Hb He Hen Hv.
  destruct (Z.le_gt_cases en e) as [Hle|Hgt].
  - replace en with (e - (e - en)) by lia.
    apply round_fp_scaled; [exact Hb|lia|].
    replace (e - E) with ((e - en) + (en - E)) in Hv by lia.
    rewrite Z.pow_add_r, Z.mul_assoc in Hv by lia.
    apply Z.mul_cancel_r in Hv; [exact Hv|].
    apply Z.pow_nonzero; lia.
  - replace en with (e + (en - e)) by lia.
    apply round_fp_unscaled; [exact Hb|lia|].
    replace (en - E) with ((en - e) + (e - E)) in Hv by lia.
    rewrite Z.pow_add_r, Z.mul_assoc in Hv by lia.
    apply Z.mul_cancel_r in Hv; [symmetry; exact Hv|].
    apply Z.pow_nonzero; lia.
Qed.

(** A value that needs no more digits than the format has, and lies in
    its range, rounds to a datum of the same value. *)
Lemma round_fp_exact (f : format) (s : bool) (n : positive) (en : Z) :
  2 <= emax f ->
  fexp f (digits2 n + en) <= en -> digits2 n + en <= emax f ->
  exists m e, bounded f m e = true
              /\ round_fp f s n en = FFinite s m e
              /\ e <= en /\ Z.pos m = Z.pos n * 2 ^ (en - e).
Proof.
  intros Hemax Hfe Hov. unfold round_fp.
  set (e := fexp f (digits2 n + en)) in *.
  replace (e <=? en) with true by (symmetry; apply Z.leb_le; lia).
  assert (Hpos : 0 < Z.pos n * 2 ^ (en - e))
    by (apply Z.mul_pos_pos; [lia|apply Z.pow_pos_nonneg; lia]).
  destruct (Z.pos n * 2 ^ (en - e)) as [|m|m] eqn:Em; try lia.
  assert (Hdm : digits2 m = digits2 n + (en - e)).
  { unfold digits2 at 1. rewrite <- Em. apply digits2_scaled. lia. }
  assert (Hbnd : bounded f m e = true).
  { unfold bounded, canonical_mantissa. rewrite Hdm.
    replace (digits2 n + (en - e) + e) with (digits2 n + en) by lia.
    fold e. rewrite Z.eqb_refl. cbn [andb]. apply Z.leb_le.
    unfold e, fexp, emin. lia. }
  exists m, e. split; [exact Hbnd|]. split; [|split; [lia|symmetry; exact Em]].
  apply round_finish_bounded, Hbnd.
Qed.

Lemma round_finish_valid (f : format) (s : bool) (q e : Z) :
  1 <= prec f -> emin f <= e -> 0 <= q <= 2 ^ prec f ->
  e = emin f \/ 2 ^ (prec f - 1) <= q ->
  valid f (round_finish f s q e) = true.
Proof.
  intros Hp He Hq Hn. unfold round_finish.
  destruct q as [|m|m]; [reflexivity| |lia].
  destruct (prec f <? digits2 m) eqn:Ed.
  - apply Z.ltb_lt in Ed.
    assert (Hm : Z.pos m = 2 ^ prec f).
    { destruct (Z.eq_dec (Z.pos m) (2 ^ prec f)) as [|Hne]; [assumption|].
      assert (digits2 m <= prec f) by (apply digits2_le; lia). lia. }
    rewrite Hm.
    assert (Hhalf : 2 ^ prec f / 2 = 2 ^ (prec f - 1)).
    { replace (prec f) with (1 + (prec f - 1)) at 1 by lia.
      rewrite Z.pow_add_r by lia. change (2 ^ 1) with 2.
      rewrite Z.mul_comm, Z.div_mul by lia. reflexivity. }
    rewrite Hhalf.
    destruct (e + 1 <=? emax f - prec f) eqn:Ee; [|reflexivity].
    cbn [valid]. unfold bounded, canonical_mantissa. rewrite Ee.
    rewrite andb_true_r. apply Z.eqb_eq.
    assert (Hpos : 0 < 2 ^ (prec f - 1)) by (apply Z.pow_pos_nonneg; lia).
    assert (Hd : digits2 (Z.to_pos (2 ^ (prec f - 1))) = prec f).
    { unfold digits2. rewrite Z2Pos.id by lia.
      rewrite Z.log2_pow2 by lia. lia. }
    rewrite Hd. unfold fexp. lia.
  - apply Z.ltb_ge in Ed.
    destruct (e <=? emax f - prec f) eqn:Ee; [|reflexivity].
    cbn [valid Z.to_pos]. unfold bounded, canonical_mantissa. rewrite Ee.
    rewrite andb_true_r. apply Z.eqb_eq. unfold fexp.
    destruct Hn as [->|Hn]; [lia|].
    assert (prec f <= digits2 m) by (apply digits2_ge; exact Hn). lia.
Qed.

(** The quotient of the inexact branch, rounded, stays within one unit
    above the digits of the format. *)
Lemma round_fp_quotient (f : format) (m : positive) (e : Z) :
  1 <= prec f ->
  let e' := fexp f (digits2 m + e) in
  e < e' ->
  let k := e' - e in
  let q := Z.pos m / 2 ^ k in
  0 <= q < 2 ^ prec f
  /\ (e' = emin f \/ 2 ^ (prec f - 1) <= q).
Proof.
  intros Hp e' He k q.
  assert (Hk : 0 < k) by (unfold k; lia).
  assert (H2k : 0 < 2 ^ k) by (apply Z.pow_pos_nonneg; lia).
  destruct (digits2_bounds m) as [Hl Hu].
  pose proof (digits2_pos m) as Hd.
  assert (He' : digits2 m + e - prec f <= e') by (unfold e', fexp; lia).
  split; [split|].
  - apply Z.div_pos; lia.
  - apply Z.div_lt_upper_bound; [lia|].
    rewrite <- Z.pow_add_r by lia.
    assert (2 ^ digits2 m <= 2 ^ (k + prec f))
      by (apply Z.pow_le_mono_r; unfold k; lia).
    lia.
  - destruct (Z.eq_dec e' (emin f)) as [|Hne]; [left; assumption|right].
    assert (Hk' : k = digits2 m - prec f) by (unfold k, e', fexp in *; lia).
    apply Z.div_le_lower_bound; [lia|].
    rewrite <- Z.pow_add_r by lia.
    replace (k + (prec f - 1)) with (digits2 m - 1) by lia. exact Hl.
Qed.

(** Rounding always gives a value of the format. *)
Lemma round_fp_valid (f : format) (s : bool) (m : positive) (e : Z) :
  1 <= prec f -> 2 <= emax f -> valid f (round_fp f s m e) = true.
Proof.
  intros Hp Hemax. unfold round_fp.
  set (e' := fexp f (digits2 m + e)).
  assert (Hemin : emin f <= e') by (unfold e', fexp; lia).
  destruct (e' <=? e) eqn:Ee.
  - apply Z.leb_le in Ee.
    assert (Hpos : 0 < Z.pos m * 2 ^ (e - e'))
      by (apply Z.mul_pos_pos; [lia|apply Z.pow_pos_nonneg; lia]).
    destruct (Z.pos m * 2 ^ (e - e')) as [|n|n] eqn:En; try lia.
    assert (Hdn : digits2 n = digits2 m + (e - e')).
    { unfold digits2 at 1. rewrite <- En. apply digits2_scaled. lia. }
    destruct (digits2_bounds n) as [Hl Hu].
    assert (He' : digits2 m + e - prec f <= e') by (unfold e', fexp; lia).
    apply round_finish_valid; [exact Hp|exact Hemin| |].
    + split; [lia|].
      assert (2 ^ digits2 n <= 2 ^ prec f) by (apply Z.pow_le_mono_r; lia).
      lia.
    + destruct (Z.eq_dec e' (emin f)) as [|Hne]; [left; assumption|right].
      assert (Hd : digits2 n = prec f) by (unfold e', fexp in *; lia).
      rewrite <- Hd. exact Hl.
  - apply Z.leb_gt in Ee.
    destruct (round_fp_quotient f m e Hp Ee) as (Hq & Hn).
    fold e' in Hq, Hn.
    set (q := Z.pos m / 2 ^ (e' - e)) in *.
    apply round_finish_valid; [exact Hp|exact Hemin| |].
    + destruct (_ || _); lia.
    + destruct Hn as [Hn|Hn]; [left; exact Hn|right].
      destruct (_ || _); lia.
Qed.

(** Rounding to nearest, for a value above the subnormal grid: the
    result is infinite, or a datum of the format that is the value
    itself, or differs from it by at most half a unit of the last
    digit kept. *)
Lemma round_fp_nearest (f : format) (s : bool) (m : positive) (e : Z) :
  1 <= prec f -> 2 <= emax f -> emin f <= e ->
  round_fp f s m e = FInf s
  \/ exists mh eh,
       round_fp f s m e = FFinite s mh eh
       /\ bounded f mh eh = true
       /\ ((eh <= e /\ Z.pos mh = Z.pos m * 2 ^ (e - eh))
           \/ (e < eh
               /\ exists d, Z.pos m = Z.pos mh * 2 ^ (eh - e) + d
                            /\ 2 * Z.abs d <= 2 ^ (digits2 m - prec f))).
Proof.
  intros Hp Hemax Hemin.
  pose proof (round_fp_valid f s m e Hp Hemax) as Hvalid.
  set (e' := fexp f (digits2 m + e)).
  destruct (Z.le_gt_cases e' e) as [Hle|Hgt].
  - destruct (Z.le_gt_cases (digits2 m + e) (emax f)) as [Hov|Hov].
    + destruct (round_fp_exact f s m e Hemax Hle Hov)
        as (mh & eh & Hb & Hr & Heh & Hm).
      right. exists mh, eh. split; [exact Hr|]. split; [exact Hb|].
      left. split; assumption.
    + left. unfold round_fp. fold e'.
      replace (e' <=? e) with true by (symmetry; apply Z.leb_le; lia).
      assert (Hpos : 0 < Z.pos m * 2 ^ (e - e'))
        by (apply Z.mul_pos_pos; [lia|apply Z.pow_pos_nonneg; lia]).
      destruct (Z.pos m * 2 ^ (e - e')) as [|n|n] eqn:En; try lia.
      assert (Hdn : digits2 n = digits2 m + (e - e')).
      { unfold digits2 at 1. rewrite <- En. apply digits2_scaled. lia. }
      unfold round_finish.
      destruct (prec f <? digits2 n) eqn:Ed.
      * replace (e' + 1 <=? emax f - prec f) with false
          by (symmetry; apply Z.leb_gt; unfold e', fexp; lia).
        reflexivity.
      * apply Z.ltb_ge in Ed.
        replace (e' <=? emax f - prec f) with false
          by (symmetry; apply Z.leb_gt; unfold e', fexp in *; lia).
        reflexivity.
  - destruct (round_fp_quotient f m e Hp Hgt) as (Hq & Hn).
    fold e' in Hq, Hn.
    assert (Hk : e' - e = digits2 m - prec f) by (unfold e', fexp in *; lia).
    destruct Hn as [Hn|Hn]; [lia|].
    revert Hvalid. unfold round_fp. fold e'.
    replace (e' <=? e) with false by (symmetry; apply Z.leb_gt; lia).
    set (k := e' - e) in *.
    assert (H2k : 0 < 2 ^ k) by (apply Z.pow_pos_nonneg; lia).
    assert (Hhalf : 2 ^ k = 2 * 2 ^ (k - 1)).
    { replace k with (1 + (k - 1)) at 1 by lia.
      rewrite Z.pow_add_r by lia. reflexivity. }
    pose proof (Z.div_mod (Z.pos m) (2 ^ k) ltac:(lia)) as Hdm.
    pose proof (Z.mod_pos_bound (Z.pos m) (2 ^ k) H2k) as Hr.
    set (q := Z.pos m / 2 ^ k) in *.
    set (r := Z.pos m mod 2 ^ k) in *.
    set (up := (2 ^ (k - 1) <? r) || ((r =? 2 ^ (k - 1)) && Z.odd q)).
    assert (Hpp : 0 < 2 ^ (prec f - 1)) by (apply Z.pow_pos_nonneg; lia).
    assert (Hd : exists d, Z.pos m = (if up then q + 1 else q) * 2 ^ k + d
                           /\ 2 * Z.abs d <= 2 ^ k).
    { destruct up eqn:Eup.
      - exists (r - 2 ^ k). split; [lia|].
        unfold up in Eup. apply orb_true_iff in Eup.
        destruct Eup as [E|E].
        + apply Z.ltb_lt in E. lia.
        + apply andb_true_iff in E. destruct E as [E _].
          apply Z.eqb_eq in E. lia.
      - exists r. split; [lia|].
        unfold up in Eup. apply orb_false_iff in Eup.
        destruct Eup as [E _]. apply Z.ltb_ge in E. lia. }
    destruct Hd as (d & Hmd & Hdb).
    assert (Hq1 : 2 ^ (prec f - 1) <= (if up then q + 1 else q) <= 2 ^ prec f)
      by (destruct up; lia).
    destruct (if up then q + 1 else q) as [|q1|q1] eqn:Eq1; try lia.
    unfold round_finish.
    destruct (prec f <? digits2 q1) eqn:Ed.
    + apply Z.ltb_lt in Ed.
      assert (Hm : Z.pos q1 = 2 ^ prec f).
      { destruct (Z.eq_dec (Z.pos q1) (2 ^ prec f)) as [|Hne]; [assumption|].
        assert (digits2 q1 <= prec f) by (apply digits2_le; lia). lia. }
      rewrite Hm.
      assert (Hh : 2 ^ prec f / 2 = 2 ^ (prec f - 1)).
      { replace (prec f) with (1 + (prec f - 1)) at 1 by lia.
        rewrite Z.pow_add_r by lia. change (2 ^ 1) with 2.
        rewrite Z.mul_comm, Z.div_mul by lia. reflexivity. }
      rewrite Hh.
      destruct (e' + 1 <=? emax f - prec f); [|intros _; left; reflexivity].
      intros Hb. cbn [valid] in Hb. right.
      exists (Z.to_pos (2 ^ (prec f - 1))), (e' + 1).
      split; [reflexivity|]. split; [exact Hb|]. right. split; [lia|].
      exists d. rewrite Z2Pos.id by lia. split; [|rewrite <- Hk; exact Hdb].
      replace (e' + 1 - e) with (1 + k) by (unfold k; lia).
      rewrite Z.pow_add_r by lia. change (2 ^ 1) with 2.
      rewrite Hmd, Hm.
      replace (prec f) with (1 + (prec f - 1)) at 1 by lia.
      rewrite Z.pow_add_r by lia. change (2 ^ 1) with 2. ring.
    + destruct (e' <=? emax f - prec f); [|intros _; left; reflexivity].
      intros Hb. cbn [valid Z.to_pos] in Hb. right.
      exists q1, e'. split; [reflexivity|]. split; [exact Hb|].
      right. split; [lia|]. exists d.
      split; [exact Hmd|rewrite <- Hk; exact Hdb].
Qed.

(** ** Exact sums *)

Lemma scale_shift (a b E n m : Z) :
  E <= b -> b <= a -> n = m * 2 ^ (a - b) -> n * 2 ^ (b - E) = m * 2 ^ (a - E).
Proof.
  intros H1 H2 ->. replace (a - E) with ((a - b) + (b - E)) by lia.
  rewrite Z.pow_add_r by lia. ring.
Qed.

Lemma bounded_emin (f : format) (m : positive) (e : Z) :
  bounded f m e = true -> emin f <= e.
Proof.
  intros H. destruct (bounded_digits f m e H) as (Hc & _).
  unfold fexp in Hc. lia.
Qed.

Lemma signed_abs (s : bool) (z : Z) :
  signed (xorb s (z <? 0)) (Z.abs z) = signed s z.
Proof.
  unfold signed. destruct (z <? 0) eqn:E.
  - apply Z.ltb_lt in E. destruct s; cbn [xorb]; lia.
  - apply Z.ltb_ge in E. destruct s; cbn [xorb]; lia.
Qed.

(** A sum whose exact value is a datum of the format is that datum. *)
Lemma fp_add_exact
  (f : format) (sx sy s : bool) (mx my m : positive) (ex ey e E : Z) :
  bounded f m e = true -> E <= ex -> E <= ey -> E <= e ->
  signed sx (Z.pos mx * 2 ^ (ex - E)) + signed sy (Z.pos my * 2 ^ (ey - E))
  = signed s (Z.pos m * 2 ^ (e - E)) ->
  fp_add f (FFinite sx mx ex) (FFinite sy my ey) = FFinite s m e.
Proof.
  intros Hb Hx Hy He Hsum. cbn [fp_add].
  set (e0 := Z.min ex ey).
  assert (He0 : E <= e0 /\ e0 <= ex /\ e0 <= ey) by (unfold e0; lia).
  set (z := signed sx (Z.pos mx * 2 ^ (ex - e0))
            + signed sy (Z.pos my * 2 ^ (ey - e0))).
  assert (Hz : z * 2 ^ (e0 - E) = signed s (Z.pos m * 2 ^ (e - E))).
  { rewrite <- Hsum. unfold z.
    rewrite <- (scale_shift ex e0 E _ (Z.pos mx) ltac:(lia) ltac:(lia) eq_refl).
    rewrite <- (scale_shift ey e0 E _ (Z.pos my) ltac:(lia) ltac:(lia) eq_refl).
    unfold signed. destruct sx, sy; ring. }
  assert (HT : 0 < 2 ^ (e0 - E)) by (apply Z.pow_pos_nonneg; lia).
  assert (HM : 0 < Z.pos m * 2 ^ (e - E))
    by (apply Z.mul_pos_pos; [lia|apply Z.pow_pos_nonneg; lia]).
  destruct z as [|n|n].
  - unfold signed in Hz. destruct s; lia.
  - assert (s = false) as ->.
    { destruct s; [|reflexivity]. unfold signed in Hz.
      assert (0 < Z.pos n * 2 ^ (e0 - E)) by (apply Z.mul_pos_pos; lia).
      lia. }
    apply (round_fp_same_value f false m n e e0 E); try assumption; try lia.
  - assert (s = true) as ->.
    { destruct s; [reflexivity|]. unfold signed in Hz.
      assert (Z.neg n * 2 ^ (e0 - E) < 0)
        by (apply Z.mul_neg_pos; lia).
      lia. }
    apply (round_fp_same_value f true m n e e0 E); try assumption; try lia.
    unfold signed in Hz.
    change (Z.neg n) with (- Z.pos n) in Hz. lia.
Qed.

Lemma fp_add_opposite (f : format) (s : bool) (m : positive) (e : Z) :
  fp_add f (FFinite s m e) (FFinite (negb s) m e) = FZero false.
Proof.
  cbn [fp_add]. rewrite Z.min_id, Z.sub_diag. cbn [Z.pow].
  rewrite Z.mul_1_r.
  replace (signed s (Z.pos m) + signed (negb s) (Z.pos m)) with 0
    by (unfold signed; destruct s; cbn [negb]; lia).
  reflexivity.
Qed.

(** ** The pair of doubles *)

Section DoubleDouble.
Variable P : platform.
Hypothesis Hib : ibm128 P = true.

Lemma ibm128_format : prec (ldbl P) = 106 /\ emax (ldbl P) = 1024.
Proof.
  unfold ibm128 in Hib. apply andb_true_iff in Hib. destruct Hib as [Hm He].
  apply Z.eqb_eq in Hm. apply Z.eqb_eq in He. cbn [ldbl prec emax].
  split; assumption.
Qed.

(** Splitting a 106-digit number into its two doubles and adding them
    again gives the number back. *)
Lemma ibm128_join_split_finite (s : bool) (m : positive) (e : Z) :
  bounded (ldbl P) m e = true ->
  emin binary64 <= e ->
  is_finite (round_fp binary64 s m e) = true ->
  valid binary64 (fst (ibm128_split P (FFinite s m e))) = true
  /\ valid binary64 (snd (ibm128_split P (FFinite s m e))) = true
  /\ ibm128_join P (fst (ibm128_split P (FFinite s m e)))
                   (snd (ibm128_split P (FFinite s m e)))
     = FFinite s m e.
Proof.
  intros Hb He Hfin. destruct ibm128_format as [Hpf Hef].
  set (f := ldbl P) in *.
  assert (Heminf : emin f = -1127) by (unfold emin; lia).
  assert (Hpd : 1 <= prec binary64) by (cbn; lia).
  assert (Hed : 2 <= emax binary64) by (cbn; lia).
  assert (Hemaxf : 2 <= emax f) by lia.
  destruct (bounded_digits f m e Hb) as (_ & Hdm & Hemx).
  unfold ibm128_split. fold f. cbn [fp_convert].
  destruct (round_fp_nearest binary64 s m e Hpd Hed He)
    as [Hinf|(mh & eh & Hhi & Hbh & Hval)].
  { rewrite Hinf in Hfin. discriminate. }
  rewrite Hhi. cbn [fst snd fp_convert fp_neg].
  destruct (bounded_digits binary64 mh eh Hbh) as (_ & Hdh & Hehx).
  pose proof (bounded_emin binary64 mh eh Hbh) as Hehm.
  cbn [prec emax binary64] in Hdh, Hehx.
  change (emin binary64) with (-1074) in *.
  (* the high double as a long double *)
  assert (HhiL : exists mH eH,
             bounded f mH eH = true
             /\ round_fp f s mh eh = FFinite s mH eH
             /\ eH <= eh /\ Z.pos mH = Z.pos mh * 2 ^ (eh - eH)).
  { apply round_fp_exact; [exact Hemaxf| |lia].
    unfold fexp. lia. }
  destruct HhiL as (mH & eH & HbH & HrH & HeH & HmH).
  pose proof (bounded_emin f mH eH HbH) as HeHm.
  assert (Zd : exists d, Z.pos m = Z.pos mh * 2 ^ (eh - e) + d
                         /\ Z.abs d <= 2 ^ 52 /\ (d <> 0 -> e < eh)
                         /\ (d = 0 -> exists E, E <= e /\ E <= eh
                                /\ Z.pos mh * 2 ^ (eh - E)
                                   = Z.pos m * 2 ^ (e - E))).
  { destruct Hval as [(Hle & Hm)|(Hlt & d & Hm & Hd)].
    - exists 0. split; [|split; [cbn; lia|split; [lia|]]].
      + assert (eh = e \/ eh < e) as [->|Hlt] by lia.
        * rewrite Z.sub_diag in *. cbn [Z.pow] in *. lia.
        * rewrite Z.pow_neg_r by lia. exfalso.
          destruct (digits2_bounds m) as [_ Hu].
          destruct (digits2_bounds mh) as [Hl _].
          (* mh has more digits than a double holds *)
          assert (Hdig : Z.log2 (Z.pos m * 2 ^ (e - eh)) + 1
                         = digits2 m + (e - eh))
            by (apply digits2_scaled; lia).
          rewrite <- Hm in Hdig. fold (digits2 mh) in Hdig.
          destruct (bounded_digits binary64 mh eh Hbh) as (Hc & _).
          destruct (bounded_digits f m e Hb) as (Hcf & _).
          unfold fexp in Hc, Hcf. cbn [prec binary64] in Hc.
          change (emin binary64) with (-1074) in Hc. lia.
      + intros _. exists eh. split; [lia|split; [lia|]].
        rewrite Z.sub_diag. cbn [Z.pow]. lia.
    - exists d. split; [exact Hm|]. split; [|split; [intros _; exact Hlt|]].
      + cbn [prec binary64] in Hd.
        assert (2 ^ (digits2 m - 53) <= 2 ^ 53)
          by (apply Z.pow_le_mono_r; lia).
        change (2 ^ 53) with (2 * 2 ^ 52) in *. lia.
      + intros ->. exists e. split; [lia|split; [lia|]].
        rewrite Z.sub_diag. cbn [Z.pow]. lia. }
  destruct Zd as (d & Hmd & Hdb & Hdlt & Hd0).
  rewrite HrH. cbn [fp_neg].
  destruct (Z.eq_dec d 0) as [Hz|Hnz].
  - (* the high double is the number itself *)
    destruct (Hd0 Hz) as (E & HE1 & HE2 & HEv).
    assert (Hsame : round_fp f s mh eh = FFinite s m e)
      by (apply (round_fp_same_value f s m mh e eh E); assumption).
    rewrite HrH in Hsame. injection Hsame as -> ->.
    rewrite fp_add_opposite. cbn [fp_convert].
    split; [exact Hbh|]. split; [reflexivity|].
    unfold ibm128_join. fold f. cbn [fp_convert]. rewrite HrH.
    reflexivity.
  - (* a low double is needed *)
    specialize (Hdlt Hnz).
    set (sd := xorb s (d <? 0)).
    set (nd := Z.to_pos (Z.abs d)).
    assert (Hnd : Z.pos nd = Z.abs d) by (unfold nd; apply Z2Pos.id; lia).
    assert (Hdd : digits2 nd <= 53).
    { destruct (Z.eq_dec (Z.pos nd) (2 ^ 52)) as [Heq|Hne].
      - unfold digits2. rewrite Heq, Z.log2_pow2 by lia. lia.
      - assert (digits2 nd <= 52) by (apply digits2_le; lia). lia. }
    pose proof (digits2_pos nd) as Hdp.
    (* the rest, as a long double and as a double *)
    destruct (round_fp_exact f sd nd e Hemaxf) as (mF & eF & HbF & HrF & HeF & HmF).
    { unfold fexp. lia. }
    { lia. }
    destruct (round_fp_exact binary64 sd nd e Hed) as (mD & eD & HbD & HrD & HeD & HmD).
    { unfold fexp. cbn [prec binary64]. change (emin binary64) with (-1074). lia. }
    { cbn [emax binary64]. lia. }
    pose proof (bounded_emin f mF eF HbF) as HeFm.
    pose proof (bounded_emin binary64 mD eD HbD) as HeDm.
    change (emin binary64) with (-1074) in HeDm.
    set (E := -1127).
    assert (XH : Z.pos mH * 2 ^ (eH - E) = Z.pos mh * 2 ^ (eh - E))
      by (apply scale_shift; [lia|lia|exact HmH]).
    assert (XF : Z.pos mF * 2 ^ (eF - E) = Z.pos nd * 2 ^ (e - E))
      by (apply scale_shift; [lia|lia|exact HmF]).
    assert (XD : Z.pos mD * 2 ^ (eD - E) = Z.pos nd * 2 ^ (e - E))
      by (apply scale_shift; [lia|lia|exact HmD]).
    assert (Xh : Z.pos mh * 2 ^ (eh - E)
                 = Z.pos mh * 2 ^ (eh - e) * 2 ^ (e - E)).
    { symmetry. apply scale_shift; [lia|lia|reflexivity]. }
    assert (Hsd : signed sd (Z.pos nd) = signed s d)
      by (rewrite Hnd; apply signed_abs).
    assert (Hdiff : fp_add f (FFinite s m e) (FFinite (negb s) mH eH)
                    = FFinite sd mF eF).
    { apply (fp_add_exact f s (negb s) sd m mH mF e eH eF E);
        try assumption; try lia.
      rewrite XH, XF, Xh.
      transitivity (signed sd (Z.pos nd) * 2 ^ (e - E));
        [|unfold signed; destruct sd; ring].
      rewrite Hsd, Hmd. unfold signed. destruct s; cbn [negb]; ring. }
    rewrite Hdiff. cbn [fp_convert].
    assert (Hlo : round_fp binary64 sd mF eF = FFinite sd mD eD).
    { apply (round_fp_same_value binary64 sd mD mF eD eF E);
        try assumption; lia. }
    rewrite Hlo.
    split; [exact Hbh|]. split; [exact HbD|].
    unfold ibm128_join. fold f. cbn [fp_convert]. rewrite HrH.
    assert (HloL : round_fp f sd mD eD = FFinite sd mF eF).
    { apply (round_fp_same_value f sd mF mD eF eD E);
        try assumption; lia. }
    rewrite HloL.
    apply (fp_add_exact f s sd s mH mF m eH eF e E); try assumption; try lia.
    rewrite XH, XF, Xh.
    transitivity (signed s (Z.pos mh * 2 ^ (eh - e)) * 2 ^ (e - E)
                  + signed sd (Z.pos nd) * 2 ^ (e - E));
      [unfold signed; destruct s, sd; ring|].
    rewrite Hsd, Hmd. unfold signed. destruct s; ring.
Qed.
End DoubleDouble.

Lemma ibm128_join_split (P : platform) (x : fp) :
  ibm128 P = true -> valid (ldbl P) x = true -> ibm128_exact P x = true ->
  valid binary64 (fst (ibm128_split P x)) = true
  /\ valid binary64 (snd (ibm128_split P x)) = true
  /\ ibm128_join P (fst (ibm128_split P x)) (snd (ibm128_split P x)) = x.
Proof.
  intros Hib Hv Hx. destruct (ibm128_format P Hib) as [Hpf Hef].
  destruct x as [s|s|s pl|s m e].
  - repeat split.
  - repeat split.
  - cbn [ibm128_exact] in Hx. apply andb_true_iff in Hx.
    destruct Hx as [Hq Hlow]. apply Z.eqb_eq in Hlow.
    cbn [valid] in Hv. apply Z.ltb_lt in Hv. rewrite Hpf in Hv.
    unfold is_quiet in Hq. rewrite Hpf in Hq.
    set (t := Z.pos pl / 2 ^ 53).
    assert (Hpl : Z.pos pl = t * 2 ^ 53).
    { unfold t. pose proof (Z.div_mod (Z.pos pl) (2 ^ 53) ltac:(lia)). lia. }
    assert (Ht : 0 < t < 2 ^ 52).
    { change (2 ^ (106 - 1)) with (2 ^ 52 * 2 ^ 53) in Hv. nia. }
    assert (Htq : is_quiet binary64 (Z.to_pos t) = true).
    { unfold is_quiet. rewrite Z2Pos.id by lia. unfold t.
      rewrite Z.div_pow2_bits by (cbn; lia). exact Hq. }
    assert (Hhi : fp_convert (ldbl P) binary64 (FNaN s pl)
                  = FNaN s (Z.to_pos t)).
    { cbn [fp_convert]. rewrite Hpf. cbn [prec binary64].
      change (0 <=? 53 - 106) with false. cbv iota.
      change (- (53 - 106)) with 53. fold t.
      rewrite <- (Z2Pos.id t) at 1 by lia.
      rewrite (quiet_payload_lor binary64 (Z.to_pos t)) by (cbn; lia || exact Htq).
      rewrite Pos2Z.id. reflexivity. }
    unfold ibm128_split. rewrite Hhi. cbn [fst snd].
    split; [cbn [valid]; rewrite Z2Pos.id by lia; apply Z.ltb_lt; cbn; lia|].
    split; [reflexivity|].
    unfold ibm128_join. cbn [fp_convert]. rewrite Hpf. cbn [prec binary64].
    change (0 <=? 106 - 53) with true. cbv iota.
    change (106 - 53) with 53. rewrite Z2Pos.id by lia. rewrite <- Hpl.
    rewrite (quiet_payload_lor (ldbl P) pl).
    + rewrite Pos2Z.id. reflexivity.
    + lia.
    + unfold is_quiet. rewrite Hpf. exact Hq.
  - cbn [ibm128_exact] in Hx. apply andb_true_iff in Hx.
    destruct Hx as [He Hfin]. apply Z.leb_le in He.
    cbn [fp_convert] in Hfin. cbn [valid] in Hv.
    apply ibm128_join_split_finite; assumption.
Qed.

(** The object of a pair of doubles: 16 value bytes, which read back as
    the value. *)
Lemma ibm128_value_image (P : platform) (x : fp) (more : list byte) :
  ibm128 P = true -> valid (ldbl P) x = true -> ibm128_exact P x = true ->
  List.length (value_image P x) = 16%nat
  /\ load_ldouble P (value_image P x ++ more) = x.
Proof.
  intros Hib Hv Hx.
  destruct (ibm128_join_split P x Hib Hv Hx) as (Hhi & Hlo & Hjoin).
  unfold value_image, load_ldouble. rewrite Hib.
  set (hi := fst (ibm128_split P x)) in *.
  set (lo := snd (ibm128_split P x)) in *.
  set (A := native_split P 8 (bits_of_fp binary64_layout hi)).
  set (B := native_split P 8 (bits_of_fp binary64_layout lo)).
  assert (HA : List.length A = 8%nat) by apply native_split_length.
  assert (HB : List.length B = 8%nat) by apply native_split_length.
  split; [rewrite length_app; lia|].
  assert (H1 : firstn 8 ((A ++ B) ++ more) = A).
  { rewrite <- app_assoc, firstn_app, HA, Nat.sub_diag, firstn_O, app_nil_r.
    apply firstn_all2. lia. }
  assert (H2 : firstn 8 (skipn 8 ((A ++ B) ++ more)) = B).
  { rewrite <- app_assoc, skipn_app, HA, Nat.sub_diag.
    rewrite skipn_all2 by lia. cbn [skipn app].
    rewrite firstn_app, HB, Nat.sub_diag, firstn_O, app_nil_r.
    apply firstn_all2. lia. }
  rewrite H1, H2. unfold A, B.
  assert (HL : wf_layout binary64_layout = true) by reflexivity.
  rewrite !native_combine_split.
  - rewrite !(fp_of_bits_of_fp binary64_layout HL) by assumption.
    exact Hjoin.
  - change (Z.of_nat 8 * 8) with (total_bits binary64_layout).
    apply bits_of_fp_range; assumption.
  - change (Z.of_nat 8 * 8) with (total_bits binary64_layout).
    apply bits_of_fp_range; assumption.
Qed.

(** The 16-byte branch on the pair of doubles. *)
Lemma data_roundtrip_ibm128
  (P : platform) (q : fp) (rt rt' : runtime) (rest : list byte) :
  ibm128 P = true -> valid (ldbl P) q = true -> ibm128_exact P q = true ->
  exists w,
    ldouble_serialize_data P q rt
    = (Return (Z.of_nat (List.length w)),
       with_extern_out rt (extern_out rt ++ w))
    /\ ldouble_deserialize_data P (with_intern_src rt' (w ++ rest))
       = (Return (q, Z.of_nat (List.length w)), with_intern_src rt' rest).
Proof.
  intros Hib Hv Hx.
  destruct (ibm128_value_image P q [] Hib Hv Hx) as (Hlen & Hload).
  rewrite app_nil_r in Hload.
  assert (Hst : exists pad, store_ldouble P rt q = value_image P q ++ pad)
    by (unfold store_ldouble; eexists; reflexivity).
  destruct Hst as [pad Hst].
  destruct (deserialize_block_serialize_block
              P 8 2 (value_image P q) pad rest rt rt' Hlen)
    as (w & Hw & Hser & Hde).
  exists w. unfold ldouble_serialize_data, ldouble_deserialize_data.
  rewrite (ibm128_value_bytes P Hib). cbn [Z.eqb Pos.eqb].
  unfold caml_serialize_block_8, caml_deserialize_block_8.
  split.
  { unfold bind at 1 2, get. rewrite Hst, Hser. unfold ret.
    rewrite Hw. reflexivity. }
  unfold bind. rewrite Hde. unfold ret. rewrite Hw, Hload. reflexivity.
Qed.

(** ** The branch through [double] *)

Lemma fp_cast_valid (src dst : format) (x : fp) :
  2 <= prec dst -> 2 <= emax dst -> valid src x = true ->
  valid dst (fp_cast src dst x) = true.
Proof.
  intros Hp He Hv. destruct x as [s|s|s pl|s m e].
  - rewrite fp_cast_zero. reflexivity.
  - unfold fp_cast. destruct (same_format src dst); reflexivity.
  - cbn [valid] in Hv. apply Z.ltb_lt in Hv.
    destruct (fp_cast_nan src dst s pl Hp Hv) as (pl' & -> & Hpl').
    cbn [valid]. apply Z.ltb_lt. exact Hpl'.
  - unfold fp_cast. destruct (same_format src dst) eqn:E.
    + apply same_format_eq in E. subst dst. exact Hv.
    + cbn [fp_convert]. apply round_fp_valid; lia.
Qed.

Lemma wf_layout_format (L : layout) :
  wf_layout L = true -> 2 <= prec (lfmt L) /\ 2 <= emax (lfmt L).
Proof.
  unfold wf_layout. intros H. apply andb_true_iff in H. destruct H as [H _].
  apply andb_true_iff in H. destruct H as [H1 H2].
  apply Z.leb_le in H1. apply Z.leb_le in H2. split; assumption.
Qed.

(** What the branch through [double] writes for [q] is read back as [q]
    converted to [double] and back, whether a [double] has 4 or 8
    bytes. *)
Lemma data_roundtrip_through_double
  (P : platform) (q : fp) (rt rt' : runtime) (rest : list byte) :
  raw_bytes_path P = false ->
  wf_layout (dbl_layout P) = true ->
  total_bits (dbl_layout P) = 8 * sizeof_double P ->
  sizeof_double P = 4 \/ sizeof_double P = 8 ->
  valid (ldbl P) q = true ->
  exists w,
    ldouble_serialize_data P q rt
    = (Return (Z.of_nat (List.length w)),
       with_extern_out rt (extern_out rt ++ w))
    /\ ldouble_deserialize_data P (with_intern_src rt' (w ++ rest))
       = (Return (fp_cast (dbl P) (ldbl P) (fp_cast (ldbl P) (dbl P) q),
                  Z.of_nat (List.length w)),
          with_intern_src rt' rest).
Proof.
  intros Hraw HLd Hbits Hsz Hv.
  unfold raw_bytes_path in Hraw. apply orb_false_iff in Hraw.
  destruct Hraw as [H16 H10].
  destruct (wf_layout_format _ HLd) as [Hp He].
  cbn [lfmt dbl_layout] in Hp, He.
  set (d := fp_cast (ldbl P) (dbl P) q).
  assert (Hvd : valid (lfmt (dbl_layout P)) d = true)
    by (cbn [lfmt dbl_layout]; apply fp_cast_valid; assumption).
  assert (Hst : List.length (store_double P d) = Z.to_nat (sizeof_double P))
    by (unfold store_double; apply native_split_length).
  assert (Hload : load_double P (store_double P d) = d).
  { unfold load_double, store_double.
    rewrite native_combine_split.
    - apply fp_of_bits_of_fp; assumption.
    - replace (Z.of_nat (Z.to_nat (sizeof_double P)) * 8)
        with (total_bits (dbl_layout P)) by (rewrite Hbits; lia).
      apply bits_of_fp_range; assumption. }
  unfold ldouble_serialize_data, ldouble_deserialize_data.
  rewrite H16, H10. fold d.
  destruct Hsz as [Hsz|Hsz]; rewrite Hsz in *; cbn [Z.eqb Pos.eqb].
  - assert (Hlen : List.length (store_double P d) = (4 * 1)%nat)
      by (rewrite Hst; reflexivity).
    destruct (deserialize_block_serialize_block
                P 4 1 (store_double P d) [] rest rt rt' Hlen)
      as (w & Hw & Hser & Hde).
    rewrite app_nil_r in Hser.
    exists w. unfold caml_serialize_float_4, caml_deserialize_float_4,
      caml_serialize_block_4, caml_deserialize_block_4.
    split.
    + unfold bind at 1 2, get. rewrite Hser. unfold ret. rewrite Hw.
      reflexivity.
    + unfold bind. rewrite Hde. unfold ret. rewrite Hload, Hw. reflexivity.
  - assert (Hlen : List.length (store_double P d) = 8%nat)
      by (rewrite Hst; reflexivity).
    exists (if ARCH_BIG_ENDIAN P then rev (store_double P d)
            else store_double P d).
    assert (Hw : List.length (if ARCH_BIG_ENDIAN P then rev (store_double P d)
                              else store_double P d) = 8%nat).
    { destruct (ARCH_BIG_ENDIAN P); [rewrite length_rev|]; exact Hlen. }
    split.
    + unfold bind, get, caml_serialize_float_8, extern_write, ret.
      rewrite Hw. reflexivity.
    + unfold bind, caml_deserialize_float_8, bind, ret.
      rewrite (intern_read_app 8 _ rest rt' Hw).
      replace (if ARCH_BIG_ENDIAN P
               then rev (if ARCH_BIG_ENDIAN P then rev (store_double P d)
                         else store_double P d)
               else if ARCH_BIG_ENDIAN P then rev (store_double P d)
                    else store_double P d)
        with (store_double P d)
        by (destruct (ARCH_BIG_ENDIAN P); [rewrite rev_involutive|];
            reflexivity).
      rewrite Hload, Hw. reflexivity.
Qed.

Lemma fp_cast_there_and_back (a b : format) (x : fp) :
  same_format a b = true -> fp_cast b a (fp_cast a b x) = x.
Proof.
  intros H. apply same_format_eq in H. subst b.
  unfold fp_cast. rewrite same_format_refl. reflexivity.
Qed.

(** ** The codec across the formats *)

Lemma wire_platform_nan (P : platform) (rt : runtime) :
  wire_platform P = true ->
  nan_ rt = pos_zero \/ nan_ rt = nanl_empty P ->
  constructible P (nan_ rt) = true
  /\ (ibm128 P = true -> ibm128_exact P (nan_ rt) = true).
Proof.
  intros HP Hn. unfold wire_platform in HP.
  apply andb_true_iff in HP. destruct HP as [HP Hpath].
  do 3 (apply andb_true_iff in HP; destruct HP as [HP ?]).
  unfold constructible.
  destruct Hn as [-> | ->].
  - split; [|reflexivity]. cbn [valid pos_zero is_nan ibm128_exact].
    rewrite !orb_true_r. reflexivity.
  - split.
    + rewrite H0, H. rewrite orb_true_r. reflexivity.
    + intros Hib. rewrite Hib in Hpath.
      apply andb_true_iff in Hpath. destruct Hpath as [Hx _]. exact Hx.
Qed.

Lemma wire_platform_tag (P : platform) :
  wire_platform P = true ->
  byte.unsigned (byte.of_Z (LDBL_MANT_DIG P)) = LDBL_MANT_DIG P.
Proof.
  intros HP. unfold wire_platform in HP.
  apply andb_true_iff in HP. destruct HP as [HP _].
  do 3 (apply andb_true_iff in HP; destruct HP as [HP ?]).
  rewrite byte.unsigned_of_Z. unfold byte.wrap.
  apply Z.mod_small. split; [apply Z.leb_le|apply Z.ltb_lt]; assumption.
Qed.

(** What [ldouble_serialize_data] writes for a value,
    [ldouble_deserialize_data] reads back as that value where the value
    bytes are moved, and as the value converted to [double] and back
    elsewhere. *)
Lemma data_roundtrip_any
  (P : platform) (q : fp) (rt rt' : runtime) (rest : list byte) :
  wire_platform P = true ->
  valid (ldbl P) q = true ->
  (ibm128 P = true -> ibm128_exact P q = true) ->
  exists w,
    ldouble_serialize_data P q rt
    = (Return (Z.of_nat (List.length w)),
       with_extern_out rt (extern_out rt ++ w))
    /\ ldouble_deserialize_data P (with_intern_src rt' (w ++ rest))
       = (Return (if raw_bytes_path P || same_format (ldbl P) (dbl P)
                  then q
                  else fp_cast (dbl P) (ldbl P) (fp_cast (ldbl P) (dbl P) q),
                  Z.of_nat (List.length w)),
          with_intern_src rt' rest).
Proof.
  intros HP Hv Hx. unfold wire_platform in HP.
  apply andb_true_iff in HP. destruct HP as [_ Hpath].
  destruct (ibm128 P) eqn:Hib.
  - unfold raw_bytes_path. rewrite (ibm128_value_bytes P Hib).
    cbn [Z.eqb Pos.eqb orb].
    apply data_roundtrip_ibm128; auto.
  - destruct (raw_bytes_path P) eqn:Hraw.
    + cbn [orb].
      do 3 (apply andb_true_iff in Hpath; destruct Hpath as [Hpath ?]).
      apply Z.eqb_eq in H1.
      unfold raw_bytes_path in Hraw. apply orb_true_iff in Hraw.
      destruct Hraw as [H16|H10].
      * apply Z.eqb_eq in H16. apply data_roundtrip_16; assumption.
      * apply Z.eqb_eq in H10. apply data_roundtrip_10; assumption.
    + cbn [orb].
      do 2 (apply andb_true_iff in Hpath; destruct Hpath as [Hpath ?]).
      apply Z.eqb_eq in H0.
      assert (Hsz : sizeof_double P = 4 \/ sizeof_double P = 8).
      { apply orb_true_iff in H. destruct H as [H|H]; apply Z.eqb_eq in H;
          [left|right]; exact H. }
      destruct (data_roundtrip_through_double
                  P q rt rt' rest Hraw Hpath H0 Hsz Hv) as (w & Hser & Hde).
      exists w. split; [exact Hser|].
      destruct (same_format (ldbl P) (dbl P)) eqn:Es; [|exact Hde].
      rewrite fp_cast_there_and_back in Hde by exact Es. exact Hde.
Qed.

Lemma norm_exact (P : platform) (rt : runtime) (x : fp) :
  constructible P x = true ->
  (ibm128 P = true -> ibm128_exact P (nan_ rt) = true) ->
  ibm128 P = true -> ibm128_exact P (norm P rt x) = true.
Proof.
  intros Hc Hn Hib. rewrite norm_cases. unfold constructible in Hc.
  apply andb_true_iff in Hc. destruct Hc as [_ Hc]. rewrite Hib in Hc.
  cbn [negb orb] in Hc.
  destruct x as [s|s|s pl|s m e]; try reflexivity; try exact Hc.
  apply Hn, Hib.
Qed.

Lemma wire_roundtrip_any
  (P : platform) (x : fp) (rt rt' : runtime) (rest : list byte) :
  wire_platform P = true ->
  nan_ rt = pos_zero \/ nan_ rt = nanl_empty P ->
  constructible P x = true ->
  exists wire,
    ldouble_serialize P (ctypes_copy_ldouble x) rt
    = (Return (1 + wire_size P, 1 + wire_size P),
       with_extern_out rt (extern_out rt ++ wire))
    /\ ldouble_deserialize P (with_intern_src rt' (wire ++ rest))
       = (Return (if raw_bytes_path P || same_format (ldbl P) (dbl P)
                  then norm P rt x
                  else fp_cast (dbl P) (ldbl P)
                               (fp_cast (ldbl P) (dbl P) (norm P rt x)),
                  1 + wire_size P),
          with_intern_src rt' rest).
Proof.
  intros HP Hn Hc.
  destruct (wire_platform_nan P rt HP Hn) as [Hnc Hnx].
  assert (Hv : valid (ldbl P) x = true).
  { unfold constructible in Hc. apply andb_true_iff in Hc. apply Hc. }
  assert (Hnv : valid (ldbl P) (nan_ rt) = true).
  { unfold constructible in Hnc. apply andb_true_iff in Hnc. apply Hnc. }
  pose proof (norm_valid P rt x Hv Hnv) as Hyv.
  pose proof (norm_exact P rt x Hc Hnx) as Hyx.
  set (tag := byte.of_Z (LDBL_MANT_DIG P)).
  set (rt1 := with_extern_out rt (extern_out rt ++ [tag])).
  destruct (data_roundtrip_any P (norm P rt x) rt1 rt' rest HP Hyv Hyx)
    as (w & Hser & Hde).
  destruct (ldouble_serialize_data_appends P (norm P rt x) rt1)
    as (w' & Hser' & _).
  assert (Hsize : Z.of_nat (List.length w) = wire_size P).
  { rewrite Hser in Hser'. apply (f_equal fst) in Hser'. cbn [fst] in Hser'.
    congruence. }
  rewrite Hsize in Hser, Hde.
  exists (tag :: w). split.
  - unfold ldouble_serialize, bind at 1 2, get, caml_serialize_int_1,
      extern_write.
    fold tag. fold rt1. cbn [ctypes_copy_ldouble ldouble_custom_val
                             Data_custom_val nth].
    unfold bind. rewrite Hser. unfold ret, rt1.
    rewrite with_extern_out_twice. reflexivity.
  - unfold ldouble_deserialize, bind at 1 2, caml_deserialize_uint_1, bind.
    change (tag :: w) with ([tag] ++ w). rewrite <- app_assoc.
    rewrite (intern_read_app 1 [tag] (w ++ rest) rt' eq_refl).
    unfold ret at 1. rewrite le_combine_1. unfold tag at 1.
    rewrite (wire_platform_tag P HP), Z.eqb_refl. cbn [negb].
    unfold ret at 1. unfold bind. rewrite Hde. unfold ret.
    reflexivity.
Qed.




(** ** Complex hooks *)

(** The complex serialiser never reads the imaginary cell. *)
Lemma ldouble_complex_serialize_ignores_imag
  (P : platform) (re im im' : fp) :
  ldouble_complex_serialize P (ctypes_copy_ldouble_complex (re, im))
  = ldouble_complex_serialize P (ctypes_copy_ldouble_complex (re, im')).
Proof. reflexivity. Qed.

(** C5 (code bug).  On x86-64, for [z = -0 + 2i] the complex serialiser
    writes the tag, the ten bytes of -0 (sign bit set, not normalised) and
    the ten bytes of +0 (the imaginary part 2 is never read).  These are
    neither the bytes of the format the specification gives (tag, normalised
    real part +0, normalised imaginary part 2) nor the bytes the same
    serialiser writes for the normalised value [+0 + 2i]. *)
Theorem ldouble_complex_serialize_not_normalised :
  let P := linux_x86_64 in
  let rt := initialised P in
  let two := fp_of_Z x87_extended 2 in
  let z := ctypes_copy_ldouble_complex (neg_zero, two) in
  let z_norm := ctypes_copy_ldouble_complex (norm P rt neg_zero, norm P rt two) in
  let o := Byte.x00 in
  wire_of (ldouble_complex_serialize P z) rt
  = [Byte.x40; o; o; o; o; o; o; o; o; Byte.x80; o;
     o; o; o; o; o; o; o; o; o; o]
  /\ wire_of (spec_complex_serialize P z) rt
     = [Byte.x40; o; o; o; o; o; o; o; o; o; o;
        Byte.x80; o; o; o; o; o; o; o; Byte.x40; o]
  /\ wire_of (ldouble_complex_serialize P z) rt
     <> wire_of (ldouble_complex_serialize P z_norm) rt.
Proof.
  split; [vm_compute; reflexivity|].
  split; [vm_compute; reflexivity|].
  vm_compute. discriminate.
Qed.

(** C2 (code bug).  On x86-64 the complex values [1 + 2i] and [1 + 3i]
    compare EQUAL under the complex comparison hook, and their hashes
    differ. *)
Theorem complex_equal_but_hash_differs :
  let P := linux_x86_64 in
  let rt := initialised P in
  let z1 := ctypes_copy_ldouble_complex
              (fp_of_Z x87_extended 1, fp_of_Z x87_extended 2) in
  let z2 := ctypes_copy_ldouble_complex
              (fp_of_Z x87_extended 1, fp_of_Z x87_extended 3) in
  fst (ldouble_complex_cmp_val z1 z2 rt) = Return EQUAL
  /\ ldouble_complex_hash P rt z1 = 4253136143
  /\ ldouble_complex_hash P rt z2 = 3533963663.
Proof. repeat split; vm_compute; reflexivity. Qed.

(** * Further properties of the stubs *)

(** ** The comparison hook is a total preorder *)

Lemma fp_compare_none (a b : fp) :
  fp_compare a b = None <-> is_nan a || is_nan b = true.
Proof.
  destruct a as [sa|sa|sa pa|sa ma ea]; destruct b as [sb|sb|sb pb|sb mb eb];
    cbn; split; intros H; try reflexivity; try discriminate;
    try (destruct sa; discriminate); try (destruct sb; discriminate);
    try (destruct sa, sb; discriminate).
Qed.

(** What [ldouble_cmp] returns, read off [fp_compare]. *)
Lemma ldouble_cmp_ordered (a b : fp) (c : comparison) (rt : runtime) :
  fp_compare a b = Some c ->
  ldouble_cmp a b rt = (Return (Z_of_comparison c), rt).
Proof.
  intros H. unfold ldouble_cmp, fp_lt, fp_gt, fp_ne, fp_eq.
  rewrite H. destruct c; reflexivity.
Qed.

Lemma ldouble_cmp_unordered (a b : fp) (rt : runtime) :
  fp_compare a b = None ->
  ldouble_cmp a b rt
  = (Return (if is_nan a then (if is_nan b then 0 else -1) else 1),
     raise_unordered rt).
Proof.
  intros H. unfold ldouble_cmp, fp_lt, fp_gt, fp_ne.
  unfold fp_eq at 1. rewrite H; cbn [negb].
  unfold bind, set_caml_compare_unordered, ret.
  rewrite !fp_compare_refl_nan.
  apply fp_compare_none in H.
  destruct (is_nan a), (is_nan b); try discriminate; reflexivity.
Qed.

(** X1.  The comparison sets [caml_compare_unordered] exactly when one of
    its operands is a NaN; it never clears the flag and touches nothing
    else of the runtime state. *)
Theorem ldouble_cmp_signal (a b : fp) (rt : runtime) :
  snd (ldouble_cmp a b rt)
  = if is_nan a || is_nan b then raise_unordered rt else rt.
Proof.
  destruct (fp_compare a b) as [c|] eqn:E.
  - rewrite (ldouble_cmp_ordered a b c rt E). cbn [snd].
    destruct (is_nan a || is_nan b) eqn:N; [|reflexivity].
    apply fp_compare_none in N. congruence.
  - rewrite (ldouble_cmp_unordered a b rt E). cbn [snd].
    apply fp_compare_none in E. rewrite E. reflexivity.
Qed.

Lemma cmp_magnitude_antisym (m1 m2 : positive) (e1 e2 : Z) :
  cmp_magnitude m2 e2 m1 e1 = CompOpp (cmp_magnitude m1 e1 m2 e2).
Proof.
  unfold cmp_magnitude. rewrite (Z.min_comm e2 e1). apply Z.compare_antisym.
Qed.

Lemma fp_compare_antisym (a b : fp) :
  fp_compare b a = option_map CompOpp (fp_compare a b).
Proof.
  destruct a as [sa|sa|sa pa|sa ma ea]; destruct b as [sb|sb|sb pb|sb mb eb];
    cbn [fp_compare option_map]; try reflexivity;
    try (destruct sa; reflexivity); try (destruct sb; reflexivity);
    try (destruct sa, sb; reflexivity).
  rewrite (cmp_magnitude_antisym ma mb ea eb).
  destruct sa, sb; cbn; try reflexivity.
Qed.

(** X2.  Swapping the operands negates the result: the hook always
    returns one of -1, 0, 1, and [compare b a = - compare a b], NaN
    operands included. *)
Theorem ldouble_cmp_antisymmetric (a b : fp) (rt rt' : runtime) :
  exists r,
    fst (ldouble_cmp a b rt) = Return r
    /\ fst (ldouble_cmp b a rt') = Return (- r)
    /\ (r = LESS \/ r = EQUAL \/ r = GREATER).
Proof.
  pose proof (fp_compare_antisym a b) as Hs.
  destruct (fp_compare a b) as [c|] eqn:E; cbn [option_map] in Hs.
  - exists (Z_of_comparison c).
    rewrite (ldouble_cmp_ordered a b c rt E).
    rewrite (ldouble_cmp_ordered b a _ rt' Hs).
    destruct c; cbn; unfold LESS, EQUAL, GREATER; auto.
  - rewrite (ldouble_cmp_unordered a b rt E).
    rewrite (ldouble_cmp_unordered b a rt' Hs). cbn [fst].
    apply fp_compare_none in E.
    destruct (is_nan a), (is_nan b); try discriminate;
      eexists; unfold LESS, EQUAL, GREATER; repeat split; auto.
Qed.

Lemma cmp_magnitude_scaled (m1 m2 : positive) (e1 e2 e0 : Z) :
  e0 <= e1 -> e0 <= e2 ->
  cmp_magnitude m1 e1 m2 e2
  = (Z.pos m1 * 2 ^ (e1 - e0) ?= Z.pos m2 * 2 ^ (e2 - e0)).
Proof.
  intros H1 H2. unfold cmp_magnitude.
  set (e := Z.min e1 e2).
  assert (He : e0 <= e /\ e <= e1 /\ e <= e2) by (unfold e; lia).
  replace (e1 - e0) with ((e1 - e) + (e - e0)) by lia.
  replace (e2 - e0) with ((e2 - e) + (e - e0)) by lia.
  rewrite !Z.pow_add_r, !Z.mul_assoc by lia.
  apply Zmult_compare_compat_r, Z.lt_gt.
  apply Z.pow_pos_nonneg; lia.
Qed.

Lemma scaled_mantissa_pos (m : positive) (k : Z) :
  0 <= k -> 0 < Z.pos m * 2 ^ k.
Proof.
  intros Hk. apply Z.mul_pos_pos; [lia|]. apply Z.pow_pos_nonneg; lia.
Qed.

(** The hook compares the keys of its operands lexicographically. *)
Lemma ldouble_cmp_order_key (e0 : Z) (a b : fp) (rt : runtime) :
  exponent_ge e0 a -> exponent_ge e0 b ->
  fst (ldouble_cmp a b rt)
  = Return (Z_of_comparison (lex_compare (order_key e0 a) (order_key e0 b))).
Proof.
  intros Ha Hb.
  destruct (fp_compare a b) as [c|] eqn:E.
  - rewrite (ldouble_cmp_ordered a b c rt E). cbn [fst]. do 2 f_equal.
    destruct a as [sa|sa|sa pa|sa ma ea]; destruct b as [sb|sb|sb pb|sb mb eb];
      cbn [fp_compare] in E; try discriminate;
      cbn [exponent_ge] in Ha, Hb;
      injection E as <-; unfold lex_compare, order_key, signed.
    + reflexivity.
    + destruct sb; reflexivity.
    + pose proof (scaled_mantissa_pos mb (eb - e0) ltac:(lia)) as Hp.
      cbn [fst snd]. rewrite Z.compare_refl.
      destruct sb; symmetry;
        [apply Z.compare_gt_iff|apply Z.compare_lt_iff]; lia.
    + destruct sa; reflexivity.
    + destruct sa, sb; reflexivity.
    + destruct sa; reflexivity.
    + pose proof (scaled_mantissa_pos ma (ea - e0) ltac:(lia)) as Hp.
      cbn [fst snd]. rewrite Z.compare_refl.
      destruct sa; symmetry;
        [apply Z.compare_lt_iff|apply Z.compare_gt_iff]; lia.
    + destruct sb; reflexivity.
    + pose proof (scaled_mantissa_pos ma (ea - e0) ltac:(lia)) as Hpa.
      pose proof (scaled_mantissa_pos mb (eb - e0) ltac:(lia)) as Hpb.
      rewrite (cmp_magnitude_scaled ma mb ea eb e0) by assumption.
      cbn [fst snd]. rewrite Z.compare_refl.
      destruct sa, sb.
      * rewrite Z.compare_opp. symmetry. apply Z.compare_antisym.
      * symmetry. apply Z.compare_lt_iff. lia.
      * symmetry. apply Z.compare_gt_iff. lia.
      * reflexivity.
  - rewrite (ldouble_cmp_unordered a b rt E). cbn [fst]. f_equal.
    apply fp_compare_none in E.
    destruct a as [sa|[|]|sa pa|sa ma ea]; destruct b as [sb|[|]|sb pb|sb mb eb];
      try discriminate; reflexivity.
Qed.

Lemma lex_compare_le (k1 k2 : Z * Z) :
  Z_of_comparison (lex_compare k1 k2) <= 0
  <-> fst k1 < fst k2 \/ (fst k1 = fst k2 /\ snd k1 <= snd k2).
Proof.
  unfold lex_compare.
  destruct (Z.compare_spec (fst k1) (fst k2)) as [H|H|H].
  - destruct (Z.compare_spec (snd k1) (snd k2)); cbn; split; intros; lia.
  - cbn. split; intros; lia.
  - cbn. split; intros; lia.
Qed.

Lemma exponent_ge_le (e0 : Z) (x : fp) :
  e0 <= exponent_or_zero x -> exponent_ge e0 x.
Proof. destruct x; cbn; auto. Qed.

Lemma ldouble_le_key (e0 : Z) (a b : fp) :
  exponent_ge e0 a -> exponent_ge e0 b ->
  ldouble_le a b
  <-> Z_of_comparison (lex_compare (order_key e0 a) (order_key e0 b)) <= 0.
Proof.
  intros Ha Hb. unfold ldouble_le. split.
  - intros H. destruct (H initial_runtime) as (r & Hr & Hle).
    rewrite (ldouble_cmp_order_key e0 a b _ Ha Hb) in Hr.
    injection Hr as <-. exact Hle.
  - intros H rt. eexists. split; [apply (ldouble_cmp_order_key e0); assumption|].
    exact H.
Qed.

(** X3.  The order of the hook is transitive: if it answers LESS or EQUAL
    for [a], [b] and for [b], [c], it does so for [a], [c], NaN and
    infinite operands included. *)
Theorem ldouble_le_transitive (a b c : fp) :
  ldouble_le a b -> ldouble_le b c -> ldouble_le a c.
Proof.
  set (e0 := Z.min (exponent_or_zero a)
                   (Z.min (exponent_or_zero b) (exponent_or_zero c))).
  assert (Ha : exponent_ge e0 a) by (apply exponent_ge_le; unfold e0; lia).
  assert (Hb : exponent_ge e0 b) by (apply exponent_ge_le; unfold e0; lia).
  assert (Hc : exponent_ge e0 c) by (apply exponent_ge_le; unfold e0; lia).
  rewrite (ldouble_le_key e0 a b Ha Hb), (ldouble_le_key e0 b c Hb Hc),
    (ldouble_le_key e0 a c Ha Hc).
  rewrite !lex_compare_le. lia.
Qed.

Lemma ldouble_le_transitive_witness :
  ldouble_le (FNaN true 7) (fp_of_Z x87_extended 5).
Proof.
  apply (ldouble_le_transitive (FNaN true 7) (FInf true)
                               (fp_of_Z x87_extended 5)).
  - intros rt. exists (-1). split; [reflexivity|lia].
  - intros rt. exists (-1). split; [reflexivity|lia].
Defined.

(** X4.  The order of the hook is reflexive, also on NaN, and total. *)
Theorem ldouble_le_reflexive_total (a b : fp) :
  ldouble_le a a /\ (ldouble_le a b \/ ldouble_le b a).
Proof.
  set (e0 := Z.min (exponent_or_zero a) (exponent_or_zero b)).
  assert (Ha : exponent_ge e0 a) by (apply exponent_ge_le; unfold e0; lia).
  assert (Hb : exponent_ge e0 b) by (apply exponent_ge_le; unfold e0; lia).
  rewrite (ldouble_le_key e0 a a Ha Ha), (ldouble_le_key e0 a b Ha Hb),
    (ldouble_le_key e0 b a Hb Ha).
  rewrite !lex_compare_le. lia.
Qed.

(** X5.  The complex comparison hook is the scalar comparison of the two
    real parts, result and unordered signal alike: the imaginary cells
    are never read. *)
Theorem ldouble_complex_cmp_val_is_real_cmp (v1 v2 : value) (rt : runtime) :
  ldouble_complex_cmp_val v1 v2 rt
  = ldouble_cmp (ldouble_custom_val v1) (ldouble_custom_val v2) rt.
Proof.
  unfold ldouble_complex_cmp_val, bind.
  cbn [creall cimagl complex_of_real fst snd].
  destruct (ldouble_cmp (ldouble_custom_val v1) (ldouble_custom_val v2) rt)
    as [[r|e] rt'] eqn:E; [|reflexivity].
  destruct (r =? 0) eqn:Hr; [|reflexivity].
  apply Z.eqb_eq in Hr. subst r. reflexivity.
Qed.

(** ** Normal forms and the order *)

Lemma fp_compare_refl (x : fp) :
  is_nan x = false -> fp_compare x x = Some Eq.
Proof.
  intros H. pose proof (fp_compare_refl_nan x) as R. rewrite H in R.
  unfold fp_eq in R. destruct (fp_compare x x) as [[| |]|]; try discriminate.
  reflexivity.
Qed.

(** The result of the comparison does not depend on the runtime state. *)
Lemma ldouble_cmp_result_stateless (a b : fp) (rt rt' : runtime) :
  fst (ldouble_cmp a b rt) = fst (ldouble_cmp a b rt').
Proof.
  destruct (fp_compare a b) as [c|] eqn:E.
  - rewrite !(ldouble_cmp_ordered a b c _ E). reflexivity.
  - rewrite !(ldouble_cmp_unordered a b _ E). reflexivity.
Qed.



(** ** Hash hooks *)

Lemma firstn_skipn_app (n k : nat) (a b : list byte) :
  (k + n <= List.length a)%nat ->
  firstn n (skipn k (a ++ b)) = firstn n (skipn k a).
Proof.
  intros H. rewrite skipn_app, firstn_app.
  replace (k - List.length a)%nat with 0%nat by lia.
  rewrite length_skipn.
  replace (n - (List.length a - k))%nat with 0%nat by lia.
  cbn [skipn firstn]. apply app_nil_r.
Qed.

Lemma union_word_inside (P : platform) (a b : list byte) (i : nat) :
  (4 * i + 4 <= List.length a)%nat ->
  union_word P (a ++ b) i = union_word P a i.
Proof.
  intros H. unfold union_word. rewrite firstn_skipn_app by lia. reflexivity.
Qed.

(** The mask [& 0xFFFF] removes the two padding bytes of the third word
    of a little-endian 10-byte value. *)
Lemma union_word_masked (P : platform) (a b : list byte) :
  ARCH_BIG_ENDIAN P = false -> List.length a = 10%nat ->
  Z.land (union_word P (a ++ b) 2) 0xFFFF = le_combine (skipn 8 a).
Proof.
  intros HB Ha. unfold union_word, native_combine. rewrite HB.
  change (4 * 2)%nat with 8%nat.
  assert (Hs : skipn 8 (a ++ b) = skipn 8 a ++ b).
  { rewrite skipn_app. replace (8 - List.length a)%nat with 0%nat by lia.
    reflexivity. }
  assert (Hl : List.length (skipn 8 a) = 2%nat)
    by (rewrite length_skipn; lia).
  assert (Hf : firstn 2 (firstn 4 (skipn 8 a ++ b)) = skipn 8 a).
  { rewrite firstn_firstn. change (Nat.min 2 4) with 2%nat.
    rewrite firstn_app, Hl, Nat.sub_diag, firstn_O, app_nil_r.
    apply firstn_all2. lia. }
  rewrite Hs.
  change 0xFFFF with (Z.ones (8 * Z.of_nat 2)).
  rewrite Z.land_ones by lia.
  rewrite <- le_combine_firstn, Hf. reflexivity.
Qed.

(** Under [hash_layout_ok] the hashed words lie inside the value
    bytes, so two runtime states that agree on [nan_] give the same
    hash. *)
Lemma ldouble_mix_hash_padding
  (P : platform) (rt rt' : runtime) (hash : Z) (d : fp) :
  hash_layout_ok P = true ->
  nan_ rt = nan_ rt' ->
  ldouble_mix_hash P rt hash d = ldouble_mix_hash P rt' hash d.
Proof.
  intros HP Hn.
  pose proof (hash_layout_ok_single_field P HP) as Hib.
  unfold ldouble_mix_hash, hash_layout_ok in *.
  assert (Hnorm : norm P rt d = norm P rt' d)
    by (unfold norm; rewrite Hn; reflexivity).
  rewrite Hnorm. set (q := norm P rt' d).
  destruct (store_ldouble_value_bytes P Hib rt q) as [pad Hst].
  destruct (store_ldouble_value_bytes P Hib rt' q) as [pad' Hst'].
  rewrite Hst, Hst'.
  set (vb := native_split P (value_bytes (ldbl_layout P))
                          (bits_of_fp (ldbl_layout P) q)).
  destruct (LDOUBLE_VALUE_BYTES P =? 16).
  - apply Z.eqb_eq in HP.
    assert (Hlen : List.length vb = 16%nat).
    { unfold vb. rewrite native_split_length. unfold value_bytes.
      rewrite HP. reflexivity. }
    rewrite !(union_word_inside P vb pad) by (rewrite Hlen; cbn; lia).
    rewrite !(union_word_inside P vb pad') by (rewrite Hlen; cbn; lia).
    reflexivity.
  - destruct (LDOUBLE_VALUE_BYTES P =? 10); [|reflexivity].
    apply andb_true_iff in HP. destruct HP as [HP HB].
    apply Z.eqb_eq in HP. apply negb_true_iff in HB.
    assert (Hlen : List.length vb = 10%nat).
    { unfold vb. rewrite native_split_length. unfold value_bytes.
      rewrite HP. reflexivity. }
    rewrite !(union_word_inside P vb pad) by (rewrite Hlen; cbn; lia).
    rewrite !(union_word_inside P vb pad') by (rewrite Hlen; cbn; lia).
    rewrite !(union_word_masked P vb) by assumption.
    reflexivity.
Qed.

(** X7.  The scalar hook pair keeps the hash invariant.  On a platform
    whose hashed words lie inside the value bytes (which leaves out the
    pair of doubles and a big-endian 10-byte format), and where the
    value bytes are hashed or [double] is binary64: two boxed values of
    the format for which the comparison hook answers EQUAL have the same
    hash, whatever the padding of the two temporaries holds. *)
Theorem ldouble_hash_respects_cmp
  (P : platform) (rt1 rt2 rt' : runtime) (v1 v2 : value) :
  hash_layout_ok P = true ->
  raw_bytes_path P = true \/ dbl P = binary64 ->
  nan_ rt1 = nan_ rt2 ->
  valid (ldbl P) (ldouble_custom_val v1) = true ->
  valid (ldbl P) (ldouble_custom_val v2) = true ->
  fst (ldouble_cmp_val v1 v2 rt') = Return EQUAL ->
  ldouble_hash P rt1 v1 = ldouble_hash P rt2 v2.
Proof.
  intros HL HP Hn H1 H2 Hc. unfold ldouble_hash. unfold ldouble_cmp_val in Hc.
  rewrite (ldouble_cmp_result_stateless _ _ rt' rt1) in Hc.
  rewrite <- (ldouble_mix_hash_padding P rt1 rt2 0 _ HL Hn).
  apply equal_scalars_hash_alike; assumption.
Qed.

Lemma ldouble_hash_respects_cmp_witness :
  let P := linux_i386 in
  let rt1 := initialised P in
  let rt2 := {| nan_ := nan_ rt1; caml_compare_unordered := false;
                extern_out := []; intern_src := [];
                junk := [Byte.xff; Byte.xfe] |} in
  ldouble_hash P rt1 (ctypes_copy_ldouble (FNaN true 5))
  = ldouble_hash P rt2 (ctypes_copy_ldouble (FNaN false 9)).
Proof.
  exact (ldouble_hash_respects_cmp
           linux_i386 (initialised linux_i386)
           {| nan_ := nan_ (initialised linux_i386);
              caml_compare_unordered := false;
              extern_out := []; intern_src := [];
              junk := [Byte.xff; Byte.xfe] |}
           initial_runtime
           (ctypes_copy_ldouble (FNaN true 5))
           (ctypes_copy_ldouble (FNaN false 9))
           eq_refl (or_introl eq_refl) eq_refl eq_refl eq_refl eq_refl).
Defined.

(** X8.  On the same platforms the complex hash depends on the two
    components only up to the scalar order: complex values whose real
    parts and whose imaginary parts compare EQUAL have the same hash,
    whatever the padding holds. *)
Theorem ldouble_complex_hash_componentwise
  (P : platform) (rt1 rt2 rt' : runtime) (z1 z2 : complex) :
  hash_layout_ok P = true ->
  raw_bytes_path P = true \/ dbl P = binary64 ->
  nan_ rt1 = nan_ rt2 ->
  valid (ldbl P) (creall z1) = true -> valid (ldbl P) (creall z2) = true ->
  valid (ldbl P) (cimagl z1) = true -> valid (ldbl P) (cimagl z2) = true ->
  fst (ldouble_cmp (creall z1) (creall z2) rt') = Return EQUAL ->
  fst (ldouble_cmp (cimagl z1) (cimagl z2) rt') = Return EQUAL ->
  ldouble_complex_hash P rt1 (ctypes_copy_ldouble_complex z1)
  = ldouble_complex_hash P rt2 (ctypes_copy_ldouble_complex z2).
Proof.
  intros HL HP Hn Hr1 Hr2 Hi1 Hi2 Hcr Hci. unfold ldouble_complex_hash.
  cbn [ldouble_complex_custom_val ctypes_copy_ldouble_complex Data_custom_val
       nth creall cimagl fst snd].
  rewrite (ldouble_cmp_result_stateless _ _ rt' rt1) in Hcr.
  rewrite (ldouble_cmp_result_stateless _ _ rt' rt1) in Hci.
  unfold creall, cimagl in *.
  rewrite <- (ldouble_mix_hash_padding P rt1 rt2 0 _ HL Hn).
  rewrite <- (ldouble_mix_hash_padding P rt1 rt2 _ (snd z2) HL Hn).
  rewrite (equal_scalars_hash_alike P rt1 0 (fst z1) (fst z2) HP Hr1 Hr2 Hcr).
  apply equal_scalars_hash_alike; assumption.
Qed.

Lemma ldouble_complex_hash_componentwise_witness :
  let P := linux_x86_64 in
  let rt1 := initialised P in
  let rt2 := {| nan_ := nan_ rt1; caml_compare_unordered := false;
                extern_out := []; intern_src := [];
                junk := [Byte.xff; Byte.xfe; Byte.xfd] |} in
  ldouble_complex_hash P rt1
    (ctypes_copy_ldouble_complex (neg_zero, FNaN true 5))
  = ldouble_complex_hash P rt2
      (ctypes_copy_ldouble_complex (pos_zero, FNaN false 9)).
Proof.
  exact (ldouble_complex_hash_componentwise
           linux_x86_64 (initialised linux_x86_64)
           {| nan_ := nan_ (initialised linux_x86_64);
              caml_compare_unordered := false;
              extern_out := []; intern_src := [];
              junk := [Byte.xff; Byte.xfe; Byte.xfd] |}
           initial_runtime
           (neg_zero, FNaN true 5) (pos_zero, FNaN false 9)
           eq_refl (or_introl eq_refl) eq_refl
           eq_refl eq_refl eq_refl eq_refl eq_refl eq_refl).
Defined.

(** X9.  Padding is never hashed: on a platform whose hashed words lie
    inside the value bytes, the hash of a value does not depend on the
    indeterminate bytes that fill the rest of the object. *)
Theorem ldouble_mix_hash_ignores_padding
  (P : platform) (rt rt' : runtime) (hash : Z) (d : fp) :
  hash_layout_ok P = true ->
  nan_ rt = nan_ rt' ->
  ldouble_mix_hash P rt hash d = ldouble_mix_hash P rt' hash d.
Proof.
  intros HP Hn. apply ldouble_mix_hash_padding; assumption.
Qed.

Lemma ldouble_mix_hash_ignores_padding_witness :
  let P := linux_i386 in
  let rt := initialised P in
  let rt' := {| nan_ := nan_ rt; caml_compare_unordered := true;
                extern_out := []; intern_src := [];
                junk := [Byte.xde; Byte.xad; Byte.xbe; Byte.xef] |} in
  ldouble_mix_hash P rt 0 (fp_of_Z x87_extended 3)
  = ldouble_mix_hash P rt' 0 (fp_of_Z x87_extended 3).
Proof.
  exact (ldouble_mix_hash_ignores_padding
           linux_i386 (initialised linux_i386)
           {| nan_ := nan_ (initialised linux_i386);
              caml_compare_unordered := true;
              extern_out := []; intern_src := [];
              junk := [Byte.xde; Byte.xad; Byte.xbe; Byte.xef] |}
           0 (fp_of_Z x87_extended 3) eq_refl eq_refl).
Defined.

(** ** Wire codec *)

(** X10.  The wire form is canonical where [long double] is a single
    bit field (any [LDBL_MANT_DIG] but the 106 of the pair of doubles):
    two values of the format for which the comparison hook answers EQUAL
    (NaNs of any payload, zeros of either sign, or the same number) are
    serialised to the same bytes with the same declared sizes. *)
Theorem ldouble_serialize_canonical
  (P : platform) (rt : runtime) (a b : fp) :
  (LDBL_MANT_DIG P =? 106) = false ->
  valid (ldbl P) a = true -> valid (ldbl P) b = true ->
  fst (ldouble_cmp a b rt) = Return EQUAL ->
  ldouble_serialize P (ctypes_copy_ldouble a) rt
  = ldouble_serialize P (ctypes_copy_ldouble b) rt.
Proof.
  intros _ Ha Hb Hc. unfold ldouble_serialize, bind, get.
  cbn [ctypes_copy_ldouble ldouble_custom_val Data_custom_val nth].
  rewrite (norm_of_equal P rt a b Ha Hb Hc). reflexivity.
Qed.

Lemma ldouble_serialize_canonical_witness :
  let P := linux_x86_64 in
  let rt := initialised P in
  ldouble_serialize P (ctypes_copy_ldouble neg_zero) rt
  = ldouble_serialize P (ctypes_copy_ldouble pos_zero) rt.
Proof.
  exact (ldouble_serialize_canonical
           linux_x86_64 (initialised linux_x86_64) neg_zero pos_zero
           eq_refl eq_refl eq_refl eq_refl).
Defined.

(** X11.  Size accounting of the scalar serialiser: it declares
    [1 + wire_size] for both size classes, only appends to the output
    buffer, and, where the storage is adequate, appends exactly the
    declared number of bytes, the first being the tag. *)
Theorem ldouble_serialize_size (P : platform) (v : value) (rt : runtime) :
  storage_ok P = true ->
  exists w,
    ldouble_serialize P v rt
    = (Return (1 + wire_size P, 1 + wire_size P),
       with_extern_out rt
         (extern_out rt ++ byte.of_Z (LDBL_MANT_DIG P) :: w))
    /\ Z.of_nat (List.length (byte.of_Z (LDBL_MANT_DIG P) :: w))
       = 1 + wire_size P.
Proof.
  intros Hs. unfold ldouble_serialize, bind at 1 2, get,
    caml_serialize_int_1, extern_write.
  set (rt1 := with_extern_out rt (extern_out rt ++ [byte.of_Z (LDBL_MANT_DIG P)])).
  destruct (ldouble_serialize_data_appends
              P (norm P rt (ldouble_custom_val v)) rt1) as (w & Hw & Hl).
  exists w. unfold bind. rewrite Hw. unfold ret, rt1.
  rewrite with_extern_out_twice. split; [reflexivity|].
  cbn [List.length]. rewrite Nat2Z.inj_succ, (Hl Hs). lia.
Qed.

Lemma ldouble_serialize_size_witness :
  let P := linux_i386 in
  let v := ctypes_copy_ldouble (FInf true) in
  let rt := initialised P in
  exists w,
    ldouble_serialize P v rt
    = (Return (1 + wire_size P, 1 + wire_size P),
       with_extern_out rt
         (extern_out rt ++ byte.of_Z (LDBL_MANT_DIG P) :: w))
    /\ Z.of_nat (List.length (byte.of_Z (LDBL_MANT_DIG P) :: w))
       = 1 + wire_size P.
Proof.
  exact (ldouble_serialize_size linux_i386 (ctypes_copy_ldouble (FInf true))
                                (initialised linux_i386) eq_refl).
Defined.

(** X12.  Size accounting of the complex serialiser: it declares and,
    where the storage is adequate, appends [1 + 2 * wire_size] bytes:
    the tag once, then two value blocks. *)
Theorem ldouble_complex_serialize_size
  (P : platform) (v : value) (rt : runtime) :
  storage_ok P = true ->
  exists w,
    ldouble_complex_serialize P v rt
    = (Return (1 + 2 * wire_size P, 1 + 2 * wire_size P),
       with_extern_out rt
         (extern_out rt ++ byte.of_Z (LDBL_MANT_DIG P) :: w))
    /\ Z.of_nat (List.length (byte.of_Z (LDBL_MANT_DIG P) :: w))
       = 1 + 2 * wire_size P.
Proof.
  intros Hs. unfold ldouble_complex_serialize, bind at 1,
    caml_serialize_int_1, extern_write.
  set (rt1 := with_extern_out rt (extern_out rt ++ [byte.of_Z (LDBL_MANT_DIG P)])).
  cbn [creall cimagl complex_of_real fst snd].
  destruct (ldouble_serialize_data_appends
              P (nth 0 (Data_custom_val v) pos_zero) rt1) as (w1 & Hw1 & Hl1).
  destruct (ldouble_serialize_data_appends
              P pos_zero (with_extern_out rt1 (extern_out rt1 ++ w1)))
    as (w2 & Hw2 & Hl2).
  exists (w1 ++ w2). unfold bind. rewrite Hw1, Hw2. unfold ret.
  rewrite with_extern_out_twice. unfold rt1.
  rewrite with_extern_out_twice.
  replace (wire_size P + wire_size P) with (2 * wire_size P) by lia.
  split; [reflexivity|].
  cbn [List.length]. rewrite Nat2Z.inj_succ, length_app, Nat2Z.inj_add.
  rewrite (Hl1 Hs), (Hl2 Hs). lia.
Qed.

Lemma ldouble_complex_serialize_size_witness :
  let P := linux_armhf in
  let v := ctypes_copy_ldouble_complex (FInf true, pos_zero) in
  let rt := initialised P in
  exists w,
    ldouble_complex_serialize P v rt
    = (Return (1 + 2 * wire_size P, 1 + 2 * wire_size P),
       with_extern_out rt
         (extern_out rt ++ byte.of_Z (LDBL_MANT_DIG P) :: w))
    /\ Z.of_nat (List.length (byte.of_Z (LDBL_MANT_DIG P) :: w))
       = 1 + 2 * wire_size P.
Proof.
  exact (ldouble_complex_serialize_size
           linux_armhf (ctypes_copy_ldouble_complex (FInf true, pos_zero))
           (initialised linux_armhf) eq_refl).
Defined.

Lemma caml_deserialize_uint_1_cons (b : byte) (rest : list byte) (rt : runtime) :
  caml_deserialize_uint_1 (with_intern_src rt (b :: rest))
  = (Return (byte.unsigned b), with_intern_src rt rest).
Proof.
  unfold caml_deserialize_uint_1, bind.
  change (b :: rest) with ([b] ++ rest).
  rewrite (intern_read_app 1 [b] rest rt eq_refl).
  unfold ret. rewrite le_combine_1. reflexivity.
Qed.

Lemma caml_deserialize_block_app
  (P : platform) (k len : nat) (w rest : list byte) (rt : runtime) :
  List.length w = (k * len)%nat ->
  exists data,
    caml_deserialize_block P k len (with_intern_src rt (w ++ rest))
    = (Return data, with_intern_src rt rest).
Proof.
  intros Hw. unfold caml_deserialize_block, bind.
  rewrite (intern_read_app (k * len) w rest rt Hw).
  eexists. reflexivity.
Qed.

(** With adequate storage, [ldouble_deserialize_data] consumes exactly
    [wire_size] bytes, whatever they are, and returns that count. *)
Lemma ldouble_deserialize_data_consumes
  (P : platform) (payload rest : list byte) (rt : runtime) :
  storage_ok P = true ->
  Z.of_nat (List.length payload) = wire_size P ->
  exists x,
    ldouble_deserialize_data P (with_intern_src rt (payload ++ rest))
    = (Return (x, wire_size P), with_intern_src rt rest).
Proof.
  unfold storage_ok, raw_bytes_path, wire_size, ldouble_deserialize_data.
  intros Hs Hlen.
  destruct (LDOUBLE_VALUE_BYTES P =? 16) eqn:H16.
  - destruct (caml_deserialize_block_app P 8 2 payload rest rt)
      as (data & Hd); [cbn; lia|].
    unfold bind, caml_deserialize_block_8. rewrite Hd.
    eexists. reflexivity.
  - destruct (LDOUBLE_VALUE_BYTES P =? 10) eqn:H10.
    + rewrite <- (firstn_skipn 8 payload), <- app_assoc.
      destruct (caml_deserialize_block_app
                  P 8 1 (firstn 8 payload) (skipn 8 payload ++ rest) rt)
        as (d0 & Hd0); [rewrite length_firstn; lia|].
      destruct (caml_deserialize_block_app
                  P 2 1 (skipn 8 payload) rest rt)
        as (d8 & Hd8); [rewrite length_skipn; lia|].
      unfold bind, caml_deserialize_block_8, caml_deserialize_block_2.
      rewrite Hd0, Hd8. eexists. reflexivity.
    + cbn [orb] in Hs. destruct (sizeof_double P =? 4) eqn:H4.
      * apply Z.eqb_eq in H4.
        destruct (caml_deserialize_block_app P 4 1 payload rest rt)
          as (data & Hd); [cbn; lia|].
        unfold bind, caml_deserialize_float_4, caml_deserialize_block_4, bind.
        rewrite Hd. eexists. reflexivity.
      * cbn [orb] in Hs. apply Z.eqb_eq in Hs.
        unfold bind, caml_deserialize_float_8, bind.
        rewrite (intern_read_app 8 payload rest rt) by lia.
        eexists. reflexivity.
Qed.

(** X13.  Byte accounting of the scalar deserialiser: on a stream that
    starts with the platform's tag and holds [wire_size] more bytes, of
    any content, it returns [1 + wire_size] and has consumed exactly that
    many bytes. *)
Theorem ldouble_deserialize_consumes
  (P : platform) (tag : byte) (payload rest : list byte) (rt : runtime) :
  storage_ok P = true ->
  byte.unsigned tag = LDBL_MANT_DIG P ->
  Z.of_nat (List.length payload) = wire_size P ->
  exists x,
    ldouble_deserialize P (with_intern_src rt (tag :: payload ++ rest))
    = (Return (x, 1 + wire_size P), with_intern_src rt rest).
Proof.
  intros Hs Htag Hlen.
  destruct (ldouble_deserialize_data_consumes P payload rest rt Hs Hlen)
    as (x & Hx).
  exists x. unfold ldouble_deserialize, bind at 1 2.
  rewrite caml_deserialize_uint_1_cons, Htag, Z.eqb_refl. cbn [negb].
  unfold ret at 1. unfold bind. rewrite Hx. reflexivity.
Qed.

Lemma ldouble_deserialize_consumes_witness :
  let P := linux_armhf in
  let o := Byte.x00 in
  exists x,
    ldouble_deserialize P
      (with_intern_src initial_runtime
         (Byte.x35 :: [o; o; o; o; o; o; Byte.xf0; Byte.x3f] ++ [Byte.xaa]))
    = (Return (x, 1 + wire_size P),
       with_intern_src initial_runtime [Byte.xaa]).
Proof.
  exact (ldouble_deserialize_consumes
           linux_armhf Byte.x35
           [Byte.x00; Byte.x00; Byte.x00; Byte.x00; Byte.x00; Byte.x00;
            Byte.xf0; Byte.x3f]
           [Byte.xaa] initial_runtime eq_refl eq_refl eq_refl).
Defined.

(** X14.  Byte accounting of the complex deserialiser: after the tag it
    consumes two value blocks and returns [1 + 2 * wire_size]. *)
Theorem ldouble_complex_deserialize_consumes
  (P : platform) (tag : byte) (re im rest : list byte) (rt : runtime) :
  storage_ok P = true ->
  byte.unsigned tag = LDBL_MANT_DIG P ->
  Z.of_nat (List.length re) = wire_size P ->
  Z.of_nat (List.length im) = wire_size P ->
  exists z,
    ldouble_complex_deserialize P
      (with_intern_src rt (tag :: re ++ im ++ rest))
    = (Return (z, 1 + 2 * wire_size P), with_intern_src rt rest).
Proof.
  intros Hs Htag Hre Him.
  destruct (ldouble_deserialize_data_consumes P re (im ++ rest) rt Hs Hre)
    as (x & Hx).
  destruct (ldouble_deserialize_data_consumes P im rest rt Hs Him)
    as (y & Hy).
  unfold ldouble_complex_deserialize, bind at 1 2.
  rewrite caml_deserialize_uint_1_cons, Htag, Z.eqb_refl. cbn [negb].
  unfold ret at 1. unfold bind. rewrite Hx, Hy. unfold ret. cbn [fst snd].
  replace (wire_size P + wire_size P) with (2 * wire_size P) by lia.
  eexists. reflexivity.
Qed.

Lemma ldouble_complex_deserialize_consumes_witness :
  let P := linux_armhf in
  let o := Byte.x00 in
  exists z,
    ldouble_complex_deserialize P
      (with_intern_src initial_runtime
         (Byte.x35 :: [o; o; o; o; o; o; Byte.xf0; Byte.x3f]
                   ++ [o; o; o; o; o; o; o; Byte.x40] ++ []))
    = (Return (z, 1 + 2 * wire_size P), with_intern_src initial_runtime []).
Proof.
  exact (ldouble_complex_deserialize_consumes
           linux_armhf Byte.x35
           [Byte.x00; Byte.x00; Byte.x00; Byte.x00; Byte.x00; Byte.x00;
            Byte.xf0; Byte.x3f]
           [Byte.x00; Byte.x00; Byte.x00; Byte.x00; Byte.x00; Byte.x00;
            Byte.x00; Byte.x40]
           [] initial_runtime eq_refl eq_refl eq_refl eq_refl).
Defined.

(** X15.  A value serialised under one format is refused under another:
    whatever value is serialised on a platform whose mantissa digit count
    fits the tag byte, the scalar and the complex deserialisers of a
    platform with a different count raise [Failure "invalid long double
    size"] on those bytes. *)
Theorem foreign_wire_is_rejected
  (P1 P2 : platform) (v : value) (rt1 rt2 : runtime) :
  0 <= LDBL_MANT_DIG P1 < 256 ->
  LDBL_MANT_DIG P1 <> LDBL_MANT_DIG P2 ->
  fst (ldouble_deserialize P2
         (with_intern_src rt2 (wire_of (ldouble_serialize P1 v) rt1)))
  = Raise (Failure "invalid long double size")
  /\ fst (ldouble_complex_deserialize P2
            (with_intern_src rt2
               (wire_of (ldouble_complex_serialize P1 v) rt1)))
     = Raise (Failure "invalid long double size").
Proof.
  intros Hrange Hne.
  assert (Htag : (byte.unsigned (byte.of_Z (LDBL_MANT_DIG P1))
                  =? LDBL_MANT_DIG P2) = false).
  { apply Z.eqb_neq. rewrite byte.unsigned_of_Z. unfold byte.wrap.
    rewrite Z.mod_small by exact Hrange. exact Hne. }
  set (rt0 := with_extern_out rt1 []).
  set (rtt := with_extern_out rt0 (extern_out rt0 ++ [byte.of_Z (LDBL_MANT_DIG P1)])).
  split.
  - destruct (ldouble_serialize_data_appends
                P1 (norm P1 rt0 (ldouble_custom_val v)) rtt) as (w & Hw & _).
    assert (Hwire : wire_of (ldouble_serialize P1 v) rt1
                    = byte.of_Z (LDBL_MANT_DIG P1) :: w).
    { unfold wire_of, ldouble_serialize, bind at 1 2, get,
        caml_serialize_int_1, extern_write.
      fold rt0. fold rtt. unfold bind. rewrite Hw. reflexivity. }
    rewrite Hwire. unfold ldouble_deserialize, bind at 1 2.
    rewrite caml_deserialize_uint_1_cons, Htag. reflexivity.
  - destruct (ldouble_serialize_data_appends
                P1 (nth 0 (Data_custom_val v) pos_zero) rtt) as (w1 & Hw1 & _).
    destruct (ldouble_serialize_data_appends
                P1 pos_zero (with_extern_out rtt (extern_out rtt ++ w1)))
      as (w2 & Hw2 & _).
    assert (Hwire : wire_of (ldouble_complex_serialize P1 v) rt1
                    = byte.of_Z (LDBL_MANT_DIG P1) :: w1 ++ w2).
    { unfold wire_of, ldouble_complex_serialize, bind at 1,
        caml_serialize_int_1, extern_write.
      fold rt0. fold rtt. cbn [creall cimagl complex_of_real fst snd].
      unfold bind. rewrite Hw1, Hw2. unfold ret.
      rewrite with_extern_out_twice. cbn [snd extern_out with_extern_out rtt rt0 app].
      reflexivity. }
    rewrite Hwire. unfold ldouble_complex_deserialize, bind at 1 2.
    rewrite caml_deserialize_uint_1_cons, Htag. reflexivity.
Qed.

Lemma foreign_wire_is_rejected_witness :
  let v := ctypes_copy_ldouble (FInf false) in
  fst (ldouble_deserialize linux_armhf
         (with_intern_src initial_runtime
            (wire_of (ldouble_serialize linux_x86_64 v)
                     (initialised linux_x86_64))))
  = Raise (Failure "invalid long double size")
  /\ fst (ldouble_complex_deserialize linux_armhf
            (with_intern_src initial_runtime
               (wire_of (ldouble_complex_serialize linux_x86_64 v)
                        (initialised linux_x86_64))))
     = Raise (Failure "invalid long double size").
Proof.
  apply (foreign_wire_is_rejected
           linux_x86_64 linux_armhf (ctypes_copy_ldouble (FInf false))
           (initialised linux_x86_64) initial_runtime).
  - cbn. lia.
  - cbn. discriminate.
Defined.



Lemma ldouble_cmp_norm (P : platform) (rt rt' : runtime) (x : fp) :
  is_nan (nan_ rt) = true ->
  fst (ldouble_cmp (norm P rt x) x rt') = Return EQUAL.
Proof.
  intros Hn. rewrite norm_cases.
  destruct x as [s|s|s pl|s m e].
  - reflexivity.
  - rewrite (ldouble_cmp_ordered _ _ Eq rt'
               (fp_compare_refl (FInf s) eq_refl)).
    reflexivity.
  - destruct (nan_ rt) as [| |sn pn|]; try discriminate.
    rewrite ldouble_cmp_nan_l. reflexivity.
  - rewrite (ldouble_cmp_ordered _ _ Eq rt'
               (fp_compare_refl (FFinite s m e) eq_refl)).
    reflexivity.
Qed.



(** ** Parsing, continued *)



(** ** Arithmetic facade *)

Lemma ldouble_cmp_refl (x : fp) (rt : runtime) :
  fst (ldouble_cmp x x rt) = Return EQUAL.
Proof.
  destruct (is_nan x) eqn:N.
  - destruct x; try discriminate. rewrite ldouble_cmp_nan_l. reflexivity.
  - rewrite (ldouble_cmp_ordered x x Eq rt (fp_compare_refl x N)). reflexivity.
Qed.

Lemma ldouble_cmp_two_nans (x y : fp) (rt : runtime) :
  is_nan x = true -> is_nan y = true ->
  fst (ldouble_cmp x y rt) = Return EQUAL.
Proof.
  intros Hx Hy. destruct x; try discriminate. destruct y; try discriminate.
  rewrite ldouble_cmp_nan_l. reflexivity.
Qed.

Lemma fp_add_comm (f : format) (x y : fp) :
  fp_add f y x = fp_add f x y
  \/ (is_nan (fp_add f x y) = true /\ is_nan (fp_add f y x) = true).
Proof.
  destruct x as [sx|sx|sx px|sx mx ex]; destruct y as [sy|sy|sy py|sy my ey];
    cbn [fp_add quiet is_nan default_nan]; auto.
  - left. destruct sx, sy; reflexivity.
  - destruct sx, sy; cbn; auto.
  - left. rewrite (Z.min_comm ey ex), Z.add_comm. reflexivity.
Qed.

Lemma fp_mul_comm (f : format) (x y : fp) :
  fp_mul f y x = fp_mul f x y
  \/ (is_nan (fp_mul f x y) = true /\ is_nan (fp_mul f y x) = true).
Proof.
  destruct x as [sx|sx|sx px|sx mx ex]; destruct y as [sy|sy|sy py|sy my ey];
    cbn [fp_mul quiet is_nan default_nan]; auto;
    try (left; rewrite (xorb_comm sy sx); reflexivity).
  left. rewrite (xorb_comm sy sx), (Pos.mul_comm my mx), (Z.add_comm ey ex).
  reflexivity.
Qed.


(** ** Conversions *)

Lemma round_fp_integer (f : format) (s : bool) (m : positive) :
  holds_integers f = true -> Z.pos m < 2 ^ prec f ->
  exists n k, 0 <= k /\ Z.pos n = Z.pos m * 2 ^ k
              /\ round_fp f s m 0 = FFinite s n (- k).
Proof.
  unfold holds_integers, holds_one. intros Hf Hm.
  apply andb_true_iff in Hf. destruct Hf as [Hf Hpe].
  apply andb_true_iff in Hf. destruct Hf as [Hp He].
  apply Z.leb_le in Hp. apply Z.leb_le in He. apply Z.leb_le in Hpe.
  assert (Hd : digits2 m <= prec f).
  { unfold digits2.
    assert (Z.log2 (Z.pos m) < prec f) by (apply Z.log2_lt_pow2; lia). lia. }
  assert (Hd1 : 1 <= digits2 m)
    by (unfold digits2; pose proof (Z.log2_nonneg (Z.pos m)); lia).
  unfold round_fp. rewrite Z.add_0_r.
  set (e' := fexp f (digits2 m)).
  assert (He' : e' <= 0 /\ digits2 m - prec f <= e')
    by (unfold e', fexp, emin; lia).
  replace (e' <=? 0) with true by (symmetry; apply Z.leb_le; lia).
  assert (Hpos : 0 < Z.pos m * 2 ^ (0 - e'))
    by (apply Z.mul_pos_pos; [lia|apply Z.pow_pos_nonneg; lia]).
  destruct (Z.pos m * 2 ^ (0 - e')) as [|n|n] eqn:En; try lia.
  exists n, (- e'). split; [lia|]. split.
  - rewrite <- En. replace (0 - e') with (- e') by lia. reflexivity.
  - unfold round_finish.
    assert (Hdn : digits2 n = digits2 m + (0 - e')).
    { unfold digits2 at 1. rewrite <- En. apply digits2_scaled. lia. }
    replace (prec f <? digits2 n) with false
      by (symmetry; apply Z.ltb_ge; lia).
    replace (e' <=? emax f - prec f) with true
      by (symmetry; apply Z.leb_le; lia).
    replace (- - e') with e' by lia. reflexivity.
Qed.

Lemma truncate_scaled (q m : positive) (k : Z) :
  0 <= k -> Z.pos q = Z.pos m * 2 ^ k ->
  (if 0 <=? - k then Z.pos q * 2 ^ (- k) else Z.pos q / 2 ^ (- - k))
  = Z.pos m.
Proof.
  intros Hk Hq. destruct (Z.eq_dec k 0) as [->|Hk0].
  - change (- 0) with 0. change (0 <=? 0) with true. cbv iota.
    rewrite Hq. change (2 ^ 0) with 1. lia.
  - replace (0 <=? - k) with false by (symmetry; apply Z.leb_gt; lia).
    rewrite Hq, Z.opp_involutive, Z.div_mul; [reflexivity|].
    apply Z.pow_nonzero; lia.
Qed.

Lemma fp_truncate_of_Z (f : format) (n : Z) :
  holds_integers f = true -> Z.abs n < 2 ^ prec f ->
  fp_truncate (fp_of_Z f n) = n.
Proof.
  intros Hf Hn. destruct n as [|m|m]; cbn [fp_of_Z].
  - reflexivity.
  - destruct (round_fp_integer f false m Hf Hn) as (q & k & Hk & Hq & ->).
    unfold fp_truncate, signed. apply (truncate_scaled q m k); assumption.
  - destruct (round_fp_integer f true m Hf Hn) as (q & k & Hk & Hq & ->).
    unfold fp_truncate, signed. rewrite (truncate_scaled q m k) by assumption.
    reflexivity.
Qed.

Lemma fp_of_Z_finite (f : format) (n : Z) :
  holds_integers f = true -> Z.abs n < 2 ^ prec f ->
  is_finite (fp_of_Z f n) = true.
Proof.
  intros Hf Hn. destruct n as [|m|m]; cbn [fp_of_Z].
  - reflexivity.
  - destruct (round_fp_integer f false m Hf Hn) as (q & k & _ & _ & ->).
    reflexivity.
  - destruct (round_fp_integer f true m Hf Hn) as (q & k & _ & _ & ->).
    reflexivity.
Qed.

(** X18.  An OCaml integer [n] of magnitude below [2 ^ LDBL_MANT_DIG]
    converted to a boxed [long double] and back: a non-negative [n]
    comes back unchanged; a negative [n] reaches the conversion to
    [uintnat] inside [Val_long], which C leaves undefined. *)
Theorem to_int_of_int (P : platform) (intnat_bits n : Z) :
  holds_integers (ldbl P) = true ->
  2 <= intnat_bits ->
  - 2 ^ (intnat_bits - 2) <= n < 2 ^ (intnat_bits - 2) ->
  Z.abs n < 2 ^ LDBL_MANT_DIG P ->
  ctypes_ldouble_to_int intnat_bits (ctypes_ldouble_of_int P (Val_long n))
  = if 0 <=? n then Some (Val_long n) else None.
Proof.
  intros Hf Hb Hn Hp.
  unfold ctypes_ldouble_to_int, ctypes_ldouble_of_int, fp_to_unsigned.
  cbn [ctypes_copy_ldouble ldouble_custom_val Data_custom_val nth Long_val].
  rewrite (fp_of_Z_finite (ldbl P) n Hf Hp).
  cbv zeta. rewrite (fp_truncate_of_Z (ldbl P) n Hf Hp).
  assert (H2 : 2 ^ (intnat_bits - 1) = 2 * 2 ^ (intnat_bits - 2)).
  { replace (intnat_bits - 1) with (1 + (intnat_bits - 2)) by lia.
    rewrite Z.pow_add_r by lia. reflexivity. }
  assert (H3 : 2 ^ intnat_bits = 2 * 2 ^ (intnat_bits - 1)).
  { replace intnat_bits with (1 + (intnat_bits - 1)) at 1 by lia.
    rewrite Z.pow_add_r by lia. reflexivity. }
  destruct (0 <=? n) eqn:E0; cbn [andb]; [|reflexivity].
  apply Z.leb_le in E0.
  replace (n <? 2 ^ intnat_bits) with true
    by (symmetry; apply Z.ltb_lt; lia).
  unfold wrap_signed. do 2 f_equal.
  replace (intnat_bits - 1 - 1) with (intnat_bits - 2) by lia.
  rewrite Z.mod_small by lia. lia.
Qed.

Lemma to_int_of_int_witness :
  ctypes_ldouble_to_int 64 (ctypes_ldouble_of_int linux_armhf
                                                  (Val_long (2 ^ 53 - 1)))
  = Some (Val_long (2 ^ 53 - 1)).
Proof.
  apply (to_int_of_int linux_armhf 64 (2 ^ 53 - 1)).
  - reflexivity.
  - lia.
  - cbn. lia.
  - cbn. lia.
Defined.

(** A value of a format, rounded into a format at least as wide, keeps
    its value: the mantissa only gains [k] low zero bits. *)
Lemma round_fp_widen (fd fl : format) (s : bool) (m : positive) (e : Z) :
  bounded fd m e = true ->
  prec fd <= prec fl -> emin fl <= emin fd ->
  emax fd - prec fd <= emax fl - prec fl ->
  exists n k, 0 <= k /\ Z.pos n = Z.pos m * 2 ^ k
              /\ round_fp fl s m e = FFinite s n (e - k).
Proof.
  intros Hb Hp Hemin Hemax.
  destruct (bounded_digits fd m e Hb) as (Hc & Hd & He).
  unfold round_fp. set (e' := fexp fl (digits2 m + e)).
  assert (He' : e' <= e /\ digits2 m + e - prec fl <= e').
  { unfold e'. unfold fexp in *. lia. }
  replace (e' <=? e) with true by (symmetry; apply Z.leb_le; lia).
  assert (Hpos : 0 < Z.pos m * 2 ^ (e - e'))
    by (apply Z.mul_pos_pos; [lia|apply Z.pow_pos_nonneg; lia]).
  destruct (Z.pos m * 2 ^ (e - e')) as [|n|n] eqn:En; try lia.
  exists n, (e - e'). split; [lia|]. split; [symmetry; exact En|].
  unfold round_finish.
  assert (Hdn : digits2 n = digits2 m + (e - e')).
  { unfold digits2 at 1. rewrite <- En. apply digits2_scaled. lia. }
  replace (prec fl <? digits2 n) with false by (symmetry; apply Z.ltb_ge; lia).
  replace (e' <=? emax fl - prec fl) with true
    by (symmetry; apply Z.leb_le; lia).
  replace (e - (e - e')) with e' by lia. reflexivity.
Qed.

(** The payload of a quiet NaN survives widening and narrowing back. *)
Lemma nan_payload_widen_narrow (pd pl : Z) (p : positive) :
  2 <= pd -> pd <= pl -> Z.testbit (Z.pos p) (pd - 2) = true ->
  let d := pl - pd in
  let wide := Z.lor (Z.pos p * 2 ^ d) (2 ^ (pl - 2)) in
  Z.lor (if 0 <=? - d then Z.pos (Z.to_pos wide) * 2 ^ (- d)
         else Z.pos (Z.to_pos wide) / 2 ^ (- - d)) (2 ^ (pd - 2))
  = Z.pos p.
Proof.
  intros Hpd Hpl Hq d wide.
  assert (Hd : 0 <= d) by (unfold d; lia).
  assert (Hwide : wide = Z.shiftl (Z.pos p) d).
  { unfold wide. rewrite <- Z.shiftl_mul_pow2 by lia.
    apply Z.bits_inj'. intros n Hn.
    rewrite Z.lor_spec, Z.pow2_bits_eqb by lia.
    destruct (Z.eqb_spec (pl - 2) n) as [<-|_]; [|apply orb_false_r].
    rewrite orb_true_r. rewrite Z.shiftl_spec by lia.
    replace (pl - 2 - d) with (pd - 2) by (unfold d; lia).
    symmetry. exact Hq. }
  assert (Hwpos : 0 < wide).
  { rewrite Hwide, Z.shiftl_mul_pow2 by lia.
    apply Z.mul_pos_pos; [lia|apply Z.pow_pos_nonneg; lia]. }
  rewrite Z2Pos.id by lia.
  assert (Hback : (if 0 <=? - d then wide * 2 ^ (- d)
                   else wide / 2 ^ (- - d)) = Z.pos p).
  { destruct (Z.eq_dec d 0) as [Hd0|Hd0].
    - rewrite Hwide, Hd0. cbn. lia.
    - replace (0 <=? - d) with false by (symmetry; apply Z.leb_gt; lia).
      rewrite Z.opp_involutive, Hwide, Z.shiftl_mul_pow2 by lia.
      apply Z.div_mul. apply Z.pow_nonzero; lia. }
  rewrite Hback.
  apply Z.bits_inj'. intros n Hn.
  rewrite Z.lor_spec, Z.pow2_bits_eqb by lia.
  destruct (Z.eqb_spec (pd - 2) n) as [<-|_]; [|apply orb_false_r].
  rewrite Hq. reflexivity.
Qed.

(** X19.  Where [long double] is at least as wide as [double], a
    [double] that is not a signalling NaN survives the conversion to a
    boxed [long double] and back, bit for bit. *)
Theorem to_float_of_float (P : platform) (d : fp) :
  widening_ok P = true ->
  valid (dbl P) d = true ->
  quiet_or_number (dbl P) d = true ->
  ctypes_ldouble_to_float P (ctypes_ldouble_of_float P (Val_double d))
  = Val_double d.
Proof.
  unfold widening_ok. intros HP Hv Hq.
  apply andb_true_iff in HP. destruct HP as [HP Hemax].
  apply andb_true_iff in HP. destruct HP as [HP Hemin].
  apply andb_true_iff in HP. destruct HP as [Hpd Hpl].
  apply Z.leb_le in Hemax. apply Z.leb_le in Hemin.
  apply Z.leb_le in Hpd. apply Z.leb_le in Hpl.
  unfold ctypes_ldouble_to_float, ctypes_ldouble_of_float, caml_copy_double.
  cbn [ctypes_copy_ldouble ldouble_custom_val Data_custom_val nth Double_val].
  f_equal. unfold fp_cast.
  destruct (same_format (dbl P) (ldbl P)) eqn:Esame.
  { apply same_format_eq in Esame. rewrite <- Esame.
    rewrite same_format_refl. reflexivity. }
  assert (Esame' : same_format (ldbl P) (dbl P) = false).
  { unfold same_format in *. rewrite (Z.eqb_sym (prec (ldbl P))).
    rewrite (Z.eqb_sym (emax (ldbl P))). exact Esame. }
  destruct d as [s|s|s p|s m e]; cbn [fp_convert].
  - rewrite Esame'. reflexivity.
  - rewrite Esame'. reflexivity.
  - rewrite Esame'. cbn [fp_convert].
    cbn [quiet_or_number] in Hq. unfold is_quiet in Hq. unfold quiet_bit.
    replace (prec (dbl P) - prec (ldbl P))
      with (- (prec (ldbl P) - prec (dbl P))) by lia.
    replace (0 <=? prec (ldbl P) - prec (dbl P)) with true
      by (symmetry; apply Z.leb_le; lia).
    rewrite (nan_payload_widen_narrow (prec (dbl P)) (prec (ldbl P)) p
               Hpd Hpl Hq).
    reflexivity.
  - cbn [valid] in Hv.
    destruct (round_fp_widen (dbl P) (ldbl P) s m e Hv Hpl Hemin Hemax)
      as (n & k & Hk & Hn & ->).
    rewrite Esame'. cbn [fp_convert]. apply round_fp_scaled; assumption.
Qed.

Lemma to_float_of_float_witness :
  let d := FFinite true (2 ^ 52 + 1) (-1074) in
  ctypes_ldouble_to_float linux_x86_64
    (ctypes_ldouble_of_float linux_x86_64 (Val_double d))
  = Val_double d.
Proof.
  exact (to_float_of_float linux_x86_64
           (FFinite true (2 ^ 52 + 1) (-1074)) eq_refl eq_refl eq_refl).
Defined.

(** ** Classification *)

(** X23.  [classify] agrees with the comparison hook: a boxed value is
    classified ZERO exactly when it compares EQUAL to +0 (so -0 is ZERO),
    and NAN exactly when comparing it with itself raises the unordered
    signal. *)
Theorem classify_agrees_with_cmp (P : platform) (v : value) (rt : runtime) :
  (ctypes_ldouble_classify P v = ml_FP_ZERO
   <-> fst (ldouble_cmp_val v (ctypes_copy_ldouble pos_zero) rt)
       = Return EQUAL)
  /\ (ctypes_ldouble_classify P v = ml_FP_NAN
      <-> caml_compare_unordered (snd (ldouble_cmp_val v v initial_runtime))
          = true).
Proof.
  unfold ctypes_ldouble_classify, ldouble_cmp_val.
  change (ldouble_custom_val (ctypes_copy_ldouble pos_zero)) with pos_zero.
  set (x := ldouble_custom_val v).
  destruct x as [s|s|s pl|s m e]; cbn [fpclassify].
  - rewrite (ldouble_cmp_ordered (FZero s) (FZero s) Eq initial_runtime eq_refl).
    split; split; intros H; try reflexivity; discriminate.
  - rewrite (ldouble_cmp_ordered (FInf s) pos_zero (if s then Lt else Gt) rt)
      by (destruct s; reflexivity).
    rewrite (ldouble_cmp_ordered (FInf s) (FInf s) Eq initial_runtime
               (fp_compare_refl (FInf s) eq_refl)).
    destruct s; split; split; intros H; discriminate.
  - rewrite !ldouble_cmp_nan_l.
    split; split; intros H; try reflexivity; discriminate.
  - rewrite (ldouble_cmp_ordered (FFinite s m e) pos_zero
               (if s then Lt else Gt) rt) by reflexivity.
    rewrite (ldouble_cmp_ordered (FFinite s m e) (FFinite s m e) Eq
               initial_runtime (fp_compare_refl (FFinite s m e) eq_refl)).
    destruct (digits2 m <? prec (ldbl P)), s;
      split; split; intros H; discriminate.
Qed.
